(** * Space picker core: selection, filtering, rate limiting, retry, validation

    A shallow embedding of the pure and stateful logic behind the SpacePicker
    widgets (shared/hooks/useSpaceOperations.ts, shared/utils/spaceHelpers.ts,
    shared/utils/validationHelpers.ts, the [useRetry] hook and
    SpacePicker/context/SpacePickerContext.tsx), with the properties the
    design document states about it. *)

From Stdlib Require Import ZArith String Ascii List Bool Lia Permutation Sorted.
From Stdlib Require DecimalString.
From stdpp Require Import base list strings gmap.
Import ListNotations.
Local Open Scope string_scope.
Local Open Scope list_scope.

(** ** JavaScript strings

    A string is a sequence of code units; the model covers code units below
    256, where a code unit and the character it denotes coincide.  [length],
    [includes], [slice], [split] and [trim] are the ECMAScript built-ins
    restricted to that range. *)

Module JsString.

Definition length (s : string) : Z := Z.of_nat (String.length s).

(** [s.includes(sub)]: [sub] occurs in [s] as a contiguous substring. *)
Fixpoint includes (s sub : string) : bool :=
  String.prefix sub s ||
  match s with
  | EmptyString => false
  | String _ rest => includes rest sub
  end.

(** ECMAScript WhiteSpace and LineTerminator code units below 256:
    TAB, LF, VT, FF, CR, SP and NBSP. *)
Definition isWhiteSpace (c : ascii) : bool :=
  let n := nat_of_ascii c in
  ((9 <=? n)%nat && (n <=? 13)%nat) || (n =? 32)%nat || (n =? 160)%nat.

Fixpoint trimStart (s : string) : string :=
  match s with
  | EmptyString => EmptyString
  | String c rest => if isWhiteSpace c then trimStart rest else s
  end.

(** [trimEnd] keeps a character when it is not white space or when
    something survives to its right. *)
Fixpoint trimEnd (s : string) : string :=
  match s with
  | EmptyString => EmptyString
  | String c rest =>
      match trimEnd rest with
      | EmptyString => if isWhiteSpace c then EmptyString else String c EmptyString
      | kept => String c kept
      end
  end.

Definition trim (s : string) : string := trimEnd (trimStart s).

(** [s.slice(0, n)] for [0 <= n]. *)
Fixpoint take (n : nat) (s : string) : string :=
  match n, s with
  | O, _ => EmptyString
  | _, EmptyString => EmptyString
  | S k, String c rest => String c (take k rest)
  end.

Fixpoint drop (n : nat) (s : string) : string :=
  match n, s with
  | O, _ => s
  | _, EmptyString => EmptyString
  | S k, String _ rest => drop k rest
  end.

(** [s.slice(-n)] for [0 < n]: the last [n] code units (all of [s] when it
    is shorter). *)
Definition takeLast (n : nat) (s : string) : string :=
  drop (String.length s - n) s.

(** [s.split(sep)] for a one-character separator: always at least one
    piece, empty pieces kept. *)
Fixpoint split (sep : ascii) (s : string) : list string :=
  match s with
  | EmptyString => [EmptyString]
  | String c rest =>
      if Ascii.eqb c sep then EmptyString :: split sep rest
      else match split sep rest with
           | piece :: pieces => String c piece :: pieces
           | [] => [String c EmptyString]
           end
  end.

(** [parts.join(sep)]. *)
Fixpoint join (sep : string) (parts : list string) : string :=
  match parts with
  | [] => EmptyString
  | [p] => p
  | p :: rest => p ++ sep ++ join sep rest
  end.

(** ASCII case mapping, the restriction of [toLowerCase]/[toUpperCase] to
    strings of code units below 128.  The functions of this development
    take the case mappings as parameters; these instances are used to
    evaluate them on ASCII inputs. *)
Definition lowerChar (c : ascii) : ascii :=
  let n := nat_of_ascii c in
  if (65 <=? n)%nat && (n <=? 90)%nat then ascii_of_nat (n + 32) else c.

Definition upperChar (c : ascii) : ascii :=
  let n := nat_of_ascii c in
  if (97 <=? n)%nat && (n <=? 122)%nat then ascii_of_nat (n - 32) else c.

Fixpoint mapChars (f : ascii -> ascii) (s : string) : string :=
  match s with
  | EmptyString => EmptyString
  | String c rest => String (f c) (mapChars f rest)
  end.

Definition asciiLower : string -> string := mapChars lowerChar.
Definition asciiUpper : string -> string := mapChars upperChar.

(** Code-unit order as a three-way comparison; on lower-case ASCII letters
    and digits every collation agrees with it. *)
Definition codeUnitCompare (a b : string) : Z :=
  match String.compare a b with
  | Lt => (-1)%Z
  | Eq => 0%Z
  | Gt => 1%Z
  end.

End JsString.

(** ** Data model *)

Inductive AccessType := public | private.

Definition AccessType_eqb (a b : AccessType) : bool :=
  match a, b with
  | public, public | private, private => true
  | _, _ => false
  end.

(** A [Space] as the components read it: [did()], the optional [name] and
    the optional [access.type]. *)
Record Space := mkSpace {
  did : string;
  name : option string;
  access : option AccessType
}.

(** ** Selection: [useSpaceSelection] and the picker context *)

Module Selection.

Definition sameDid (a b : Space) : bool := String.eqb (did a) (did b).

(** The state updater inside [selectSpace]. *)
Definition selectSpace (space : Space) (prev : list Space) : list Space :=
  if existsb (fun s => sameDid s space) prev
  then List.filter (fun s => negb (sameDid s space)) prev
  else prev ++ [space].

Definition selectAllSpaces (spaces : list Space) (_ : list Space) : list Space :=
  spaces.

Definition clearSelection (_ : list Space) : list Space := [].

Definition isSpaceSelected (selectedSpaces : list Space) (space : Space) : bool :=
  existsb (fun s => sameDid s space) selectedSpaces.

Definition selectedCount (selectedSpaces : list Space) : nat :=
  List.length selectedSpaces.

Definition allSelected (spaces selectedSpaces : list Space) : bool :=
  (selectedCount selectedSpaces =? List.length spaces)%nat
  && (0 <? List.length spaces)%nat.

Definition someSelected (spaces selectedSpaces : list Space) : bool :=
  (0 <? selectedCount selectedSpaces)%nat
  && (selectedCount selectedSpaces <? List.length spaces)%nat.

(** What a [SpacePickerProvider] owns: the selection held by
    [useSpaceSelection] and, as a trace, the calls it made to the
    [onSpaceSelect] prop. *)
Record Picker := mkPicker {
  selectedSpaces : list Space;
  onSpaceSelectCalls : list Space
}.

Definition initial : Picker := mkPicker [] [].

Definition toggleSpaceSelection (space : Space) (p : Picker) : Picker :=
  mkPicker (selectSpace space (selectedSpaces p)) (onSpaceSelectCalls p).

Definition selectAllSpacesAction (filteredSpaces : list Space) (p : Picker) : Picker :=
  mkPicker (selectAllSpaces filteredSpaces (selectedSpaces p)) (onSpaceSelectCalls p).

Definition clearSpaceSelection (p : Picker) : Picker :=
  mkPicker (clearSelection (selectedSpaces p)) (onSpaceSelectCalls p).

(** [handleSpaceSelect], the context's [onSpaceSelect]: the handler of a
    click on an item. *)
Definition handleSpaceSelect (allowMultiSelect : bool) (space : Space) (p : Picker) : Picker :=
  if allowMultiSelect then toggleSpaceSelection space p
  else mkPicker (selectedSpaces p) (onSpaceSelectCalls p ++ [space]).

(** The selection operations a consumer of the context can trigger. *)
Inductive Op :=
| Click (space : Space)      (* onSpaceSelect = handleSpaceSelect *)
| Toggle (space : Space)     (* toggleSpaceSelection *)
| SelectAll                  (* selectAllSpaces *)
| Clear.                     (* clearSpaceSelection *)

Definition step (allowMultiSelect : bool) (filteredSpaces : list Space)
    (p : Picker) (op : Op) : Picker :=
  match op with
  | Click s => handleSpaceSelect allowMultiSelect s p
  | Toggle s => toggleSpaceSelection s p
  | SelectAll => selectAllSpacesAction filteredSpaces p
  | Clear => clearSpaceSelection p
  end.

Definition run (allowMultiSelect : bool) (filteredSpaces : list Space)
    (ops : list Op) : Picker :=
  fold_left (step allowMultiSelect filteredSpaces) ops initial.

(** Operations that go through the [allowMultiSelect] check or empty the
    selection. *)
Definition guarded (op : Op) : bool :=
  match op with
  | Click _ | Clear => true
  | Toggle _ | SelectAll => false
  end.

(** The spaces clicked, in order. *)
Definition clicked (ops : list Op) : list Space :=
  omap (fun op => match op with Click s => Some s | _ => None end) ops.

End Selection.

(** ** Runtime built-ins taken as an interface

    Unicode case mapping and locale-aware collation belong to the JavaScript
    runtime, not to the repository; [formatFileSize] is repository code but
    computes with floating point ([Math.log], [toFixed]); [addOneYear] is the
    calendar arithmetic of [Date.prototype.setFullYear (getFullYear () + 1)]
    on a time stamp in milliseconds.  The development is parametric in
    them. *)

Class Runtime := {
  toLowerCase : string -> string;
  toUpperCase : string -> string;
  localeCompare : string -> string -> Z;
  formatFileSize : Z -> string;
  addOneYear : Z -> Z
}.

(** *** A runtime for evaluating the functions on ASCII inputs

    Case mapping and comparison are the ASCII ones.  [formatFileSize] is
    computed in exact arithmetic: the unit is found by repeated division by
    1024 and the value is rounded half up to two decimals, trailing zeros
    dropped.  A year has 365 days. *)

Module SampleRuntime.

Definition decimal (n : Z) : string :=
  DecimalString.NilZero.string_of_uint (N.to_uint (Z.to_N n)).

(** [Math.floor (Math.log (bytes) / Math.log (1024))], for [0 < bytes]. *)
Fixpoint unitIndex (fuel : nat) (bytes : Z) : nat :=
  match fuel with
  | O => O
  | S fuel' =>
      if (bytes <? 1024)%Z then O else S (unitIndex fuel' (bytes / 1024))
  end.

Definition sizes : list string := ["Bytes"; "KB"; "MB"; "GB"; "TB"].

Definition formatFileSize (bytes : Z) : string :=
  if (bytes =? 0)%Z then "0 Bytes"
  else
    let i := unitIndex 64 bytes in
    let unit := (1024 ^ Z.of_nat i)%Z in
    let hundredths := ((bytes * 100 + unit / 2) / unit)%Z in
    let whole := (hundredths / 100)%Z in
    let cents := (hundredths mod 100)%Z in
    let digits :=
      (if (cents =? 0)%Z then decimal whole
       else if (cents mod 10 =? 0)%Z then decimal whole ++ "." ++ decimal (cents / 10)
       else if (cents <? 10)%Z then decimal whole ++ ".0" ++ decimal cents
       else decimal whole ++ "." ++ decimal cents)%string in
    (digits ++ " " ++ nth i sizes "undefined")%string.

Definition addOneYear (ms : Z) : Z := (ms + 365 * 24 * 60 * 60 * 1000)%Z.

End SampleRuntime.

Definition asciiRuntime : Runtime := {|
  toLowerCase := JsString.asciiLower;
  toUpperCase := JsString.asciiUpper;
  localeCompare := JsString.codeUnitCompare;
  formatFileSize := SampleRuntime.formatFileSize;
  addOneYear := SampleRuntime.addOneYear
|}.

(** ** [Array.prototype.sort]

    ECMAScript (2019 on) requires a stable sort.  For a comparator that is a
    consistent total preorder the result is unique, and it is what this
    insertion sort computes: an element stays in front of a later element
    unless the comparator puts it strictly after. *)

Module JsArray.
Section Sort.
Context {A : Type} (compareFn : A -> A -> Z).

Fixpoint insert (x : A) (sorted : list A) : list A :=
  match sorted with
  | [] => [x]
  | y :: rest =>
      if (0 <? compareFn x y)%Z then y :: insert x rest
      else x :: sorted
  end.

Definition sort (xs : list A) : list A := foldr insert [] xs.
End Sort.
End JsArray.

(** ** Filter and sort engine: [filterSpaces] and [useSpaceSearch] *)

Inductive AccessFilter := filterPublic | filterPrivate | filterAll.
Inductive SortBy := byName | byCreated | byUsage.
Inductive SortOrder := asc | desc.

(** [SpaceFilterOptions]: every field is optional. *)
Record SpaceFilterOptions := mkFilterOptions {
  query : option string;
  accessType : option AccessFilter;
  sortBy : option SortBy;
  sortOrder : option SortOrder
}.

Module Filter.
Section WithRuntime.
Context {rt : Runtime}.

(** [shortenDID (did, length = 8)]. *)
Definition shortenDID (d : string) : string :=
  if (JsString.length d <=? 8 * 2 + 3)%Z then d
  else JsString.take 8 d ++ "..." ++ JsString.takeLast 8 d.

(** Truthiness of an optional string: present and not empty. *)
Definition truthy (s : option string) : option string :=
  match s with
  | Some EmptyString | None => None
  | Some q => Some q
  end.

(** [space.name?.toLowerCase().includes(q) ||
     space.did().toLowerCase().includes(q)]. *)
Definition matchesQuery (q : string) (space : Space) : bool :=
  match name space with
  | Some n => JsString.includes (toLowerCase n) q
  | None => false
  end
  || JsString.includes (toLowerCase (did space)) q.

(** [space.access?.type === accessType] for a filter other than
    ['all']. *)
Definition matchesAccess (f : AccessFilter) (space : Space) : bool :=
  match access space, f with
  | Some public, filterPublic => true
  | Some private, filterPrivate => true
  | _, _ => false
  end.

(** [a.name || fallback]. *)
Definition nameOr (fallback : string) (a : Space) : string :=
  match truthy (name a) with
  | Some n => n
  | None => fallback
  end.

Definition applyOrder (order : option SortOrder) (comparison : Z) : Z :=
  match order with
  | Some desc => (- comparison)%Z
  | _ => comparison
  end.

(** The comparator of [filterSpaces]. *)
Definition compareSpaces (by_ : SortBy) (order : option SortOrder) (a b : Space) : Z :=
  let comparison :=
    match by_ with
    | byName =>
        let nameA := toLowerCase (nameOr (shortenDID (did a)) a) in
        let nameB := toLowerCase (nameOr (shortenDID (did b)) b) in
        localeCompare nameA nameB
    | byCreated => 0%Z
    | byUsage => 0%Z
    end in
  applyOrder order comparison.

Definition filterByQuery (q : option string) (xs : list Space) : list Space :=
  match truthy q with
  | Some q => List.filter (matchesQuery (toLowerCase q)) xs
  | None => xs
  end.

Definition filterByAccess (f : option AccessFilter) (xs : list Space) : list Space :=
  match f with
  | Some filterAll | None => xs
  | Some f => List.filter (matchesAccess f) xs
  end.

(** [filterSpaces] on array contents. *)
Definition filterSpaces (spaces : list Space) (filters : SpaceFilterOptions) : list Space :=
  let filtered := spaces in
  let filtered := filterByQuery (query filters) filtered in
  let filtered := filterByAccess (accessType filters) filtered in
  match sortBy filters with
  | Some by_ => JsArray.sort (compareSpaces by_ (sortOrder filters)) filtered
  | None => filtered
  end.

(** The state of [useSpaceSearch]: no field is optional. *)
Record SearchFilters := mkSearchFilters {
  searchAccessType : AccessFilter;
  searchSortBy : SortBy;
  searchSortOrder : SortOrder
}.

(** The comparator inside [useSpaceSearch]. *)
Definition compareSpacesInline (by_ : SortBy) (order : SortOrder) (a b : Space) : Z :=
  let comparison :=
    match by_ with
    | byName =>
        let nameA := toLowerCase (nameOr (did a) a) in
        let nameB := toLowerCase (nameOr (did b) b) in
        localeCompare nameA nameB
    | byCreated => 0%Z
    | byUsage => 0%Z
    end in
  applyOrder (Some order) comparison.

(** The [filteredSpaces] memo of [useSpaceSearch]. *)
Definition filteredSpaces (spaces : list Space) (searchQuery : string)
    (filters : SearchFilters) : list Space :=
  let filtered := spaces in
  let filtered := filterByQuery (Some searchQuery) filtered in
  let filtered := filterByAccess (Some (searchAccessType filters)) filtered in
  JsArray.sort (compareSpacesInline (searchSortBy filters) (searchSortOrder filters)) filtered.

(** The options a caller of [filterSpaces] passes to ask for what the
    hook computes. *)
Definition optionsOf (searchQuery : string) (filters : SearchFilters) : SpaceFilterOptions :=
  mkFilterOptions (Some searchQuery) (Some (searchAccessType filters))
    (Some (searchSortBy filters)) (Some (searchSortOrder filters)).

(** A space on which the two comparators read the same sort key. *)
Definition sameSortKey (a : Space) : bool :=
  match truthy (name a) with
  | Some _ => true
  | None => (JsString.length (did a) <=? 19)%Z
  end.

(** When the two comparators are sure to order [spaces] alike: the sort
    key is not the name, or no space needs the fallback to a shortened
    identifier. *)
Definition sameOrder (filters : SearchFilters) (spaces : list Space) : bool :=
  match searchSortBy filters with
  | byName => forallb sameSortKey spaces
  | byCreated | byUsage => true
  end.

End WithRuntime.
End Filter.

(** ** Arrays by reference

    [filterSpaces] receives a reference to an array, copies it, and sorts the
    copy in place.  The store maps array references to their contents; a
    computation threads the store and fails on a dangling reference. *)

Module Ref.

Abbreviation loc := nat.
Abbreviation Store := (gmap nat (list Space)).

Definition M (A : Type) : Type := Store -> option (A * Store).

Definition ret {A} (a : A) : M A := fun σ => Some (a, σ).

Definition bind {A B} (m : M A) (k : A -> M B) : M B :=
  fun σ => match m σ with
           | Some (a, σ') => k a σ'
           | None => None
           end.

#[export] Instance M_ret : MRet M := @ret.
#[export] Instance M_bind : MBind M := fun A B k m => bind m k.

(** Allocation of a new array object. *)
Definition newArray (xs : list Space) : M loc :=
  fun σ => let l := fresh (dom σ) in Some (l, <[l := xs]> σ).

Definition readArray (l : loc) : M (list Space) :=
  fun σ => match σ !! l with
           | Some xs => Some (xs, σ)
           | None => None
           end.

Definition writeArray (l : loc) (xs : list Space) : M unit :=
  fun σ => match σ !! l with
           | Some _ => Some (tt, <[l := xs]> σ)
           | None => None
           end.

(** [[...arr]]. *)
Definition spread (arr : loc) : M loc :=
  xs ← readArray arr ; newArray xs.

(** [arr.filter(p)]: a new array. *)
Definition filterArray (p : Space -> bool) (arr : loc) : M loc :=
  xs ← readArray arr ; newArray (List.filter p xs).

(** [arr.sort(compareFn)]: in place. *)
Definition sortArray (compareFn : Space -> Space -> Z) (arr : loc) : M unit :=
  xs ← readArray arr ; writeArray arr (JsArray.sort compareFn xs).

(** Every array of [σ0] is still there in [σ], with the same contents. *)
Definition preserves (σ0 σ : gmap nat (list Space)) : Prop :=
  forall l xs, σ0 !! l = Some xs -> σ !! l = Some xs.

(** What a step of [filterSpaces] establishes, relative to the store [σ0]
    of the call: it returns a reference [l] that [σ0] does not have,
    holding [xs], and leaves the arrays of [σ0] alone. *)
Definition yields (σ0 : gmap nat (list Space))
    (r : option (nat * gmap nat (list Space))) (xs : list Space) : Prop :=
  exists l σ, r = Some (l, σ) /\ σ0 !! l = None /\ σ !! l = Some xs /\ preserves σ0 σ.

Section WithRuntime.
Context {rt : Runtime}.

(** [if (filters.query) { ... filtered = filtered.filter (...) }]. *)
Definition filterByQuery (q : option string) (filtered : loc) : M loc :=
  match Filter.truthy q with
  | Some q => filterArray (Filter.matchesQuery (toLowerCase q)) filtered
  | None => ret filtered
  end.

(** [if (filters.accessType && filters.accessType !== 'all') { ... }]. *)
Definition filterByAccess (f : option AccessFilter) (filtered : loc) : M loc :=
  match f with
  | Some filterAll | None => ret filtered
  | Some f => filterArray (Filter.matchesAccess f) filtered
  end.

(** [filterSpaces] statement by statement. *)
Definition filterSpaces (spaces : loc) (filters : SpaceFilterOptions) : M loc :=
  filtered ← spread spaces;
  filtered ← filterByQuery (query filters) filtered;
  filtered ← filterByAccess (accessType filters) filtered;
  match sortBy filters with
  | Some by_ =>
      _ ← sortArray (Filter.compareSpaces by_ (sortOrder filters)) filtered;
      ret filtered
  | None => ret filtered
  end.
End WithRuntime.

End Ref.

(** ** Timers

    [setTimeout]/[clearTimeout] over a virtual clock in milliseconds.  A
    callback is data ([K]); timers run in order of due time and, among
    equal due times, in order of creation.  A timer runs between two turns
    of the event loop, never inside one: calls made at the same instant are
    calls of one turn and no timer runs between them, not even a timer with
    delay 0; once the clock has moved on, the timers that are due have run
    before the next call. *)

Module Timers.

(** The delay a timer is set with.  A timer keeps its delay as a 32-bit
    integer: a delay above 2147483647 does not fit, and the timer fires
    almost at once (Node and the fake clocks of test runners set the delay
    to 1, which is taken here; a browser wraps the number around).  A
    negative delay counts as 0. *)
Definition maxDelay : Z := 2147483647.

Definition timerDelay (delay : Z) : Z :=
  if (maxDelay <? delay)%Z then 1%Z else Z.max 0 delay.

Section Loop.
Context {K : Type}.

Record Timer := mkTimer { timerId : nat; due : Z; callback : K }.

Record Loop := mkLoop { now : Z; nextId : nat; pending : list Timer }.

(** Timer ids start at 1, so an id is truthy. *)
Definition start : Loop := mkLoop 0 1 [].

Fixpoint enqueue (tm : Timer) (queue : list Timer) : list Timer :=
  match queue with
  | [] => [tm]
  | head :: rest =>
      if (due head <=? due tm)%Z then head :: enqueue tm rest
      else tm :: queue
  end.

Definition setTimeout (k : K) (delay : Z) (l : Loop) : nat * Loop :=
  (nextId l,
   mkLoop (now l) (S (nextId l))
     (enqueue (mkTimer (nextId l) (now l + timerDelay delay) k) (pending l))).

Definition clearTimeout (id : nat) (l : Loop) : Loop :=
  mkLoop (now l) (nextId l)
    (List.filter (fun tm => negb (timerId tm =? id)%nat) (pending l)).

(** Run the timers due at time [t]; [run k at s] is the effect of
    callback [k], run at time [at], on the state [s] it closes over. *)
Fixpoint runDue {S : Type} (run : K -> Z -> S -> S) (t : Z)
    (queue : list Timer) (s : S) : list Timer * S :=
  match queue with
  | [] => ([], s)
  | tm :: rest =>
      if (due tm <=? t)%Z then runDue run t rest (run (callback tm) (due tm) s)
      else (queue, s)
  end.

(** What happens before a call at time [t]: when the clock has moved on
    since the last call, the turn of that call is over and the timers due
    by [t] run; a call at the instant of the last call belongs to its turn,
    and no timer runs. *)
Definition elapse {S : Type} (run : K -> Z -> S -> S) (t : Z)
    (l : Loop) (s : S) : Loop * S :=
  if (now l <? t)%Z
  then let '(queue, s) := runDue run t (pending l) s in
       (mkLoop t (nextId l) queue, s)
  else (mkLoop t (nextId l) (pending l), s).

(** Run every pending timer: the clock runs on after the last call. *)
Definition runAll {S : Type} (run : K -> Z -> S -> S)
    (queue : list Timer) (s : S) : S :=
  fold_left (fun s tm => run (callback tm) (due tm) s) queue s.
End Loop.
Arguments Timer : clear implicits.
Arguments Loop : clear implicits.
End Timers.

(** ** [debounce] *)

Module Debounce.
Import Timers.
Section WithArgs.
Context {Args : Type}.

(** A call of the wrapper or of [func]: when, and with which arguments. *)
Definition Call : Type := Z * Args.

(** The closure of one [debounce (func, wait)]: the [timeout] variable,
    the event loop, and the trace of the calls of [func].  The callback
    [() => func (...args)] is represented by [args]. *)
Record State := mkState {
  loop : Loop Args;
  timeout : option nat;
  invoked : list Call
}.

Definition initial : State := mkState start None [].

(** The returned wrapper. *)
Definition wrapped (wait : Z) (args : Args) (st : State) : State :=
  let l := match timeout st with
           | Some id => clearTimeout id (loop st)
           | None => loop st
           end in
  let '(id, l) := setTimeout args wait l in
  mkState l (Some id) (invoked st).

Definition func (args : Args) (at_ : Z) (trace : list Call) : list Call :=
  trace ++ [(at_, args)].

Definition advance (t : Z) (st : State) : State :=
  let '(l, trace) := elapse func t (loop st) (invoked st) in
  mkState l (timeout st) trace.

Definition callAt (wait : Z) (st : State) (c : Call) : State :=
  wrapped wait (snd c) (advance (fst c) st).

Definition settle (st : State) : list Call :=
  runAll func (pending (loop st)) (invoked st).

(** The calls of [func] caused by the given calls of the wrapper. *)
Definition simulate (wait : Z) (calls : list Call) : list Call :=
  settle (fold_left (callAt wait) calls initial).

(** *** The contract in the words of the design document *)

(** Maximal bursts: a call belongs to the burst of its predecessor when
    it comes less than [window] after it. *)
Fixpoint bursts (window : Z) (calls : list (Z * Args)) : list (list Call) :=
  match calls with
  | [] => []
  | c :: rest =>
      match bursts window rest with
      | b :: bs =>
          match rest with
          | next :: _ =>
              if (fst next <? fst c + window)%Z then (c :: b) :: bs
              else [c] :: b :: bs
          | [] => [[c]]
          end
      | [] => [[c]]
      end
  end.

(** One call of [func] per burst: [wait] after its last call, with the
    arguments of that call. *)
Definition firing (wait : Z) (burst : list Call) : option Call :=
  match last burst with
  | Some (t, args) => Some ((t + wait)%Z, args)
  | None => None
  end.

(** The contract as documented: bursts of calls less than [wait] apart. *)
Definition documented (wait : Z) (calls : list Call) : list Call :=
  omap (firing wait) (bursts wait calls).

(** The contract the timers keep: calls of one instant are calls of one
    turn, so they are one burst also when [wait] is 0. *)
Definition contract (wait : Z) (calls : list Call) : list Call :=
  omap (firing wait) (bursts (Z.max wait 1) calls).

(** The same, call by call: [last] is the latest call of the wrapper,
    whose timer is pending; it has run before the next call when it was
    due and the clock has moved on. *)
Fixpoint contractFrom (wait : Z) (last : option Call)
    (calls : list (Z * Args)) : list Call :=
  let expired (next : option Z) :=
    match last with
    | Some (t, args) =>
        match next with
        | Some t' =>
            if (t <? t')%Z && (t + wait <=? t')%Z then [((t + wait)%Z, args)] else []
        | None => [((t + wait)%Z, args)]
        end
    | None => []
    end in
  match calls with
  | [] => expired None
  | c :: rest => expired (Some (fst c)) ++ contractFrom wait (Some c) rest
  end.

(** Call times do not go back. *)
Definition chronological (calls : list Call) : Prop :=
  Sorted (fun c1 c2 => (fst c1 <= fst c2)%Z) calls.

(** The state between two calls: no timer before the first call, and
    afterwards exactly the timer of the latest call, whose id is in
    [timeout]; the clock shows the time of that call. *)
Definition pendingFor (wait : Z) (last : option Call) (st : State) : Prop :=
  match last with
  | None => pending (loop st) = [] /\ timeout st = None
  | Some (t, args) =>
      exists id, pending (loop st) = [mkTimer id (t + wait) args]
                 /\ timeout st = Some id
                 /\ now (loop st) = t
  end.
End WithArgs.
Arguments State : clear implicits.
End Debounce.

(** ** [throttle] *)

Module Throttle.
Import Timers.
Section WithArgs.
Context {Args : Type}.

Definition Call : Type := Z * Args.

(** The closure of one [throttle (func, limit)]: [inThrottle] (declared
    without a value, so falsy at first), the event loop, and the trace
    of the calls of [func].  The only callback is
    [() => inThrottle = false]. *)
Record State := mkState {
  loop : Loop unit;
  inThrottle : bool;
  invoked : list Call
}.

Definition initial : State := mkState start false [].

(** The returned wrapper. *)
Definition wrapped (limit : Z) (args : Args) (st : State) : State :=
  if negb (inThrottle st) then
    let trace := invoked st ++ [(now (loop st), args)] in
    let '(_, l) := setTimeout tt limit (loop st) in
    mkState l true trace
  else st.

Definition reset (_ : unit) (_ : Z) (_ : bool) : bool := false.

Definition advance (t : Z) (st : State) : State :=
  let '(l, flag) := elapse reset t (loop st) (inThrottle st) in
  mkState l flag (invoked st).

Definition callAt (limit : Z) (st : State) (c : Call) : State :=
  wrapped limit (snd c) (advance (fst c) st).

(** The clock runs on after the last call, and the pending timer runs. *)
Definition settle (st : State) : State :=
  mkState (mkLoop (now (loop st)) (nextId (loop st)) [])
    (runAll reset (pending (loop st)) (inThrottle st)) (invoked st).

(** The calls of [func] caused by the given calls of the wrapper. *)
Definition simulate (limit : Z) (calls : list Call) : list Call :=
  invoked (settle (fold_left (callAt limit) calls initial)).

(** *** The contract in the words of the design document

    [cooldown] is the time until which the window opened by the last
    accepted call stays open, if any call was accepted; an accepted call
    opens a window of [window]. *)
Fixpoint contractFrom (window : Z) (cooldown : option Z)
    (calls : list (Z * Args)) : list Call :=
  match calls with
  | [] => []
  | (t, args) :: rest =>
      match cooldown with
      | Some until =>
          if (t <? until)%Z then contractFrom window cooldown rest
          else (t, args) :: contractFrom window (Some (t + window)%Z) rest
      | None => (t, args) :: contractFrom window (Some (t + window)%Z) rest
      end
  end.

(** The contract as documented: a cooldown of [limit]. *)
Definition documented (limit : Z) (calls : list Call) : list Call :=
  contractFrom limit None calls.

(** The contract the timer keeps: the flag is lowered by a timer, which
    cannot run before the turn of the accepted call is over, so the
    cooldown covers the instant of that call also when [limit] is 0. *)
Definition contract (limit : Z) (calls : list Call) : list Call :=
  contractFrom (Z.max limit 1) None calls.

Definition chronological (calls : list Call) : Prop :=
  Sorted (fun c1 c2 => (fst c1 <= fst c2)%Z) calls.

End WithArgs.
Arguments State : clear implicits.
End Throttle.

(** ** [useRetry]: [executeWithRetry] *)

Module Retry.

(** What a rejected promise carries: an [Error] (its message), or some
    other value. *)
Inductive Thrown := thrownError (message : string) | thrownOther.

Inductive Outcome (T : Type) :=
| resolved (value : T)
| rejected (reason : Thrown).
Arguments resolved {T} value.
Arguments rejected {T} reason.

Inductive Event :=
| SetRetryCount (attempt : nat)
| CallAsyncFn
| OnRetry (attempt : nat)
| Sleep (ms : Z).

Definition maxRetries : nat := 3.

(** [error instanceof Error ? error : new Error (...)], by message. *)
Definition asError (x : Thrown) : string :=
  match x with
  | thrownError message => message
  | thrownOther => "An unexpected error occurred"
  end.

Section WithResult.
Context {T : Type}.

(** The [for] loop from [attempt] on, with [remaining] iterations left;
    [asyncFn k] is the outcome of the call of [asyncFn] in iteration
    [k].  The result is the value returned or the error thrown. *)
Fixpoint attempts (remaining attempt : nat) (asyncFn : nat -> Outcome T)
    (lastError : option string) : list Event * (T + option string) :=
  match remaining with
  | O => ([], inr lastError)
  | S remaining' =>
      match asyncFn attempt with
      | resolved value =>
          ([SetRetryCount attempt; CallAsyncFn], inl value)
      | rejected reason =>
          let lastError := Some (asError reason) in
          let backoff :=
            if (attempt <? maxRetries)%nat
            then [OnRetry (attempt + 1); Sleep (2 ^ Z.of_nat attempt * 1000)%Z]
            else [] in
          let '(events, result) :=
            attempts remaining' (S attempt) asyncFn lastError in
          (SetRetryCount attempt :: CallAsyncFn :: backoff ++ events, result)
      end
  end.

(** [attempt] runs from 0 while [attempt <= maxRetries]. *)
Definition executeWithRetry (asyncFn : nat -> Outcome T)
    : list Event * (T + option string) :=
  attempts (maxRetries + 1) 0 asyncFn None.

Definition isCall (e : Event) : bool :=
  match e with CallAsyncFn => true | _ => false end.

Definition callCount (events : list Event) : nat :=
  List.length (List.filter isCall events).




End WithResult.

End Retry.

(** ** Regular expressions

    The patterns of the validators are anchored at both ends, so
    [pattern.test (s)] is a match of the whole string; matching is by
    derivatives. *)

Module Regex.

Inductive re :=
| never
| empty
| chr (class : ascii -> bool)
| seq (r1 r2 : re)
| alt (r1 r2 : re)
| star (r : re).

(** [r+]. *)
Definition plus (r : re) : re := seq r (star r).

Definition lit (c : ascii) : re := chr (Ascii.eqb c).

Fixpoint word (s : string) : re :=
  match s with
  | EmptyString => empty
  | String c rest => seq (lit c) (word rest)
  end.

Fixpoint nullable (r : re) : bool :=
  match r with
  | never => false
  | empty => true
  | chr _ => false
  | seq r1 r2 => nullable r1 && nullable r2
  | alt r1 r2 => nullable r1 || nullable r2
  | star _ => true
  end.

Fixpoint deriv (c : ascii) (r : re) : re :=
  match r with
  | never => never
  | empty => never
  | chr class => if class c then empty else never
  | seq r1 r2 =>
      if nullable r1 then alt (seq (deriv c r1) r2) (deriv c r2)
      else seq (deriv c r1) r2
  | alt r1 r2 => alt (deriv c r1) (deriv c r2)
  | star r1 => seq (deriv c r1) (star r1)
  end.

Fixpoint test (r : re) (s : string) : bool :=
  match s with
  | EmptyString => nullable r
  | String c rest => test (deriv c r) rest
  end.

Definition between (lo hi : nat) (c : ascii) : bool :=
  (lo <=? nat_of_ascii c)%nat && (nat_of_ascii c <=? hi)%nat.

Definition lower : ascii -> bool := between 97 122.
Definition upper : ascii -> bool := between 65 90.
Definition digit : ascii -> bool := between 48 57.
Definition oneOf (chars : string) (c : ascii) : bool :=
  existsb (Ascii.eqb c) (list_ascii_of_string chars).

End Regex.

(** ** Validation rules: validationHelpers.ts and the checks of
       spaceHelpers.ts they call *)

Module Validation.
Import Regex.

(** [ValidationErrors]: field name to message. *)
Abbreviation ValidationErrors := (gmap string string).

Definition isEmpty (s : string) : bool :=
  match s with EmptyString => true | _ => false end.

(** [!s || s.trim().length === 0]. *)
Definition isBlank (s : string) : bool :=
  isEmpty s || (JsString.length (JsString.trim s) =? 0)%Z.

(** [arr.includes(s)]. *)
Definition listIncludes (arr : list string) (s : string) : bool :=
  existsb (String.eqb s) arr.

(** [if (cond) errors[field] = message]. *)
Definition setIf (cond : bool) (field message : string)
    (errors : gmap string string) : gmap string string :=
  if cond then <[field := message]> errors else errors.

Definition quote : string := String "034"%char EmptyString.

(** *** Rule tables *)

Module SPACE_NAME_RULES.
Definition minLength : Z := 1.
Definition maxLength : Z := 100.
(** [/^[a-zA-Z0-9\s\-_\.]+$/] *)
Definition pattern : re :=
  plus (chr (fun c => lower c || upper c || digit c
                      || JsString.isWhiteSpace c || oneOf "-_." c)).
Definition reservedNames : list string :=
  ["admin"; "root"; "system"; "api"; "www"; "mail"; "ftp"].
End SPACE_NAME_RULES.

Module PERMISSION_GRANTEE_RULES.
Definition minLength : Z := 1.
Definition maxLength : Z := 255.
End PERMISSION_GRANTEE_RULES.

Module CAPABILITY_RULES.
Definition validCapabilities : list string :=
  ["store/add"; "store/remove"; "upload/add"; "upload/list";
   "space/info"; "space/delete"; "space/rename"; "space/share"; "*"].
End CAPABILITY_RULES.

(** *** spaceHelpers.ts *)

Definition notSpaceOrAt (c : ascii) : bool :=
  negb (JsString.isWhiteSpace c || Ascii.eqb c "@"%char).

(** [/^[^\s@]+@[^\s@]+\.[^\s@]+$/] *)
Definition emailRegex : re :=
  seq (plus (chr notSpaceOrAt))
    (seq (lit "@"%char)
       (seq (plus (chr notSpaceOrAt))
          (seq (lit "."%char) (plus (chr notSpaceOrAt))))).

(** [/^did:[a-z0-9]+:[a-zA-Z0-9._-]+$/] *)
Definition didRegex : re :=
  seq (word "did:")
    (seq (plus (chr (fun c => lower c || digit c)))
       (seq (lit ":"%char)
          (plus (chr (fun c => lower c || upper c || digit c || oneOf "._-" c))))).

Definition isValidEmail (email : string) : bool := test emailRegex email.
Definition isValidDID (d : string) : bool := test didRegex d.
Definition isValidEmailOrDID (value : string) : bool :=
  isValidEmail value || isValidDID value.

(** *** Form payloads *)

(** [accessType] is kept as the string the form holds: the validator
    checks it against the two legal values. *)
Record SpaceCreatorFormData := mkSpaceCreatorFormData {
  creatorName : string;
  creatorAccessType : string;
  creatorTemplate : string;
  creatorDescription : option string
}.

(** A [Date], by its time value: a number of milliseconds, or [NaN] for
    an invalid date. *)
Inductive DateValue := validDate (ms : Z) | invalidDate.

(** [a <= b] and [a > b] on dates compare the time values; a comparison
    with [NaN] is false. *)
Definition dateLe (a b : DateValue) : bool :=
  match a, b with
  | validDate x, validDate y => (x <=? y)%Z
  | _, _ => false
  end.

Definition dateGt (a b : DateValue) : bool :=
  match a, b with
  | validDate x, validDate y => (y <? x)%Z
  | _, _ => false
  end.

(** [expiration] is a [Date], if present. *)
Record PermissionFormData := mkPermissionFormData {
  grantee : string;
  capabilities : list string;
  expiration : option DateValue
}.

(** A [File], by the two properties the validator reads; sizes are whole
    numbers of bytes. *)
Record File := mkFile { fileName : string; fileSize : Z }.

(** The clock of one run: [clock k] is the time value of the [k]-th
    [new Date ()] the run evaluates. *)
Definition Clock : Type := nat -> Z.

Section WithRuntime.
Context {rt : Runtime}.

Definition validateSpaceName (name : string) : gmap string string :=
  let errors : gmap string string := ∅ in
  if isBlank name then <["name" := "Space name is required"]> errors
  else
    let trimmedName := JsString.trim name in
    let errors :=
      setIf (JsString.length trimmedName <? SPACE_NAME_RULES.minLength)%Z
        "name" "Space name must be at least 1 character long" errors in
    let errors :=
      setIf (SPACE_NAME_RULES.maxLength <? JsString.length trimmedName)%Z
        "name" "Space name must be no more than 100 characters long" errors in
    let errors :=
      setIf (negb (test SPACE_NAME_RULES.pattern trimmedName))
        "name" "Space name can only contain letters, numbers, spaces, hyphens, underscores, and dots"
        errors in
    let errors :=
      setIf (listIncludes SPACE_NAME_RULES.reservedNames (toLowerCase trimmedName))
        "name" "This space name is reserved and cannot be used" errors in
    errors.

Definition validateSpaceCreatorForm (formData : SpaceCreatorFormData)
    : gmap string string :=
  let errors : gmap string string := ∅ in
  let nameErrors := validateSpaceName (creatorName formData) in
  (* Object.assign (errors, nameErrors) *)
  let errors := nameErrors ∪ errors in
  let errors :=
    setIf (isEmpty (creatorAccessType formData)
           || negb (listIncludes ["public"; "private"] (creatorAccessType formData)))
      "accessType" "Please select a valid access type" errors in
  let errors :=
    setIf (isBlank (creatorTemplate formData))
      "template" "Please select a template" errors in
  let errors :=
    setIf (match creatorDescription formData with
           | Some d => negb (isEmpty d) && (500 <? JsString.length d)%Z
           | None => false
           end)
      "description" "Description must be no more than 500 characters long" errors in
  errors.

Definition validatePermissionForm (clock : Clock) (formData : PermissionFormData)
    : gmap string string :=
  let errors : gmap string string := ∅ in
  let errors :=
    if isBlank (grantee formData)
    then <["grantee" := "Grantee is required"]> errors
    else
      let trimmedGrantee := JsString.trim (grantee formData) in
      let errors :=
        setIf (JsString.length trimmedGrantee <? PERMISSION_GRANTEE_RULES.minLength)%Z
          "grantee" "Grantee must be at least 1 character long" errors in
      let errors :=
        setIf (PERMISSION_GRANTEE_RULES.maxLength <? JsString.length trimmedGrantee)%Z
          "grantee" "Grantee must be no more than 255 characters long" errors in
      setIf (negb (isValidEmailOrDID trimmedGrantee))
        "grantee" "Grantee must be a valid email address or DID" errors in
  let errors :=
    match capabilities formData with
    | [] => <["capabilities" := "At least one capability must be selected"]> errors
    | _ =>
        let invalidCapabilities :=
          List.filter
            (fun capability =>
               negb (listIncludes CAPABILITY_RULES.validCapabilities capability))
            (capabilities formData) in
        setIf (0 <? Z.of_nat (List.length invalidCapabilities))%Z
          "capabilities"
          ("Invalid capabilities: " ++ JsString.join ", " invalidCapabilities)
          errors
    end in
  match expiration formData with
  | Some expiration =>
      let now := validDate (clock 0%nat) in
      let errors :=
        setIf (dateLe expiration now)
          "expiration" "Expiration date must be in the future" errors in
      let oneYearFromNow := validDate (addOneYear (clock 1%nat)) in
      setIf (dateGt expiration oneYearFromNow)
        "expiration" "Expiration date cannot be more than 1 year in the future"
        errors
  | None => errors
  end.

Definition validateFileUpload (files : list File) : gmap string string :=
  let errors : gmap string string := ∅ in
  match files with
  | [] => <["files" := "No files selected"]> errors
  | _ =>
      let maxFiles : Z := 100%Z in
      let errors :=
        setIf (maxFiles <? Z.of_nat (List.length files))%Z
          "files" "Cannot upload more than 100 files at once" errors in
      let maxFileSize : Z := (100 * 1024 * 1024)%Z in
      let oversizedFiles :=
        List.filter (fun file => (maxFileSize <? fileSize file)%Z) files in
      let errors :=
        setIf (0 <? Z.of_nat (List.length oversizedFiles))%Z
          "files"
          ("Files too large: " ++ JsString.join ", " (List.map fileName oversizedFiles)
           ++ ". Maximum size is " ++ formatFileSize maxFileSize)
          errors in
      let totalSize := fold_left (fun sum file => (sum + fileSize file)%Z) files 0%Z in
      let maxTotalSize : Z := (1024 * 1024 * 1024)%Z in
      setIf (maxTotalSize <? totalSize)%Z
        "files"
        ("Total upload size too large: " ++ formatFileSize totalSize
         ++ ". Maximum total size is " ++ formatFileSize maxTotalSize)
        errors
  end.

Definition reservedNames : list string :=
  ["."; ".."; "CON"; "PRN"; "AUX"; "NUL";
   "COM1"; "COM2"; "COM3"; "COM4"; "COM5"; "COM6"; "COM7"; "COM8"; "COM9";
   "LPT1"; "LPT2"; "LPT3"; "LPT4"; "LPT5"; "LPT6"; "LPT7"; "LPT8"; "LPT9"].

(** [path.split ('/').filter (part => part !== '')]. *)
Definition pathParts (path : string) : list string :=
  List.filter (fun part => negb (isEmpty part)) (JsString.split "/"%char path).

Definition isReserved (part : string) : bool :=
  listIncludes reservedNames (toUpperCase part).

Definition validatePath (path : string) : gmap string string :=
  let errors : gmap string string := ∅ in
  if isBlank path then <["path" := "Path is required"]> errors
  else
    let errors :=
      setIf (JsString.includes path ".." || JsString.includes path "~")
        "path" "Invalid path: path traversal not allowed" errors in
    let errors :=
      (* the loop stops at the first reserved part *)
      match List.find isReserved (pathParts path) with
      | Some part =>
          <["path" := ("Invalid path: " ++ quote ++ part ++ quote
                       ++ " is a reserved name")%string]> errors
      | None => errors
      end in
    let errors :=
      setIf (260 <? JsString.length path)%Z
        "path" "Path is too long (maximum 260 characters)" errors in
    errors.

(** *** The five validators behind one entry point *)

Inductive Call :=
| callSpaceName (name : string)
| callSpaceCreatorForm (formData : SpaceCreatorFormData)
| callPermissionForm (formData : PermissionFormData)
| callFileUpload (files : list File)
| callPath (path : string).

(** One run of a validator, at the times the clock gives. *)
Definition run (clock : Clock) (c : Call) : gmap string string :=
  match c with
  | callSpaceName name => validateSpaceName name
  | callSpaceCreatorForm formData => validateSpaceCreatorForm formData
  | callPermissionForm formData => validatePermissionForm clock formData
  | callFileUpload files => validateFileUpload files
  | callPath path => validatePath path
  end.

(** The runs that evaluate [new Date ()]. *)
Definition readsClock (c : Call) : bool :=
  match c with
  | callPermissionForm formData =>
      match expiration formData with Some _ => true | None => false end
  | _ => false
  end.

(** Where an expiration stands at the time of a run: more than one year
    ahead of the second reading of the clock, not after the first reading,
    or in between.  An invalid date is in between: every comparison with
    it is false. *)
Inductive Position := tooFar | expired | inTime.

Definition position (clock : Clock) (e : DateValue) : Position :=
  if dateGt e (validDate (addOneYear (clock 1%nat))) then tooFar
  else if dateLe e (validDate (clock 0%nat)) then expired
  else inTime.

(** Two clocks at which the input of a run stands alike: the run is not
    one of [validatePermissionForm] on a form with an expiration, or the
    expiration has the same position at both. *)
Definition samePosition (c : Call) (clock1 clock2 : Clock) : Prop :=
  match c with
  | callPermissionForm formData =>
      match expiration formData with
      | Some e => position clock1 e = position clock2 e
      | None => True
      end
  | _ => True
  end.

(** *** The path rule in the words of the design document

    A path is in error when it is empty or blank, has a segment equal to
    [.], [..] or [~], has a segment that is a device name up to case, or
    is longer than 260. *)
Definition deviceNames : list string :=
  ["CON"; "PRN"; "AUX"; "NUL";
   "COM1"; "COM2"; "COM3"; "COM4"; "COM5"; "COM6"; "COM7"; "COM8"; "COM9";
   "LPT1"; "LPT2"; "LPT3"; "LPT4"; "LPT5"; "LPT6"; "LPT7"; "LPT8"; "LPT9"].

Definition segments (path : string) : list string :=
  JsString.split "/"%char path.

Definition documentedPathError (path : string) : bool :=
  isBlank path
  || existsb (fun seg => listIncludes ["."; ".."; "~"] seg) (segments path)
  || existsb (fun seg => listIncludes deviceNames (toUpperCase seg)) (segments path)
  || (260 <? JsString.length path)%Z.

(** What the code rejects: [..] or [~] anywhere in the path, not only as
    a whole segment. *)
Definition rejectedPath (path : string) : bool :=
  isBlank path
  || JsString.includes path ".."
  || JsString.includes path "~"
  || existsb isReserved (pathParts path)
  || (260 <? JsString.length path)%Z.
End WithRuntime.

End Validation.

(** ** The validators as they run

    A run of a validator builds its error object in the heap, reads the
    objects it is given through their references, and reads the clock by
    [new Date ()].  The heap holds the objects a run can reach: error
    objects, [Date]s, the arrays and the form objects it is given; strings
    and numbers are values, and so are the arrays that [filter], [map]
    and [split] return, which a validator neither keeps nor hands out.  A
    run fails ([None]) on a reference that holds no object of the kind the
    code expects. *)

Module Runs.
Import Validation.

Abbreviation loc := nat.

Inductive Obj :=
| errorsObj (fields : gmap string string)
| dateObj (time : DateValue)
| stringsObj (items : list string)
| filesObj (items : list File)
| creatorFormObj (formData : SpaceCreatorFormData)
| permissionFormObj (grantee : string) (capabilities : nat) (expiration : option nat).

(** The heap, the clock, and how many times the clock was read. *)
Record World := mkWorld {
  heap : gmap nat Obj;
  clock : Clock;
  reads : nat
}.

Definition M (A : Type) : Type := World -> option (A * World).

Definition ret {A} (a : A) : M A := fun w => Some (a, w).

Definition bind {A B} (m : M A) (k : A -> M B) : M B :=
  fun w => match m w with
           | Some (a, w') => k a w'
           | None => None
           end.

#[export] Instance M_ret : MRet M := @ret.
#[export] Instance M_bind : MBind M := fun A B k m => bind m k.

Definition fail {A} : M A := fun _ => None.

Definition withHeap (w : World) (h : gmap nat Obj) : World :=
  mkWorld h (clock w) (reads w).

(** A new object. *)
Definition alloc (o : Obj) : M loc :=
  fun w => let l := fresh (dom (heap w)) in Some (l, withHeap w (<[l := o]> (heap w))).

Definition load (l : loc) : M Obj :=
  fun w => match heap w !! l with
           | Some o => Some (o, w)
           | None => None
           end.

Definition store (l : loc) (o : Obj) : M unit :=
  fun w => match heap w !! l with
           | Some _ => Some (tt, withHeap w (<[l := o]> (heap w)))
           | None => None
           end.

(** [new Date ()]: a new [Date] holding the next reading of the clock. *)
Definition newDate : M loc :=
  fun w =>
    alloc (dateObj (validDate (clock w (reads w))))
      (mkWorld (heap w) (clock w) (S (reads w))).

Definition getTime (date : loc) : M DateValue :=
  o ← load date;
  match o with
  | dateObj time => ret time
  | _ => fail
  end.

(** [new Date (date)]: a new [Date] with the time value of [date]. *)
Definition copyDate (date : loc) : M loc :=
  time ← getTime date; alloc (dateObj time).

Section WithRuntime.
Context {rt : Runtime}.

(** [date.setFullYear (date.getFullYear () + 1)], in place. *)
Definition addYear (date : loc) : M unit :=
  time ← getTime date;
  store date
    (dateObj match time with
             | validDate ms => validDate (addOneYear ms)
             | invalidDate => invalidDate
             end).

Definition getFields (errors : loc) : M (gmap string string) :=
  o ← load errors;
  match o with
  | errorsObj fields => ret fields
  | _ => fail
  end.

(** [errors[field] = message]. *)
Definition setField (errors : loc) (field message : string) : M unit :=
  fields ← getFields errors;
  store errors (errorsObj (<[field := message]> fields)).

(** [if (cond) { ... }]. *)
Definition when (cond : bool) (m : M unit) : M unit :=
  if cond then m else ret tt.

(** [Object.assign (target, source)]. *)
Definition assign (target source : loc) : M unit :=
  sourceFields ← getFields source;
  targetFields ← getFields target;
  store target (errorsObj (sourceFields ∪ targetFields)).

(** [formData.name] and the like. *)
Definition creatorField {A} (field : SpaceCreatorFormData -> A) (formData : loc) : M A :=
  o ← load formData;
  match o with
  | creatorFormObj data => ret (field data)
  | _ => fail
  end.

Definition granteeOf (formData : loc) : M string :=
  o ← load formData;
  match o with
  | permissionFormObj grantee _ _ => ret grantee
  | _ => fail
  end.

(** The items of [formData.capabilities]. *)
Definition capabilitiesOf (formData : loc) : M (list string) :=
  o ← load formData;
  match o with
  | permissionFormObj _ capabilities _ =>
      a ← load capabilities;
      match a with
      | stringsObj items => ret items
      | _ => fail
      end
  | _ => fail
  end.

Definition expirationOf (formData : loc) : M (option loc) :=
  o ← load formData;
  match o with
  | permissionFormObj _ _ expiration => ret expiration
  | _ => fail
  end.

Definition itemsOf (files : loc) : M (list File) :=
  o ← load files;
  match o with
  | filesObj items => ret items
  | _ => fail
  end.

Definition validateSpaceName (name : string) : M loc :=
  errors ← alloc (errorsObj ∅);
  if isBlank name then
    _ ← setField errors "name" "Space name is required";
    ret errors
  else
    let trimmedName := JsString.trim name in
    _ ← when (JsString.length trimmedName <? SPACE_NAME_RULES.minLength)%Z
          (setField errors "name" "Space name must be at least 1 character long");
    _ ← when (SPACE_NAME_RULES.maxLength <? JsString.length trimmedName)%Z
          (setField errors "name" "Space name must be no more than 100 characters long");
    _ ← when (negb (Regex.test SPACE_NAME_RULES.pattern trimmedName))
          (setField errors "name"
             "Space name can only contain letters, numbers, spaces, hyphens, underscores, and dots");
    _ ← when (listIncludes SPACE_NAME_RULES.reservedNames (toLowerCase trimmedName))
          (setField errors "name" "This space name is reserved and cannot be used");
    ret errors.

Definition validateSpaceCreatorForm (formData : loc) : M loc :=
  errors ← alloc (errorsObj ∅);
  name ← creatorField creatorName formData;
  nameErrors ← validateSpaceName name;
  _ ← assign errors nameErrors;
  accessType ← creatorField creatorAccessType formData;
  _ ← when (isEmpty accessType || negb (listIncludes ["public"; "private"] accessType))
        (setField errors "accessType" "Please select a valid access type");
  template ← creatorField creatorTemplate formData;
  _ ← when (isBlank template)
        (setField errors "template" "Please select a template");
  description ← creatorField creatorDescription formData;
  _ ← when (match description with
            | Some d => negb (isEmpty d) && (500 <? JsString.length d)%Z
            | None => false
            end)
        (setField errors "description"
           "Description must be no more than 500 characters long");
  ret errors.

(** The three blocks of [validatePermissionForm]. *)
Definition checkGrantee (errors : loc) (grantee : string) : M unit :=
  if isBlank grantee
  then setField errors "grantee" "Grantee is required"
  else
    let trimmedGrantee := JsString.trim grantee in
    _ ← when (JsString.length trimmedGrantee <? PERMISSION_GRANTEE_RULES.minLength)%Z
          (setField errors "grantee" "Grantee must be at least 1 character long");
    _ ← when (PERMISSION_GRANTEE_RULES.maxLength <? JsString.length trimmedGrantee)%Z
          (setField errors "grantee" "Grantee must be no more than 255 characters long");
    when (negb (isValidEmailOrDID trimmedGrantee))
      (setField errors "grantee" "Grantee must be a valid email address or DID").

Definition checkCapabilities (errors : loc) (capabilities : list string) : M unit :=
  match capabilities with
  | [] => setField errors "capabilities" "At least one capability must be selected"
  | _ =>
      let invalidCapabilities :=
        List.filter
          (fun capability =>
             negb (listIncludes CAPABILITY_RULES.validCapabilities capability))
          capabilities in
      when (0 <? Z.of_nat (List.length invalidCapabilities))%Z
        (setField errors "capabilities"
           ("Invalid capabilities: " ++ JsString.join ", " invalidCapabilities))
  end.

Definition checkExpiration (errors date : loc) : M unit :=
  now ← newDate;
  expiration ← copyDate date;
  e ← getTime expiration;
  n ← getTime now;
  _ ← when (dateLe e n)
        (setField errors "expiration" "Expiration date must be in the future");
  oneYearFromNow ← newDate;
  _ ← addYear oneYearFromNow;
  e ← getTime expiration;
  y ← getTime oneYearFromNow;
  when (dateGt e y)
    (setField errors "expiration"
       "Expiration date cannot be more than 1 year in the future").

Definition validatePermissionForm (formData : loc) : M loc :=
  errors ← alloc (errorsObj ∅);
  grantee ← granteeOf formData;
  _ ← checkGrantee errors grantee;
  capabilities ← capabilitiesOf formData;
  _ ← checkCapabilities errors capabilities;
  given ← expirationOf formData;
  _ ← match given with
      | Some date => checkExpiration errors date
      | None => ret tt
      end;
  ret errors.

Definition validateFileUpload (files : loc) : M loc :=
  errors ← alloc (errorsObj ∅);
  items ← itemsOf files;
  match items with
  | [] =>
      _ ← setField errors "files" "No files selected";
      ret errors
  | _ =>
      let maxFiles : Z := 100%Z in
      _ ← when (maxFiles <? Z.of_nat (List.length items))%Z
            (setField errors "files" "Cannot upload more than 100 files at once");
      let maxFileSize : Z := (100 * 1024 * 1024)%Z in
      let oversizedFiles :=
        List.filter (fun file => (maxFileSize <? fileSize file)%Z) items in
      _ ← when (0 <? Z.of_nat (List.length oversizedFiles))%Z
            (setField errors "files"
               ("Files too large: " ++ JsString.join ", " (List.map fileName oversizedFiles)
                ++ ". Maximum size is " ++ formatFileSize maxFileSize));
      let totalSize := fold_left (fun sum file => (sum + fileSize file)%Z) items 0%Z in
      let maxTotalSize : Z := (1024 * 1024 * 1024)%Z in
      _ ← when (maxTotalSize <? totalSize)%Z
            (setField errors "files"
               ("Total upload size too large: " ++ formatFileSize totalSize
                ++ ". Maximum total size is " ++ formatFileSize maxTotalSize));
      ret errors
  end.

Definition validatePath (path : string) : M loc :=
  errors ← alloc (errorsObj ∅);
  if isBlank path then
    _ ← setField errors "path" "Path is required";
    ret errors
  else
    _ ← when (JsString.includes path ".." || JsString.includes path "~")
          (setField errors "path" "Invalid path: path traversal not allowed");
    _ ← match List.find isReserved (pathParts path) with
        | Some part =>
            setField errors "path"
              ("Invalid path: " ++ quote ++ part ++ quote ++ " is a reserved name")
        | None => ret tt
        end;
    _ ← when (260 <? JsString.length path)%Z
          (setField errors "path" "Path is too long (maximum 260 characters)");
    ret errors.

(** A call of a validator: strings are passed by value, objects by
    reference. *)
Inductive Call :=
| callSpaceName (name : string)
| callSpaceCreatorForm (formData : nat)
| callPermissionForm (formData : nat)
| callFileUpload (files : nat)
| callPath (path : string).

Definition run (c : Call) : M loc :=
  match c with
  | callSpaceName name => validateSpaceName name
  | callSpaceCreatorForm formData => validateSpaceCreatorForm formData
  | callPermissionForm formData => validatePermissionForm formData
  | callFileUpload files => validateFileUpload files
  | callPath path => validatePath path
  end.
End WithRuntime.

(** The readings of the clock a run started in [w] gets. *)
Definition readings (w : World) : Clock := fun k => clock w (reads w + k)%nat.

(** The call [c], made in the world [w], has the input [input]: the
    objects it is given hold the data of [input]. *)
Definition given (w : World) (c : Call) (input : Validation.Call) : Prop :=
  match c, input with
  | callSpaceName name, Validation.callSpaceName name' => name = name'
  | callSpaceCreatorForm l, Validation.callSpaceCreatorForm formData =>
      heap w !! l = Some (creatorFormObj formData)
  | callPermissionForm l, Validation.callPermissionForm formData =>
      exists capabilitiesAt expirationAt,
        heap w !! l = Some (permissionFormObj (grantee formData) capabilitiesAt expirationAt)
        /\ heap w !! capabilitiesAt = Some (stringsObj (capabilities formData))
        /\ match expirationAt, expiration formData with
           | Some date, Some time => heap w !! date = Some (dateObj time)
           | None, None => True
           | _, _ => False
           end
  | callFileUpload l, Validation.callFileUpload files =>
      heap w !! l = Some (filesObj files)
  | callPath path, Validation.callPath path' => path = path'
  | _, _ => False
  end.

(** Every object of [w] is still there in [w'], unchanged. *)
Definition untouched (w w' : World) : Prop :=
  forall l o, heap w !! l = Some o -> heap w' !! l = Some o.

(** What a run from [w] comes to: the reference [errors] of a new object
    holding [fields], in a world [w'] that has the objects of [w] as they
    were, the same clock, and [k] more readings of it. *)
Definition result (w : World) (fields : gmap string string) (k : nat)
    (errors : nat) (w' : World) : Prop :=
  heap w !! errors = None
  /\ heap w' !! errors = Some (errorsObj fields)
  /\ untouched w w'
  /\ clock w' = clock w
  /\ reads w' = (reads w + k)%nat.

(** [m] only rewrites the error object at [errors], from fields [e] to
    [change e]. *)
Definition writes (m : M unit) (errors : nat)
    (change : gmap string string -> gmap string string) : Prop :=
  forall w h e,
    m (withHeap w (<[errors := errorsObj e]> h))
    = Some (tt, withHeap w (<[errors := errorsObj (change e)]> h)).

(** What the three blocks of [validatePermissionForm] do to the fields of
    the error object. *)
Section Changes.
Context {rt : Runtime}.

Definition granteeChange (grantee : string) (e : gmap string string)
    : gmap string string :=
  if isBlank grantee
  then <["grantee" := "Grantee is required"]> e
  else
    let trimmedGrantee := JsString.trim grantee in
    setIf (negb (isValidEmailOrDID trimmedGrantee))
      "grantee" "Grantee must be a valid email address or DID"
      (setIf
         (PERMISSION_GRANTEE_RULES.maxLength <? JsString.length trimmedGrantee)%Z
         "grantee" "Grantee must be no more than 255 characters long"
         (setIf
            (JsString.length trimmedGrantee <? PERMISSION_GRANTEE_RULES.minLength)%Z
            "grantee" "Grantee must be at least 1 character long" e)).

Definition capabilitiesChange (capabilities : list string) (e : gmap string string)
    : gmap string string :=
  match capabilities with
  | [] => <["capabilities" := "At least one capability must be selected"]> e
  | _ =>
      let invalidCapabilities :=
        List.filter
          (fun capability =>
             negb (listIncludes
                     CAPABILITY_RULES.validCapabilities capability))
          capabilities in
      setIf (0 <? Z.of_nat (List.length invalidCapabilities))%Z
        "capabilities"
        ("Invalid capabilities: " ++ JsString.join ", " invalidCapabilities) e
  end.

Definition expirationChange (clock : Clock) (time : DateValue)
    (e : gmap string string) : gmap string string :=
  setIf
    (dateGt time (validDate (addOneYear (clock 1%nat))))
    "expiration" "Expiration date cannot be more than 1 year in the future"
    (setIf (dateLe time (validDate (clock 0%nat)))
       "expiration" "Expiration date must be in the future" e).

End Changes.

End Runs.

(** ** Sample data *)

Module Examples.

Definition spaceA : Space := mkSpace "did:key:a" (Some "Apple") (Some public).
Definition spaceB : Space := mkSpace "did:key:b" (Some "Zebra") (Some private).

(** Two spaces without a name whose identifiers are too long for
    [shortenDID] to keep whole. *)
Definition unnamedA : Space := mkSpace "did:key:aaaaaaaaaaaazzzzzzzz" None None.
Definition unnamedB : Space := mkSpace "did:key:bbbbbbbbbbbbaaaaaaaa" None None.

Definition searchByNameAsc : Filter.SearchFilters :=
  Filter.mkSearchFilters filterAll byName asc.


Definition alwaysFails (k : nat) : Retry.Outcome nat :=
  Retry.rejected (Retry.thrownError ("failure " ++ String (ascii_of_nat (48 + k)) EmptyString)).

(** A grant that expires at time 1000. *)
Definition grant : Validation.PermissionFormData :=
  Validation.mkPermissionFormData "user@example.com" ["store/add"]
    (Some (Validation.validDate 1000)).

Definition grantForever : Validation.PermissionFormData :=
  Validation.mkPermissionFormData "user@example.com" ["store/add"] None.

Definition clockAt (t : Z) : Validation.Clock := fun _ => t.

(** Two worlds that hold the grant, at different references and at
    different times, before it expires. *)
Definition atNoon : Runs.World :=
  Runs.mkWorld
    (<[0%nat := Runs.permissionFormObj "user@example.com" 1 (Some 2%nat)]>
       (<[1%nat := Runs.stringsObj ["store/add"]]>
          (<[2%nat := Runs.dateObj (Validation.validDate 1000)]> ∅)))
    (clockAt 0) 0.

Definition atDusk : Runs.World :=
  Runs.mkWorld
    (<[5%nat := Runs.permissionFormObj "user@example.com" 3 (Some 7%nat)]>
       (<[3%nat := Runs.stringsObj ["store/add"]]>
          (<[7%nat := Runs.dateObj (Validation.validDate 1000)]>
             (<[4%nat := Runs.errorsObj ∅]> ∅))))
    (clockAt 500) 2.

End Examples.

From Stdlib Require OrderedTypeEx.

(** ** What the comparators of the runtime may be assumed to be

    [localeCompare] is a consistent comparator: swapping the arguments flips
    the sign, and "not after" is transitive. *)

Module Comparator.

Definition antisymmetric (cmp : string -> string -> Z) : Prop :=
  forall a b, Z.sgn (cmp b a) = (- Z.sgn (cmp a b))%Z.

Definition transitive (cmp : string -> string -> Z) : Prop :=
  forall a b c, (cmp a b <= 0)%Z -> (cmp b c <= 0)%Z -> (cmp a c <= 0)%Z.

Definition consistent (cmp : string -> string -> Z) : Prop :=
  antisymmetric cmp /\ transitive cmp.

End Comparator.

(** ** What [filterSpaces] keeps *)

Module Kept.
Section WithRuntime.
Context {rt : Runtime}.

(** A space passes the two filtering steps of [filterSpaces]. *)
Definition keeps (filters : SpaceFilterOptions) (space : Space) : bool :=
  match Filter.truthy (query filters) with
  | Some q => Filter.matchesQuery (toLowerCase q) space
  | None => true
  end
  && match accessType filters with
     | Some filterAll | None => true
     | Some f => Filter.matchesAccess f space
     end.

(** [a] is not after [b] for the comparator of [filterSpaces]. *)
Definition notAfter (by_ : SortBy) (order : option SortOrder) (a b : Space) : Prop :=
  (Filter.compareSpaces by_ order a b <= 0)%Z.

(** The sort key is the name. *)
Definition sortsByName (filters : SpaceFilterOptions) : bool :=
  match sortBy filters with
  | Some byName => true
  | _ => false
  end.

End WithRuntime.
End Kept.

(** ** Characters of a string *)

Module Chars.

(** The code unit [c] occurs in [s]. *)
Fixpoint hasChar (c : ascii) (s : string) : bool :=
  match s with
  | EmptyString => false
  | String d rest => Ascii.eqb d c || hasChar c rest
  end.

(** Every code unit of [s] is in the class [p]. *)
Fixpoint allChars (p : ascii -> bool) (s : string) : bool :=
  match s with
  | EmptyString => true
  | String d rest => p d && allChars p rest
  end.

End Chars.

(** ** Path helpers of spaceHelpers.ts *)

Module FilePath.

(** [s.replace(/\/+/g, '/')]: every run of slashes becomes one slash. *)
Fixpoint collapseSlashes (s : string) : string :=
  match s with
  | EmptyString => EmptyString
  | String c rest =>
      if Ascii.eqb c "/"%char then
        match rest with
        | String c' _ =>
            if Ascii.eqb c' "/"%char then collapseSlashes rest
            else String c (collapseSlashes rest)
        | EmptyString => String c EmptyString
        end
      else String c (collapseSlashes rest)
  end.

(** [part && part !== '/']. *)
Definition keepPart (part : string) : bool :=
  negb (Validation.isEmpty part) && negb (String.eqb part "/").

Definition createFilePath (parts : list string) : string :=
  collapseSlashes (JsString.join "/" (List.filter keepPart parts)).

Definition parseFilePath (path : string) : list string :=
  List.filter (fun part => negb (Validation.isEmpty part)) (JsString.split "/"%char path).

(** [parts.pop ()] is [removelast]. *)
Definition getParentPath (path : string) : string :=
  let parts := removelast (parseFilePath path) in
  if (0 <? Z.of_nat (List.length parts))%Z
  then ("/" ++ JsString.join "/" parts)%string
  else "/".

(** [parts[parts.length - 1] || '']. *)
Definition getFilename (path : string) : string :=
  List.last (parseFilePath path) EmptyString.

Definition isRootPath (path : string) : bool :=
  String.eqb path "/" || Validation.isEmpty path.

(** A path part as [parseFilePath] returns them: not empty, no slash. *)
Definition cleanPart (part : string) : Prop :=
  part <> EmptyString /\ JsString.includes part "/" = false.

End FilePath.

(** ** [sortFileItems] *)

Module FileItems.

Inductive FileType := file | directory.

Record FileItem := mkFileItem {
  itemName : string;
  itemPath : string;
  itemType : FileType;
  itemSize : option Z;
  itemModified : option Z;
  itemCid : option string
}.

Definition isDirectory (item : FileItem) : bool :=
  match itemType item with directory => true | file => false end.

Section WithRuntime.
Context {rt : Runtime}.

Definition compareFileItems (a b : FileItem) : Z :=
  if isDirectory a && negb (isDirectory b) then (-1)%Z
  else if negb (isDirectory a) && isDirectory b then 1%Z
  else localeCompare (itemName a) (itemName b).

(** [[...items].sort (...)], on array contents. *)
Definition sortFileItems (items : list FileItem) : list FileItem :=
  JsArray.sort compareFileItems items.

(** No file comes before a directory. *)
Definition directoryFirst (a b : FileItem) : Prop :=
  isDirectory b = true -> isDirectory a = true.

Definition itemNotAfter (a b : FileItem) : Prop :=
  (compareFileItems a b <= 0)%Z.

End WithRuntime.
End FileItems.

(** ** File names: extension, category, preview *)

Module FileNames.

(** [filename.slice (filename.lastIndexOf ('.') + 1)], when there is a
    dot. *)
Fixpoint afterLastDot (filename : string) : option string :=
  match filename with
  | EmptyString => None
  | String c rest =>
      match afterLastDot rest with
      | Some ext => Some ext
      | None => if Ascii.eqb c "."%char then Some rest else None
      end
  end.

Definition imageExtensions : list string :=
  ["jpg"; "jpeg"; "png"; "gif"; "svg"; "webp"; "bmp"].
Definition videoExtensions : list string :=
  ["mp4"; "avi"; "mov"; "wmv"; "flv"; "webm"; "mkv"].
Definition audioExtensions : list string :=
  ["mp3"; "wav"; "flac"; "aac"; "ogg"; "m4a"].
Definition documentExtensions : list string :=
  ["pdf"; "doc"; "docx"; "txt"; "rtf"; "odt"].
Definition archiveExtensions : list string :=
  ["zip"; "rar"; "7z"; "tar"; "gz"; "bz2"].
Definition codeExtensions : list string :=
  ["js"; "ts"; "jsx"; "tsx"; "html"; "css"; "scss"; "json"; "xml"; "py";
   "java"; "cpp"; "c"; "go"; "rs"].
Definition previewableExtensions : list string :=
  ["jpg"; "jpeg"; "png"; "gif"; "svg"; "webp"; "bmp";
   "txt"; "md"; "json"; "xml"; "csv"; "log";
   "pdf"].

Section WithRuntime.
Context {rt : Runtime}.

Definition getFileExtension (filename : string) : string :=
  match afterLastDot filename with
  | Some ext => toLowerCase ext
  | None => EmptyString
  end.

Definition getFileTypeCategory (filename : string) : string :=
  let extension := getFileExtension filename in
  if Validation.listIncludes imageExtensions extension then "image"
  else if Validation.listIncludes videoExtensions extension then "video"
  else if Validation.listIncludes audioExtensions extension then "audio"
  else if Validation.listIncludes documentExtensions extension then "document"
  else if Validation.listIncludes archiveExtensions extension then "archive"
  else if Validation.listIncludes codeExtensions extension then "code"
  else "file".

Definition isPreviewableFile (filename : string) : bool :=
  Validation.listIncludes previewableExtensions (getFileExtension filename).

End WithRuntime.
End FileNames.

(** ** What a regular expression matches *)

Module RegexLanguage.
Import Regex.

Inductive matches : re -> string -> Prop :=
| matches_empty : matches empty EmptyString
| matches_chr class c : class c = true -> matches (chr class) (String c EmptyString)
| matches_seq r1 r2 s1 s2 :
    matches r1 s1 -> matches r2 s2 -> matches (seq r1 r2) (s1 ++ s2)
| matches_alt_l r1 r2 s : matches r1 s -> matches (alt r1 r2) s
| matches_alt_r r1 r2 s : matches r2 s -> matches (alt r1 r2) s
| matches_star_nil r : matches (star r) EmptyString
| matches_star_cons r s1 s2 :
    matches r s1 -> matches (star r) s2 -> matches (star r) (s1 ++ s2).

(** An unanchored pattern: [pattern.test (s)] looks for a match anywhere
    in [s]. *)
Definition anyChar : re := chr (fun _ => true).

Definition search (r : re) (s : string) : bool :=
  test (seq (star anyChar) (seq r (star anyChar))) s.

(** A letter under the [i] flag. *)
Definition litIgnoreCase (c : ascii) : re :=
  chr (fun d => Ascii.eqb (JsString.upperChar d) (JsString.upperChar c)).

Fixpoint wordIgnoreCase (s : string) : re :=
  match s with
  | EmptyString => empty
  | String c rest => seq (litIgnoreCase c) (wordIgnoreCase rest)
  end.

(** [\w] *)
Definition wordChar (c : ascii) : bool :=
  lower c || upper c || digit c || Ascii.eqb c "_"%char.

End RegexLanguage.

(** ** The shapes the validators accept *)

Module Shapes.

(** The character class of [SPACE_NAME_RULES.pattern]. *)
Definition nameChar (c : ascii) : bool :=
  Regex.lower c || Regex.upper c || Regex.digit c
  || JsString.isWhiteSpace c || Regex.oneOf "-_." c.

Definition didMethodChar (c : ascii) : bool := Regex.lower c || Regex.digit c.

Definition didValueChar (c : ascii) : bool :=
  Regex.lower c || Regex.upper c || Regex.digit c || Regex.oneOf "._-" c.

(** A non-empty run of characters of a class. *)
Definition run (class : ascii -> bool) (s : string) : Prop :=
  s <> EmptyString /\ Chars.allChars class s = true.

(** [local@domain.tld], no part empty, no white space and no [@] inside a
    part. *)
Definition emailShape (s : string) : Prop :=
  exists local domain tld,
    s = (local ++ "@" ++ domain ++ "." ++ tld)%string
    /\ run Validation.notSpaceOrAt local
    /\ run Validation.notSpaceOrAt domain
    /\ run Validation.notSpaceOrAt tld.

(** [did:method:value]. *)
Definition didShape (s : string) : Prop :=
  exists method value,
    s = ("did:" ++ method ++ ":" ++ value)%string
    /\ run didMethodChar method
    /\ run didValueChar value.

End Shapes.

(** ** The rest of validationHelpers.ts *)

Module Sanitize.
Import Regex RegexLanguage.

(** [s.replace(/c/g, by)] for a one-character pattern. *)
Fixpoint replaceChar (c : ascii) (by_ : string) (s : string) : string :=
  match s with
  | EmptyString => EmptyString
  | String d rest =>
      if Ascii.eqb d c then (by_ ++ replaceChar c by_ rest)%string
      else String d (replaceChar c by_ rest)
  end.

Definition sanitizeInput (input : string) : string :=
  replaceChar "/"%char "&#x2F;"
    (replaceChar "'"%char "&#x27;"
       (replaceChar "034"%char "&quot;"
          (replaceChar ">"%char "&gt;"
             (replaceChar "<"%char "&lt;" input)))).

(** The characters [sanitizeInput] replaces. *)
Definition dangerousChars : list ascii :=
  ["<"%char; ">"%char; "034"%char; "'"%char; "/"%char].

(** [/<script/i], [/javascript:/i] and [/on\w+\s*=/i]. *)
Definition scriptTag : re := seq (lit "<"%char) (wordIgnoreCase "script").

Definition javascriptUrl : re := seq (wordIgnoreCase "javascript") (lit ":"%char).

Definition eventHandler : re :=
  seq (wordIgnoreCase "on")
    (seq (plus (chr wordChar))
       (seq (star (chr JsString.isWhiteSpace)) (lit "="%char))).

Definition dangerousPatterns : list re := [scriptTag; javascriptUrl; eventHandler].

Definition validateSearchQuery (query : string) : gmap string string :=
  let errors : gmap string string := ∅ in
  let errors :=
    Validation.setIf
      (negb (Validation.isEmpty query) && (100 <? JsString.length query)%Z)
      "query" "Search query must be no more than 100 characters long" errors in
  let errors :=
    Validation.setIf (existsb (fun pattern => search pattern query) dangerousPatterns)
      "query" "Search query contains invalid characters" errors in
  errors.

(** [hasValidationErrors]: some field has a message that is not empty.  A
    field that is present always holds a string here. *)
Definition hasValidationErrors (errors : gmap string string) : bool :=
  existsb (fun entry => negb (Validation.isEmpty (snd entry))) (map_to_list errors).

(** [clearValidationErrors]. *)
Definition clearValidationErrors (errors : gmap string string) (fields : list string)
    : gmap string string :=
  fold_left (fun cleared field => delete field cleared) fields errors.

(** [mergeValidationErrors]: [Object.assign] from left to right. *)
Definition mergeValidationErrors (errorObjects : list (gmap string string))
    : gmap string string :=
  fold_left (fun merged errors => errors ∪ merged) errorObjects ∅.

Section WithRuntime.
Context {rt : Runtime}.

(** [{ value, errors }]. *)
Definition validateAndSanitizeSpaceName (name : string) : string * gmap string string :=
  let sanitized := sanitizeInput (JsString.trim name) in
  (sanitized, Validation.validateSpaceName sanitized).

Definition validateAndSanitizeSearchQuery (query : string) : string * gmap string string :=
  let sanitized := sanitizeInput (JsString.trim query) in
  (sanitized, validateSearchQuery sanitized).

End WithRuntime.
End Sanitize.

(** ** Selection over a fixed list of spaces *)

Module Listed.

Definition dids (spaces : list Space) : list string := List.map did spaces.

(** The operation names no space, or a space that is on the list (by its
    identifier). *)
Definition listed (spaces : list Space) (op : Selection.Op) : Prop :=
  match op with
  | Selection.Click s | Selection.Toggle s => In (did s) (dids spaces)
  | Selection.SelectAll | Selection.Clear => True
  end.

(** A selection without repeated identifiers, all of them on the list. *)
Definition onList (spaces selected : list Space) : Prop :=
  List.NoDup (dids selected) /\ incl (dids selected) (dids spaces).

End Listed.

(** ** [useThrottle]

    The hook keeps the time of the last run in a ref, initialised with
    [Date.now ()] at the first render.  The callback is taken to return at
    once, so the two readings of the clock in one call give the same
    time. *)

Module UseThrottle.
Section WithArgs.
Context {Args : Type}.

Record State := mkState {
  lastRun : Z;
  invoked : list (Z * Args)
}.

Definition mount (now : Z) : State := mkState now [].

(** The returned function, called at time [now]. *)
Definition wrapped (delay now : Z) (args : Args) (st : State) : State :=
  if (delay <=? now - lastRun st)%Z
  then mkState now (invoked st ++ [(now, args)])
  else st.

Definition callAt (delay : Z) (st : State) (c : Z * Args) : State :=
  wrapped delay (fst c) (snd c) st.

(** The calls of [callback] caused by the given calls of the returned
    function, for a component mounted at [mountedAt]. *)
Definition simulate (delay mountedAt : Z) (calls : list (Z * Args)) : list (Z * Args) :=
  invoked (fold_left (callAt delay) calls (mount mountedAt)).

End WithArgs.
Arguments State : clear implicits.
End UseThrottle.

(** ** [useDebounce]

    The effect runs after the first render and after every render in which
    [value] has changed; before it runs again its cleanup clears the timer
    of the previous run.  The callback [() => setDebouncedValue (value)] is
    represented by [value]. *)

Module UseDebounce.
Import Timers.
Section WithValue.
Context {T : Type}.

Record State := mkState {
  loop : Loop T;
  handler : nat;
  debouncedValue : T;
  updates : list (Z * T)
}.

Definition setDebouncedValue (value : T) (at_ : Z) (s : T * list (Z * T))
    : T * list (Z * T) :=
  (value, snd s ++ [(at_, value)]).

(** The first render, at time [at_]: [useState (value)], then the
    effect. *)
Definition mount (delay at_ : Z) (value : T) : State :=
  let '(id, l) := setTimeout value delay (mkLoop at_ (nextId (@start T)) []) in
  mkState l id value [].

Definition advance (t : Z) (st : State) : State :=
  let '(l, s) :=
    elapse setDebouncedValue t (loop st) (debouncedValue st, updates st) in
  mkState l (handler st) (fst s) (snd s).

(** A render at time [fst c] with the new value [snd c]: the cleanup of
    the previous effect, then the effect.  The timer of the previous
    effect has run before when it was due and the clock has moved on since
    that effect. *)
Definition render (delay : Z) (st : State) (c : Z * T) : State :=
  let st := advance (fst c) st in
  let '(id, l) := setTimeout (snd c) delay (clearTimeout (handler st) (loop st)) in
  mkState l id (debouncedValue st) (updates st).

(** The clock runs on after the last render, and the pending timer
    runs. *)
Definition settle (st : State) : State :=
  let s := runAll setDebouncedValue (pending (loop st)) (debouncedValue st, updates st) in
  mkState (mkLoop (now (loop st)) (nextId (loop st)) []) (handler st) (fst s) (snd s).

Definition simulate (delay mountedAt : Z) (value : T) (changes : list (Z * T)) : State :=
  settle (fold_left (render delay) changes (mount delay mountedAt value)).

(** Between two renders exactly the timer of the latest effect is pending,
    and the clock shows the time of the latest change [last]. *)
Definition pendingFor (delay : Z) (last : Z * T) (st : State) : Prop :=
  pending (loop st) = [mkTimer (handler st) (fst last + delay) (snd last)]
  /\ now (loop st) = fst last.

End WithValue.
Arguments State : clear implicits.
End UseDebounce.

(** ** [FocusManager]

    The focusable elements are represented by their number, an element by
    its index; [focused] is the trace of the calls of [focus ()].  A method
    returns [None] when it throws: [focusableElements[i].focus ()] is a
    [TypeError] when there is no element [i].  Indices are integers. *)

Module FocusManager.

Record State := mkState {
  focusableElements : nat;
  currentIndex : Z;
  focused : list Z
}.

Definition length (st : State) : Z := Z.of_nat (focusableElements st).

(** [new FocusManager (container)] for a container with [n] focusable
    elements. *)
Definition create (n : nat) : State := mkState n (-1) [].

(** [this.focusableElements[i].focus ()]. *)
Definition focus (i : Z) (st : State) : option State :=
  if (0 <=? i)%Z && (i <? length st)%Z
  then Some (mkState (focusableElements st) (currentIndex st) (focused st ++ [i]))
  else None.

Definition setCurrentIndex (i : Z) (st : State) : State :=
  mkState (focusableElements st) i (focused st).

Definition focusFirst (st : State) : option State :=
  if (0 <? length st)%Z
  then st ← focus 0 st; Some (setCurrentIndex 0 st)
  else Some st.

Definition focusLast (st : State) : option State :=
  if (0 <? length st)%Z
  then
    let lastIndex := (length st - 1)%Z in
    st ← focus lastIndex st; Some (setCurrentIndex lastIndex st)
  else Some st.

(** [%] is the remainder of the truncated division. *)
Definition focusNext (st : State) : option State :=
  if (length st =? 0)%Z then Some st
  else
    let st := setCurrentIndex (Z.rem (currentIndex st + 1) (length st)) st in
    focus (currentIndex st) st.

Definition focusPrevious (st : State) : option State :=
  if (length st =? 0)%Z then Some st
  else
    let st :=
      setCurrentIndex
        (if (currentIndex st <=? 0)%Z then length st - 1 else currentIndex st - 1)%Z
        st in
    focus (currentIndex st) st.

Definition focusByIndex (index : Z) (st : State) : option State :=
  if (0 <=? index)%Z && (index <? length st)%Z
  then st ← focus index st; Some (setCurrentIndex index st)
  else Some st.

Definition getCurrentIndex (st : State) : Z := currentIndex st.

(** [refresh (container)] for a container with [n] focusable elements. *)
Definition refresh (n : nat) (st : State) : option State :=
  Some (mkState n (-1) (focused st)).

Inductive Op :=
| FocusFirst
| FocusLast
| FocusNext
| FocusPrevious
| FocusByIndex (index : Z)
| Refresh (n : nat).

Definition step (op : Op) (st : State) : option State :=
  match op with
  | FocusFirst => focusFirst st
  | FocusLast => focusLast st
  | FocusNext => focusNext st
  | FocusPrevious => focusPrevious st
  | FocusByIndex index => focusByIndex index st
  | Refresh n => refresh n st
  end.

(** A sequence of method calls; it stops at the first that throws. *)
Fixpoint run (ops : list Op) (st : State) : option State :=
  match ops with
  | [] => Some st
  | op :: rest => st ← step op st; run rest st
  end.

(** The index is [-1], or it is the index of an element, the one focused
    last. *)
Definition consistent (st : State) : Prop :=
  currentIndex st = (-1)%Z
  \/ ((0 <= currentIndex st < length st)%Z
      /\ last (focused st) = Some (currentIndex st)).

End FocusManager.

(** ** [handleListNavigation]

    The items are represented by their number.  The result holds the
    returned index, the item focused ([items[newIndex]?.focus ()] focuses
    nothing when there is no such item), the index given to [onSelect] and
    whether [preventDefault] was called. *)

Module ListNavigation.

Module KEYBOARD_NAVIGATION.
Definition ARROW_UP : string := "ArrowUp".
Definition ARROW_DOWN : string := "ArrowDown".
Definition ENTER : string := "Enter".
Definition SPACE : string := " ".
Definition HOME : string := "Home".
Definition END : string := "End".
End KEYBOARD_NAVIGATION.

Record Result := mkResult {
  newIndex : Z;
  focusedItem : option Z;
  selected : option Z;
  defaultPrevented : bool
}.

(** [items[i]?.focus ()]. *)
Definition focusItem (items : nat) (i : Z) : option Z :=
  if (0 <=? i)%Z && (i <? Z.of_nat items)%Z then Some i else None.

Definition handleListNavigation (key : string) (items : nat) (currentIndex : Z)
    : Result :=
  if String.eqb key KEYBOARD_NAVIGATION.ARROW_DOWN then
    let newIndex := Z.min (currentIndex + 1) (Z.of_nat items - 1) in
    mkResult newIndex (focusItem items newIndex) None true
  else if String.eqb key KEYBOARD_NAVIGATION.ARROW_UP then
    let newIndex := Z.max (currentIndex - 1) 0 in
    mkResult newIndex (focusItem items newIndex) None true
  else if String.eqb key KEYBOARD_NAVIGATION.HOME then
    mkResult 0 (focusItem items 0) None true
  else if String.eqb key KEYBOARD_NAVIGATION.END then
    let newIndex := (Z.of_nat items - 1)%Z in
    mkResult newIndex (focusItem items newIndex) None true
  else if String.eqb key KEYBOARD_NAVIGATION.ENTER
          || String.eqb key KEYBOARD_NAVIGATION.SPACE then
    mkResult currentIndex None (Some currentIndex) true
  else mkResult currentIndex None None false.

End ListNavigation.

(** ** [useFormValidation]

    A validator returns a message or [undefined]; [validators] is the list
    of the entries of the object of validators, and [formData field] is
    [formData[field]]. *)

Module FormValidation.
Section WithValue.
Context {Value : Type}.

Definition Validator : Type := Value -> option string.

Definition setFieldError (field message : string) (prev : gmap string string)
    : gmap string string :=
  <[field := message]> prev.

Definition clearFieldError (field : string) (prev : gmap string string)
    : gmap string string :=
  delete field prev.

(** The value returned and the new [validationErrors]. *)
Definition validateField (field : string) (value : Value) (validator : Validator)
    (validationErrors : gmap string string) : bool * gmap string string :=
  match Filter.truthy (validator value) with
  | Some error => (false, setFieldError field error validationErrors)
  | None => (true, clearFieldError field validationErrors)
  end.

(** The value returned and the new [validationErrors]: the state is
    replaced by the errors collected. *)
Definition validateForm (formData : string -> Value)
    (validators : list (string * Validator)) : bool * gmap string string :=
  fold_left
    (fun acc entry =>
       match Filter.truthy (snd entry (formData (fst entry))) with
       | Some error => (false, <[fst entry := error]> (snd acc))
       | None => acc
       end)
    validators (true, ∅).

(** [validateField] for every entry in turn, from the state
    [validationErrors]: whether every call returned [true], and the
    state. *)
Definition validateFields (formData : string -> Value)
    (validators : list (string * Validator))
    (validationErrors : gmap string string) : bool * gmap string string :=
  fold_left
    (fun acc entry =>
       let result :=
         validateField (fst entry) (formData (fst entry)) (snd entry) (snd acc) in
       (fst acc && fst result, snd result))
    validators (true, validationErrors).

End WithValue.
End FormValidation.

(** ** Verdicts and sample forms *)

Module Verdict.
Section WithRuntime.
Context {rt : Runtime}.

(** The four checks of [validateSpaceName] that can report a message. *)
Definition acceptsName (name : string) : bool :=
  negb (Validation.isBlank name)
  && negb (Validation.listIncludes Validation.SPACE_NAME_RULES.reservedNames
             (toLowerCase (JsString.trim name)))
  && Chars.allChars Shapes.nameChar (JsString.trim name)
  && negb (100 <? JsString.length (JsString.trim name))%Z.

End WithRuntime.
End Verdict.

Module FormExamples.

Definition required (value : string) : option string :=
  if Validation.isEmpty value then Some "Required" else None.

Definition formData (field : string) : string :=
  if String.eqb field "name" then "Ada" else EmptyString.

Definition validators : list (string * (string -> option string)) :=
  [("name", required); ("email", required)].

(** A state left by an earlier validation. *)
Definition stale : gmap string string :=
  <["name" := "Too short"]> (<["email" := "Invalid"]> ∅).

End FormExamples.

(** * Properties *)

(** ** Selection *)

Section SelectionProperties.
Import Selection.

Lemma sameDid_refl s : sameDid s s = true.
Proof. apply String.eqb_refl. Qed.

Lemma sameDid_trans_l a b x :
  sameDid a b = true -> sameDid a x = sameDid b x.
Proof.
  unfold sameDid. intros H%String.eqb_eq. by rewrite H.
Qed.

Lemma sameDid_sym a b : sameDid a b = sameDid b a.
Proof. apply String.eqb_sym. Qed.

(** After removing the spaces with the identifier of [s], none is left. *)
Lemma removed_not_selected s prev :
  isSpaceSelected (List.filter (fun x => negb (sameDid x s)) prev) s = false.
Proof.
  unfold isSpaceSelected. induction prev as [|y prev IH]; simpl; [done|].
  destruct (sameDid y s) eqn:E; simpl; [done|]. by rewrite E.
Qed.

(** Removing the spaces with the identifier of [s] does not change whether
    a space with another identifier is selected. *)
Lemma removed_other s x prev :
  sameDid s x = false ->
  isSpaceSelected (List.filter (fun y => negb (sameDid y s)) prev) x
  = isSpaceSelected prev x.
Proof.
  intros Hsx. unfold isSpaceSelected.
  induction prev as [|y prev IH]; simpl; [done|].
  destruct (sameDid y s) eqn:E; simpl.
  - rewrite IH. rewrite (sameDid_trans_l _ _ x E), Hsx. done.
  - by rewrite IH.
Qed.

Lemma filter_none_selected s prev :
  isSpaceSelected prev s = false ->
  List.filter (fun y => negb (sameDid y s)) prev = prev.
Proof.
  unfold isSpaceSelected. induction prev as [|y prev IH]; simpl; [done|].
  intros [Hy Hprev]%orb_false_iff. rewrite Hy. simpl. by rewrite IH.
Qed.

Lemma isSpaceSelected_app l1 l2 x :
  isSpaceSelected (l1 ++ l2) x = isSpaceSelected l1 x || isSpaceSelected l2 x.
Proof. apply existsb_app. Qed.

Lemma isSpaceSelected_sameDid s x l :
  sameDid s x = true -> isSpaceSelected l s = isSpaceSelected l x.
Proof.
  unfold sameDid. intros H%String.eqb_eq. unfold isSpaceSelected, sameDid.
  by rewrite H.
Qed.

(** [selectSpace] on a selected identifier removes it; on a new one it
    appends the space. *)
Lemma selectSpace_selected s prev :
  isSpaceSelected prev s = true ->
  selectSpace s prev = List.filter (fun y => negb (sameDid y s)) prev.
Proof. unfold selectSpace, isSpaceSelected. by intros ->. Qed.

Lemma selectSpace_new s prev :
  isSpaceSelected prev s = false -> selectSpace s prev = prev ++ [s].
Proof. unfold selectSpace, isSpaceSelected. by intros ->. Qed.

(** Two toggles of the same space: the exact result. *)
Lemma selectSpace_twice s prev :
  selectSpace s (selectSpace s prev)
  = if isSpaceSelected prev s
    then List.filter (fun y => negb (sameDid y s)) prev ++ [s]
    else prev.
Proof.
  destruct (isSpaceSelected prev s) eqn:E.
  - rewrite (selectSpace_selected _ _ E).
    apply selectSpace_new, removed_not_selected.
  - rewrite (selectSpace_new _ _ E).
    rewrite selectSpace_selected.
    + rewrite List.filter_app, (filter_none_selected _ _ E). simpl.
      rewrite sameDid_refl. simpl. apply app_nil_r.
    + rewrite isSpaceSelected_app. simpl. rewrite sameDid_refl.
      apply orb_true_iff. right. done.
Qed.

(** Two toggles of the same space select the same identifiers. *)
Lemma selectSpace_twice_same_ids s prev x :
  isSpaceSelected (selectSpace s (selectSpace s prev)) x = isSpaceSelected prev x.
Proof.
  rewrite selectSpace_twice. destruct (isSpaceSelected prev s) eqn:E; [|done].
  rewrite isSpaceSelected_app. simpl. rewrite orb_false_r.
  destruct (sameDid s x) eqn:Hsx.
  - rewrite orb_true_r. by rewrite <- (isSpaceSelected_sameDid _ _ _ Hsx).
  - rewrite orb_false_r. by apply removed_other.
Qed.

Lemma guarded_ops_keep_empty filteredSpaces ops p :
  forallb guarded ops = true ->
  selectedSpaces p = [] ->
  selectedSpaces (fold_left (step false filteredSpaces) ops p) = []
  /\ onSpaceSelectCalls (fold_left (step false filteredSpaces) ops p)
     = onSpaceSelectCalls p ++ clicked ops.
Proof.
  revert p. induction ops as [|op ops IH]; intros p Hops Hp; cbn [fold_left].
  - simpl. by rewrite app_nil_r.
  - simpl in Hops. apply andb_true_iff in Hops as [Hop Hops].
    destruct op; simpl in Hop; try discriminate.
    + destruct (IH (step false filteredSpaces p (Click space)) Hops Hp) as [H1 H2].
      split; [exact H1|]. rewrite H2. simpl. by rewrite <- app_assoc.
    + destruct (IH (step false filteredSpaces p Clear) Hops eq_refl) as [H1 H2].
      split; [exact H1|]. rewrite H2. done.
Qed.

(** C1 (as amended).  In single-select mode a click on an item does not
    touch the selection, it is only forwarded to [onSpaceSelect]: after
    any sequence of clicks and clears, starting from the empty selection,
    the selection is empty, so of size at most 1, and [onSpaceSelect] has
    received the clicked spaces in order. *)
Theorem single_select_clicks_keep_selection_empty
    (filteredSpaces : list Space) (ops : list Op) :
  forallb guarded ops = true ->
  selectedSpaces (run false filteredSpaces ops) = []
  /\ (selectedCount (selectedSpaces (run false filteredSpaces ops)) <= 1)%nat
  /\ onSpaceSelectCalls (run false filteredSpaces ops) = clicked ops.
Proof.
  intros Hops. unfold run.
  destruct (guarded_ops_keep_empty filteredSpaces ops initial Hops eq_refl) as [H1 H2].
  rewrite H1, H2. repeat split. simpl. lia.
Qed.

Lemma single_select_clicks_keep_selection_empty_witness :
  selectedSpaces
    (run false [Examples.spaceA; Examples.spaceB]
       [Click Examples.spaceA; Click Examples.spaceB; Clear; Click Examples.spaceA]) = []
  /\ (selectedCount
        (selectedSpaces
           (run false [Examples.spaceA; Examples.spaceB]
              [Click Examples.spaceA; Click Examples.spaceB; Clear; Click Examples.spaceA]))
      <= 1)%nat
  /\ onSpaceSelectCalls
       (run false [Examples.spaceA; Examples.spaceB]
          [Click Examples.spaceA; Click Examples.spaceB; Clear; Click Examples.spaceA])
     = clicked [Click Examples.spaceA; Click Examples.spaceB; Clear; Click Examples.spaceA].
Proof.
  apply (single_select_clicks_keep_selection_empty
           [Examples.spaceA; Examples.spaceB]
           [Click Examples.spaceA; Click Examples.spaceB; Clear; Click Examples.spaceA]).
  reflexivity.
Defined.

(** C1 (as stated) fails: [selectAllSpaces] and [toggleSpaceSelection] are
    not guarded by [allowMultiSelect], so in single-select mode the
    selection can hold two spaces; and a click on a new space does not
    select it. *)
Lemma single_select_size_counterexample :
  ~ (selectedCount
       (selectedSpaces (run false [Examples.spaceA; Examples.spaceB] [SelectAll])) <= 1)%nat
  /\ ~ (selectedCount
          (selectedSpaces
             (run false [Examples.spaceA; Examples.spaceB]
                [Toggle Examples.spaceA; Toggle Examples.spaceB])) <= 1)%nat
  /\ selectedSpaces (run false [Examples.spaceA; Examples.spaceB] [Click Examples.spaceA])
     <> [Examples.spaceA].
Proof.
  repeat split; vm_compute; first [lia | discriminate].
Qed.

(** C3 (as amended).  Two toggles of the same space, by [selectSpace],
    which does not consult the mode: the same identifiers are selected as
    before.  The list is restored exactly when the identifier was not
    selected before; when it was, the first toggle removes the spaces with
    that identifier and the second appends the space, so it ends up
    last. *)
Theorem toggle_twice_same_ids (s : Space) (prev : list Space) :
  (forall x,
     isSpaceSelected (selectSpace s (selectSpace s prev)) x = isSpaceSelected prev x)
  /\ selectSpace s (selectSpace s prev)
     = if isSpaceSelected prev s
       then List.filter (fun y => negb (sameDid y s)) prev ++ [s]
       else prev.
Proof.
  split.
  - intros x. apply selectSpace_twice_same_ids.
  - apply selectSpace_twice.
Qed.

(** C3 (as stated) fails: toggling the first of two selected spaces twice
    moves it behind the other one. *)
Lemma toggle_twice_order_counterexample :
  selectSpace Examples.spaceA
    (selectSpace Examples.spaceA [Examples.spaceA; Examples.spaceB])
  = [Examples.spaceB; Examples.spaceA]
  /\ selectSpace Examples.spaceA
       (selectSpace Examples.spaceA [Examples.spaceA; Examples.spaceB])
     <> [Examples.spaceA; Examples.spaceB].
Proof.
  split; vm_compute; [reflexivity | discriminate].
Qed.

End SelectionProperties.

(** ** Sorting *)

Section SortProperties.
Context {A : Type}.
Implicit Types (compareFn : A -> A -> Z) (x : A) (xs : list A).

Lemma insert_Permutation compareFn x xs :
  Permutation (JsArray.insert compareFn x xs) (x :: xs).
Proof.
  induction xs as [|y xs IH]; simpl; [done|].
  destruct (0 <? compareFn x y)%Z; [|done].
  rewrite IH. apply perm_swap.
Qed.

Lemma sort_Permutation compareFn xs :
  Permutation (JsArray.sort compareFn xs) xs.
Proof.
  induction xs as [|x xs IH]; simpl; [done|].
  rewrite insert_Permutation. by constructor.
Qed.

Lemma insert_ext compareFn1 compareFn2 x xs :
  (forall y, In y xs -> compareFn1 x y = compareFn2 x y) ->
  JsArray.insert compareFn1 x xs = JsArray.insert compareFn2 x xs.
Proof.
  induction xs as [|y xs IH]; intros Hagree; simpl; [done|].
  rewrite (Hagree y) by (by left).
  rewrite IH; [done|]. intros z Hz. apply Hagree. by right.
Qed.

(** Two comparators that agree on the elements of a list sort it alike. *)
Lemma sort_ext compareFn1 compareFn2 xs :
  (forall x y, In x xs -> In y xs -> compareFn1 x y = compareFn2 x y) ->
  JsArray.sort compareFn1 xs = JsArray.sort compareFn2 xs.
Proof.
  induction xs as [|x xs IH]; intros Hagree; simpl; [done|].
  rewrite IH.
  - apply insert_ext. intros y Hy. apply Hagree; [by left|]. right.
    eapply Permutation_in; [apply sort_Permutation | exact Hy].
  - intros a b Ha Hb. apply Hagree; by right.
Qed.

(** A comparator that never puts an element strictly after another makes
    [sort] the identity: the sort is stable. *)
Lemma sort_all_equal compareFn xs :
  (forall x y, (compareFn x y <= 0)%Z) -> JsArray.sort compareFn xs = xs.
Proof.
  intros Hle. induction xs as [|x xs IH]; simpl; [done|].
  rewrite IH. destruct xs as [|y xs]; simpl; [done|].
  destruct (0 <? compareFn x y)%Z eqn:E; [|done].
  apply Z.ltb_lt in E. specialize (Hle x y). lia.
Qed.
End SortProperties.

(** ** Filter and sort engine *)

Section FilterProperties.
Context {rt : Runtime}.
Import Filter.

Lemma filterSpaces_no_filter_Permutation spaces q a by_ order :
  truthy q = None ->
  a = None \/ a = Some filterAll ->
  Permutation (filterSpaces spaces (mkFilterOptions q a by_ order)) spaces.
Proof.
  intros Hq Ha. unfold filterSpaces, filterByQuery. simpl. rewrite Hq.
  assert (filterByAccess a spaces = spaces) as ->
    by (by destruct Ha as [-> | ->]).
  destruct by_; [apply sort_Permutation | done].
Qed.

(** C2.  With [accessType = 'all'] and an empty query, [filterSpaces]
    returns a permutation of a non-empty input list, whatever the sort key
    and the sort order. *)
Theorem filterSpaces_all_empty_query_Permutation
    (spaces : list Space) (by_ : option SortBy) (order : option SortOrder) :
  spaces <> [] ->
  Permutation
    (filterSpaces spaces (mkFilterOptions (Some EmptyString) (Some filterAll) by_ order))
    spaces.
Proof.
  intros _. apply filterSpaces_no_filter_Permutation; [done | by right].
Qed.

Lemma nameOr_sameSortKey a :
  sameSortKey a = true -> nameOr (shortenDID (did a)) a = nameOr (did a) a.
Proof.
  unfold sameSortKey, nameOr, shortenDID.
  destruct (truthy (name a)); [done|].
  change (8 * 2 + 3)%Z with 19%Z. by intros ->.
Qed.

Lemma compareSpaces_inline by_ order a b :
  (by_ = byName -> sameSortKey a = true /\ sameSortKey b = true) ->
  compareSpaces by_ (Some order) a b = compareSpacesInline by_ order a b.
Proof.
  intros H. unfold compareSpaces, compareSpacesInline.
  destruct by_; [|done|done].
  destruct (H eq_refl) as [Ha Hb].
  by rewrite (nameOr_sameSortKey a Ha), (nameOr_sameSortKey b Hb).
Qed.

Lemma filterByQuery_In q xs x : In x (filterByQuery q xs) -> In x xs.
Proof.
  unfold filterByQuery. destruct (truthy q); [|done].
  by intros [? _]%filter_In.
Qed.

Lemma filterByAccess_In a xs x : In x (filterByAccess a xs) -> In x xs.
Proof.
  unfold filterByAccess. destruct a as [[]|]; try done; by intros [? _]%filter_In.
Qed.

(** The helper and the hook keep the same spaces. *)
Lemma filterSpaces_filteredSpaces_Permutation spaces searchQuery filters :
  Permutation (filterSpaces spaces (optionsOf searchQuery filters))
              (filteredSpaces spaces searchQuery filters).
Proof.
  unfold filterSpaces, filteredSpaces, optionsOf. simpl.
  by rewrite !sort_Permutation.
Qed.

(** How far the two agree: they return the same list in the same order
    when the sort key is not the name, or when every space has a non-empty
    name or an identifier of at most 19 code units, which [shortenDID]
    keeps whole. *)
Lemma filterSpaces_filteredSpaces_same_order
    (spaces : list Space) (searchQuery : string) (filters : SearchFilters) :
  sameOrder filters spaces = true ->
  filterSpaces spaces (optionsOf searchQuery filters)
  = filteredSpaces spaces searchQuery filters.
Proof.
  intros Hsame. unfold filterSpaces, filteredSpaces, optionsOf.
  cbn [query accessType sortBy sortOrder].
  apply sort_ext. intros a b Ha Hb.
  apply compareSpaces_inline. intros Hby.
  unfold sameOrder in Hsame. rewrite Hby in Hsame.
  rewrite forallb_forall in Hsame.
  split; apply Hsame; by eapply filterByQuery_In, filterByAccess_In.
Qed.
End FilterProperties.

Lemma filterSpaces_all_empty_query_Permutation_witness :
  Permutation
    (Filter.filterSpaces (rt := asciiRuntime) [Examples.spaceB; Examples.spaceA]
       (mkFilterOptions (Some EmptyString) (Some filterAll) (Some byName) (Some asc)))
    [Examples.spaceB; Examples.spaceA].
Proof.
  apply (filterSpaces_all_empty_query_Permutation (rt := asciiRuntime)
           [Examples.spaceB; Examples.spaceA] (Some byName) (Some asc)).
  discriminate.
Defined.

(** C10.  The helper and the hook are meant to give the same list in
    the same order, and the hook does not: its inline comparator sorts by
    [name || did ()] where the helper sorts by [name || shortenDID (did ())].
    For two unnamed spaces whose identifiers order one way in full and the
    other way once shortened, sorted by name, the helper returns them
    swapped and the hook returns them as given. *)
Theorem filterSpaces_filteredSpaces_diverge :
  Filter.filterSpaces (rt := asciiRuntime) [Examples.unnamedA; Examples.unnamedB]
    (Filter.optionsOf EmptyString Examples.searchByNameAsc)
  = [Examples.unnamedB; Examples.unnamedA]
  /\ Filter.filteredSpaces (rt := asciiRuntime) [Examples.unnamedA; Examples.unnamedB]
       EmptyString Examples.searchByNameAsc
     = [Examples.unnamedA; Examples.unnamedB]
  /\ Filter.filterSpaces (rt := asciiRuntime) [Examples.unnamedA; Examples.unnamedB]
       (Filter.optionsOf EmptyString Examples.searchByNameAsc)
     <> Filter.filteredSpaces (rt := asciiRuntime) [Examples.unnamedA; Examples.unnamedB]
          EmptyString Examples.searchByNameAsc.
Proof.
  repeat split; vm_compute; first [reflexivity | discriminate].
Qed.

(** ** [filterSpaces] and the arrays it is given *)

Section StoreProperties.
Context {rt : Runtime}.
Import Ref.
Implicit Types (σ : gmap nat (list Space)) (l : nat) (xs : list Space).

Lemma preserves_refl σ : preserves σ σ.
Proof. by intros l xs. Qed.

Lemma newArray_spec σ0 σ xs :
  preserves σ0 σ ->
  exists l, newArray xs σ = Some (l, <[l := xs]> σ)
            /\ σ !! l = None /\ σ0 !! l = None
            /\ preserves σ0 (<[l := xs]> σ).
Proof.
  intros Hpres. exists (fresh (dom σ)).
  assert (σ !! fresh (dom σ) = None) as Hfresh
    by apply not_elem_of_dom, is_fresh.
  assert (σ0 !! fresh (dom σ) = None) as Hfresh0.
  { destruct (σ0 !! fresh (dom σ)) as [ys|] eqn:E; [|done].
    apply Hpres in E. congruence. }
  repeat split; try done.
  intros l ys Hl. rewrite lookup_insert_ne; [by apply Hpres|].
  intros <-. congruence.
Qed.

(** An array allocated after [σ0] can be overwritten without touching
    [σ0]. *)
Lemma preserves_insert_new σ0 σ l xs :
  σ0 !! l = None -> preserves σ0 σ -> preserves σ0 (<[l := xs]> σ).
Proof.
  intros Hnew Hpres k ys Hk. rewrite lookup_insert_ne; [by apply Hpres|].
  intros <-. congruence.
Qed.

Lemma filterArray_yields σ0 σ p l xs :
  preserves σ0 σ -> σ !! l = Some xs ->
  yields σ0 (filterArray p l σ) (List.filter p xs).
Proof.
  intros Hpres Hl.
  destruct (newArray_spec σ0 σ (List.filter p xs) Hpres) as (l' & Hnew & _ & Hl0 & Hpres').
  exists l', (<[l' := List.filter p xs]> σ). repeat split; try done.
  - unfold filterArray, mbind, M_bind, bind, readArray. by rewrite Hl.
  - apply lookup_insert_eq.
Qed.

Lemma spread_yields σ0 σ l xs :
  preserves σ0 σ -> σ !! l = Some xs -> yields σ0 (spread l σ) xs.
Proof.
  intros Hpres Hl.
  destruct (newArray_spec σ0 σ xs Hpres) as (l' & Hnew & _ & Hl0 & Hpres').
  exists l', (<[l' := xs]> σ). repeat split; try done.
  - unfold spread, mbind, M_bind, bind, readArray. by rewrite Hl.
  - apply lookup_insert_eq.
Qed.

Lemma sortArray_spec σ compareFn l xs :
  σ !! l = Some xs ->
  sortArray compareFn l σ = Some (tt, <[l := JsArray.sort compareFn xs]> σ).
Proof.
  intros Hl. unfold sortArray, mbind, M_bind, bind, readArray, writeArray.
  by rewrite Hl, Hl.
Qed.

(** The store-level [filterSpaces] computes, in a new array, the list the
    value-level [filterSpaces] computes, and preserves the store of the
    call. *)
Lemma bind_Some {A B} (m : M A) (k : A -> M B) σ a σ' :
  m σ = Some (a, σ') -> (m ≫= k) σ = k a σ'.
Proof. intros H. unfold mbind, M_bind, bind. by rewrite H. Qed.

Lemma filterByQuery_yields σ0 σ q l xs :
  yields σ0 (Some (l, σ)) xs ->
  yields σ0 (Ref.filterByQuery q l σ) (Filter.filterByQuery q xs).
Proof.
  intros Hy. unfold Ref.filterByQuery, Filter.filterByQuery.
  destruct (Filter.truthy q); [|done].
  destruct Hy as (l' & σ' & [= <- <-] & _ & Hl & Hpres).
  by apply filterArray_yields.
Qed.

Lemma filterByAccess_yields σ0 σ f l xs :
  yields σ0 (Some (l, σ)) xs ->
  yields σ0 (Ref.filterByAccess f l σ) (Filter.filterByAccess f xs).
Proof.
  intros Hy. unfold Ref.filterByAccess, Filter.filterByAccess.
  destruct f as [[]|]; try done;
    destruct Hy as (l' & σ' & [= <- <-] & _ & Hl & Hpres);
    by apply filterArray_yields.
Qed.

(** The store-level [filterSpaces] computes, in a new array, the list the
    value-level [filterSpaces] computes, and preserves the store of the
    call. *)
Lemma filterSpaces_yields σ spaces xs filters :
  σ !! spaces = Some xs ->
  yields σ (Ref.filterSpaces spaces filters σ) (Filter.filterSpaces xs filters).
Proof.
  intros Hin. unfold Ref.filterSpaces, Filter.filterSpaces.
  pose proof (spread_yields σ σ spaces xs (preserves_refl σ) Hin) as H1.
  destruct H1 as (l1 & σ1 & E1 & H1).
  rewrite (bind_Some _ _ _ _ _ E1).
  assert (yields σ (Some (l1, σ1)) xs) as Y1 by (by exists l1, σ1).
  apply (filterByQuery_yields _ _ (query filters)) in Y1.
  destruct Y1 as (l2 & σ2 & E2 & H2).
  rewrite (bind_Some _ _ _ _ _ E2).
  assert (yields σ (Some (l2, σ2)) (Filter.filterByQuery (query filters) xs)) as Y2
    by (by exists l2, σ2).
  apply (filterByAccess_yields _ _ (accessType filters)) in Y2.
  destruct Y2 as (l3 & σ3 & E3 & Hl3 & Hx3 & Hp3).
  rewrite (bind_Some _ _ _ _ _ E3).
  destruct (sortBy filters) as [by_|].
  - rewrite (bind_Some _ _ _ _ _ (sortArray_spec σ3 _ l3 _ Hx3)).
    eexists l3, _. repeat split; try done.
    + apply lookup_insert_eq.
    + by apply preserves_insert_new.
  - by exists l3, σ3.
Qed.

(** C8.  [filterSpaces] does not mutate its input: called on a reference
    to an array holding [xs], it returns, and afterwards the input array
    still holds [xs], as does every other array that existed before the
    call keep its contents; the result is a new array, distinct from the
    input and from every array that existed, and it holds the filtered and
    sorted list. *)
Theorem filterSpaces_does_not_mutate σ (spaces : nat) (xs : list Space)
    (filters : SpaceFilterOptions) :
  σ !! spaces = Some xs ->
  exists result σ',
    Ref.filterSpaces spaces filters σ = Some (result, σ')
    /\ σ' !! spaces = Some xs
    /\ (forall l ys, σ !! l = Some ys -> σ' !! l = Some ys)
    /\ result <> spaces
    /\ σ !! result = None
    /\ σ' !! result = Some (Filter.filterSpaces xs filters).
Proof.
  intros Hin.
  destruct (filterSpaces_yields σ spaces xs filters Hin)
    as (result & σ' & Hrun & Hnew & Hres & Hpres).
  exists result, σ'. repeat split; try done.
  - by apply Hpres.
  - intros ->. congruence.
Qed.
End StoreProperties.

Lemma filterSpaces_does_not_mutate_witness :
  exists result σ',
    Ref.filterSpaces (rt := asciiRuntime) 0%nat
      (mkFilterOptions (Some "e") (Some filterAll) (Some byName) (Some desc))
      {[ 0%nat := [Examples.spaceA; Examples.spaceB] ]}
    = Some (result, σ')
    /\ σ' !! 0%nat = Some [Examples.spaceA; Examples.spaceB]
    /\ (forall l ys,
          ({[ 0%nat := [Examples.spaceA; Examples.spaceB] ]} : gmap nat (list Space)) !! l
          = Some ys -> σ' !! l = Some ys)
    /\ result <> 0%nat
    /\ ({[ 0%nat := [Examples.spaceA; Examples.spaceB] ]} : gmap nat (list Space)) !! result
       = None
    /\ σ' !! result
       = Some (Filter.filterSpaces (rt := asciiRuntime) [Examples.spaceA; Examples.spaceB]
                 (mkFilterOptions (Some "e") (Some filterAll) (Some byName) (Some desc))).
Proof.
  apply (filterSpaces_does_not_mutate (rt := asciiRuntime)
           {[ 0%nat := [Examples.spaceA; Examples.spaceB] ]} 0%nat
           [Examples.spaceA; Examples.spaceB]
           (mkFilterOptions (Some "e") (Some filterAll) (Some byName) (Some desc))).
  reflexivity.
Defined.

(** ** [debounce] *)

Section DebounceProperties.
Context {Args : Type}.
Import Timers Debounce.
Implicit Types (st : State Args) (c : Z * Args) (calls : list (Z * Args)).















End DebounceProperties.



(** The example of the design document: calls at 0, 50 and 100 with a wait
    of 100 give one call of [func], at 200, with the last arguments. *)
Example debounce_example :
  Debounce.simulate 100 [(0, "a"); (50, "ab"); (100, "abc")]%Z = [(200%Z, "abc")].
Proof. reflexivity. Qed.

(** ** [throttle] *)

Section ThrottleProperties.
Context {Args : Type}.
Import Timers Throttle.
Implicit Types (st : State Args) (c : Z * Args) (calls : list (Z * Args)).





End ThrottleProperties.



(** The example of the design document: calls at 0, 10, 20 and 150 with a
    limit of 100 call [func] at 0 and at 150. *)
Example throttle_example :
  Throttle.simulate 100 [(0, "a"); (10, "b"); (20, "c"); (150, "d")]%Z
  = [(0%Z, "a"); (150%Z, "d")].
Proof. reflexivity. Qed.

(** ** [executeWithRetry] *)

Section RetryProperties.
Context {T : Type}.
Import Retry.
Implicit Types (asyncFn : nat -> Outcome T).

Lemma callCount_cons_call events :
  callCount (CallAsyncFn :: events) = S (callCount events).
Proof. done. Qed.



End RetryProperties.

(** An operation that always fails is called 4 times, with sleeps of 1, 2
    and 4 seconds, and the error of the fourth call is thrown. *)
Example executeWithRetry_always_fails :
  Retry.executeWithRetry Examples.alwaysFails
  = ([Retry.SetRetryCount 0; Retry.CallAsyncFn; Retry.OnRetry 1; Retry.Sleep 1000;
      Retry.SetRetryCount 1; Retry.CallAsyncFn; Retry.OnRetry 2; Retry.Sleep 2000;
      Retry.SetRetryCount 2; Retry.CallAsyncFn; Retry.OnRetry 3; Retry.Sleep 4000;
      Retry.SetRetryCount 3; Retry.CallAsyncFn],
     inr (Some "failure 3")).
Proof. reflexivity. Qed.


(** ** Validators *)

Section ValidationProperties.
Context {rt : Runtime}.
Import Validation.

Lemma setIf_lookup_ne cond field message errors other :
  other <> field ->
  setIf cond field message errors !! other = errors !! other.
Proof.
  intros Hne. unfold setIf. destruct cond; [|done].
  by rewrite lookup_insert_ne.
Qed.

Lemma setIf_lookup_eq cond field message (errors : gmap string string) :
  setIf cond field message errors !! field
  = if cond then Some message else errors !! field.
Proof. unfold setIf. destruct cond; [apply lookup_insert_eq | done]. Qed.

(** Only the [expiration] entry of an error map depends on the clock. *)
Lemma run_clock_only_expiration c clock1 clock2 field :
  field <> "expiration" ->
  run clock1 c !! field = run clock2 c !! field.
Proof.
  intros Hne. destruct c as [| |formData| |]; try done.
  simpl. unfold validatePermissionForm.
  destruct (expiration formData) as [e|]; [|done].
  by rewrite !setIf_lookup_ne.
Qed.

(** The [expiration] entry tells the position of the expiration. *)
Lemma validatePermissionForm_expiration_entry clock formData :
  validatePermissionForm clock formData !! "expiration"
  = match expiration formData with
    | None => None
    | Some e =>
        match position clock e with
        | tooFar => Some "Expiration date cannot be more than 1 year in the future"
        | expired => Some "Expiration date must be in the future"
        | inTime => None
        end
    end.
Proof.
  unfold validatePermissionForm, position.
  destruct (expiration formData) as [e|].
  - rewrite !setIf_lookup_eq.
    destruct (dateGt e (validDate (addOneYear (clock 1%nat)))); [done|].
    destruct (dateLe e (validDate (clock 0%nat))); [done|].
    destruct (capabilities formData);
      [rewrite lookup_insert_ne by done | rewrite setIf_lookup_ne by done];
      (destruct (isBlank (grantee formData));
       [rewrite lookup_insert_ne by done | rewrite !setIf_lookup_ne by done];
       apply lookup_empty).
  - destruct (capabilities formData);
      [rewrite lookup_insert_ne by done | rewrite setIf_lookup_ne by done];
      (destruct (isBlank (grantee formData));
       [rewrite lookup_insert_ne by done | rewrite !setIf_lookup_ne by done];
       apply lookup_empty).
Qed.

(** Two runs of a validator on the same input return the same error map
    exactly when the input stands alike at the two clocks. *)
Lemma run_samePosition input clock1 clock2 :
  run clock1 input = run clock2 input <-> samePosition input clock1 clock2.
Proof.
  destruct input as [| |formData| |]; try done.
  cbn [run samePosition]. split.
  - intros Heq.
    pose proof (validatePermissionForm_expiration_entry clock1 formData) as H1.
    pose proof (validatePermissionForm_expiration_entry clock2 formData) as H2.
    rewrite Heq, H2 in H1.
    destruct (expiration formData) as [e|]; [|done].
    by destruct (position clock1 e), (position clock2 e).
  - unfold validatePermissionForm, position.
    destruct (expiration formData) as [e|]; [|done].
    unfold setIf.
    destruct (dateGt e (validDate (addOneYear (clock1 1%nat)))),
      (dateGt e (validDate (addOneYear (clock2 1%nat)))),
      (dateLe e (validDate (clock1 0%nat))),
      (dateLe e (validDate (clock2 0%nat)));
      intros H; try discriminate H; try reflexivity;
      by rewrite ?insert_insert_eq.
Qed.
End ValidationProperties.

(** *** The runs *)

Section RunProperties.
Context {rt : Runtime}.
Import Runs.
Implicit Types (w : World) (h : gmap nat Obj) (l : nat) (e : gmap string string).

Lemma bind_eq {A B} (m : M A) (k : A -> M B) w a w' :
  m w = Some (a, w') -> (m ≫= k) w = k a w'.
Proof. intros H. unfold mbind, M_bind, bind. by rewrite H. Qed.

Lemma withHeap_id w : withHeap w (heap w) = w.
Proof. by destruct w. Qed.

(** A new object gets a reference that was free. *)
Lemma alloc_eq o w :
  exists l, heap w !! l = None
            /\ alloc o w = Some (l, withHeap w (<[l := o]> (heap w))).
Proof.
  exists (fresh (dom (heap w))). split; [|done].
  apply not_elem_of_dom, is_fresh.
Qed.

Lemma load_eq l o w : heap w !! l = Some o -> load l w = Some (o, w).
Proof. intros H. unfold load. by rewrite H. Qed.

Lemma store_eq l o o' w :
  heap w !! l = Some o' ->
  store l o w = Some (tt, withHeap w (<[l := o]> (heap w))).
Proof. intros H. unfold store. by rewrite H. Qed.

Lemma getTime_eq l time w :
  heap w !! l = Some (dateObj time) -> getTime l w = Some (time, w).
Proof. intros H. unfold getTime. by rewrite (bind_eq _ _ _ _ _ (load_eq _ _ _ H)). Qed.

Lemma getFields_eq l e w :
  heap w !! l = Some (errorsObj e) -> getFields l w = Some (e, w).
Proof. intros H. unfold getFields. by rewrite (bind_eq _ _ _ _ _ (load_eq _ _ _ H)). Qed.

Lemma setField_eq l e field message w :
  heap w !! l = Some (errorsObj e) ->
  setField l field message w
  = Some (tt, withHeap w (<[l := errorsObj (<[field := message]> e)]> (heap w))).
Proof.
  intros H. unfold setField.
  rewrite (bind_eq _ _ _ _ _ (getFields_eq _ _ _ H)).
  by apply store_eq with (o' := errorsObj e).
Qed.

Lemma when_setField_eq cond l e field message w :
  heap w !! l = Some (errorsObj e) ->
  when cond (setField l field message) w
  = Some (tt, withHeap w
                (<[l := errorsObj (Validation.setIf cond field message e)]> (heap w))).
Proof.
  intros H. destruct cond; simpl.
  - by apply setField_eq.
  - unfold ret. by rewrite insert_id, withHeap_id.
Qed.

(** *** Steps that only rewrite the error object *)

Lemma writes_eq m l change w e :
  writes m l change ->
  heap w !! l = Some (errorsObj e) ->
  m w = Some (tt, withHeap w (<[l := errorsObj (change e)]> (heap w))).
Proof.
  intros Hm H. specialize (Hm w (heap w) e).
  by rewrite insert_id, withHeap_id in Hm.
Qed.

Lemma writes_setField l field message :
  writes (setField l field message) l (fun e => <[field := message]> e).
Proof.
  intros w h e. rewrite (setField_eq l e); [|apply lookup_insert_eq].
  cbn [heap withHeap]. by rewrite insert_insert_eq.
Qed.

Lemma writes_when cond l field message :
  writes (when cond (setField l field message)) l
    (Validation.setIf cond field message).
Proof.
  intros w h e. destruct cond; [apply writes_setField | done].
Qed.

Lemma writes_ret l : writes (ret tt) l (fun e => e).
Proof. done. Qed.

Lemma writes_bind m1 m2 l change1 change2 :
  writes m1 l change1 -> writes m2 l change2 ->
  writes (_ ← m1; m2) l (fun e => change2 (change1 e)).
Proof.
  intros H1 H2 w h e. rewrite (bind_eq _ _ _ _ _ (H1 w h e)). apply H2.
Qed.

Ltac heap_lookup :=
  cbn [Runs.heap Runs.withHeap];
  repeat first [ rewrite lookup_insert_eq
               | rewrite lookup_insert_ne by congruence ];
  first [ done | eassumption ].

(** The end of a validator: its last writes, then [return errors]. *)
Lemma writes_return m l change w h e :
  writes m l change ->
  (_ ← m; ret l) (withHeap w (<[l := errorsObj e]> h))
  = Some (l, withHeap w (<[l := errorsObj (change e)]> h)).
Proof. intros Hm. by rewrite (bind_eq _ _ _ _ _ (Hm w h e)). Qed.

Lemma result_insert w l e :
  heap w !! l = None ->
  result w e 0 l (withHeap w (<[l := errorsObj e]> (heap w))).
Proof.
  intros Hl. unfold result, untouched. cbn [heap withHeap clock reads].
  split; [done|]. split; [apply lookup_insert_eq|]. split; [|split; [done | lia]].
  intros x o Hx. rewrite lookup_insert_ne; [done | congruence].
Qed.

Lemma validateSpaceName_eq name w :
  exists l,
    heap w !! l = None
    /\ Runs.validateSpaceName name w
       = Some (l, withHeap w
                    (<[l := errorsObj (Validation.validateSpaceName name)]> (heap w))).
Proof.
  destruct (alloc_eq (errorsObj ∅) w) as (l & Hl & Ha).
  exists l. split; [done|].
  unfold Runs.validateSpaceName, Validation.validateSpaceName.
  rewrite (bind_eq _ _ _ _ _ Ha).
  destruct (Validation.isBlank name).
  - by rewrite (writes_return _ _ _ _ _ _ (writes_setField _ _ _)).
  - cbv zeta.
    do 3 rewrite (bind_eq _ _ _ _ _ (writes_when _ _ _ _ _ _ _)).
    by rewrite (writes_return _ _ _ _ _ _ (writes_when _ _ _ _)).
Qed.

Lemma validatePath_eq path w :
  exists l,
    heap w !! l = None
    /\ Runs.validatePath path w
       = Some (l, withHeap w (<[l := errorsObj (Validation.validatePath path)]> (heap w))).
Proof.
  destruct (alloc_eq (errorsObj ∅) w) as (l & Hl & Ha).
  exists l. split; [done|].
  unfold Runs.validatePath, Validation.validatePath.
  rewrite (bind_eq _ _ _ _ _ Ha).
  destruct (Validation.isBlank path).
  - by rewrite (writes_return _ _ _ _ _ _ (writes_setField _ _ _)).
  - cbv zeta.
    rewrite (bind_eq _ _ _ _ _ (writes_when _ _ _ _ _ _ _)).
    destruct (find Validation.isReserved (Validation.pathParts path)) as [part|].
    + rewrite (bind_eq _ _ _ _ _ (writes_setField _ _ _ _ _ _)).
      by rewrite (writes_return _ _ _ _ _ _ (writes_when _ _ _ _)).
    + rewrite (bind_eq _ _ _ _ _ (writes_ret _ _ _ _)).
      by rewrite (writes_return _ _ _ _ _ _ (writes_when _ _ _ _)).
Qed.

Lemma itemsOf_eq l items w :
  heap w !! l = Some (filesObj items) -> itemsOf l w = Some (items, w).
Proof. intros H. unfold itemsOf. by rewrite (bind_eq _ _ _ _ _ (load_eq _ _ _ H)). Qed.

Lemma validateFileUpload_eq files items w :
  heap w !! files = Some (filesObj items) ->
  exists l,
    heap w !! l = None
    /\ Runs.validateFileUpload files w
       = Some (l, withHeap w
                    (<[l := errorsObj (Validation.validateFileUpload items)]> (heap w))).
Proof.
  intros Hfiles. destruct (alloc_eq (errorsObj ∅) w) as (l & Hl & Ha).
  exists l. split; [done|].
  unfold Runs.validateFileUpload, Validation.validateFileUpload.
  rewrite (bind_eq _ _ _ _ _ Ha).
  assert (heap (withHeap w (<[l := errorsObj ∅]> (heap w))) !! files
          = Some (filesObj items)) as Hitems by heap_lookup.
  rewrite (bind_eq _ _ _ _ _ (itemsOf_eq _ _ _ Hitems)).
  destruct items as [|file items].
  - by rewrite (writes_return _ _ _ _ _ _ (writes_setField _ _ _)).
  - cbv zeta.
    do 2 rewrite (bind_eq _ _ _ _ _ (writes_when _ _ _ _ _ _ _)).
    by rewrite (writes_return _ _ _ _ _ _ (writes_when _ _ _ _)).
Qed.

Lemma creatorField_eq {A} (field : Validation.SpaceCreatorFormData -> A) l formData w :
  heap w !! l = Some (creatorFormObj formData) ->
  creatorField field l w = Some (field formData, w).
Proof. intros H. unfold creatorField. by rewrite (bind_eq _ _ _ _ _ (load_eq _ _ _ H)). Qed.

Lemma assign_eq target source t s w :
  heap w !! target = Some (errorsObj t) ->
  heap w !! source = Some (errorsObj s) ->
  assign target source w
  = Some (tt, withHeap w (<[target := errorsObj (s ∪ t)]> (heap w))).
Proof.
  intros Ht Hs. unfold assign.
  rewrite (bind_eq _ _ _ _ _ (getFields_eq _ _ _ Hs)).
  rewrite (bind_eq _ _ _ _ _ (getFields_eq _ _ _ Ht)).
  by apply store_eq with (o' := errorsObj t).
Qed.

Lemma validateSpaceCreatorForm_result l0 formData w :
  heap w !! l0 = Some (creatorFormObj formData) ->
  exists l w',
    Runs.validateSpaceCreatorForm l0 w = Some (l, w')
    /\ result w (Validation.validateSpaceCreatorForm formData) 0 l w'.
Proof.
  intros Hform. destruct (alloc_eq (errorsObj ∅) w) as (l & Hl & Ha).
  unfold Runs.validateSpaceCreatorForm, Validation.validateSpaceCreatorForm.
  rewrite (bind_eq _ _ _ _ _ Ha).
  set (w1 := withHeap w (<[l := errorsObj ∅]> (heap w))).
  assert (heap w1 !! l0 = Some (creatorFormObj formData)) as Hform1
    by (subst w1; heap_lookup).
  rewrite (bind_eq _ _ _ _ _ (creatorField_eq _ _ _ _ Hform1)).
  destruct (validateSpaceName_eq (Validation.creatorName formData) w1)
    as (l2 & Hl2 & Hname).
  rewrite (bind_eq _ _ _ _ _ Hname).
  assert (heap w1 !! l = Some (errorsObj ∅)) as Herrors1 by (subst w1; heap_lookup).
  assert (l2 <> l) as Hne by congruence.
  assert (l2 <> l0) as Hne0 by congruence.
  assert (l <> l0) as Hne1 by congruence.
  subst w1. cbn [heap withHeap] in *.
  match goal with |- context [(assign l l2 ≫= _) ?w2] =>
    assert (heap w2 !! l = Some (errorsObj ∅)) as Herrors2 by heap_lookup;
    assert (heap w2 !! l2
            = Some (errorsObj (Validation.validateSpaceName
                                 (Validation.creatorName formData))))
      as Hname2 by heap_lookup;
    rewrite (bind_eq _ _ _ _ _ (assign_eq l l2 _ _ w2 Herrors2 Hname2))
  end.
  cbn [heap withHeap].
  assert (forall A (field : Validation.SpaceCreatorFormData -> A) h e,
             h !! l0 = Some (creatorFormObj formData) ->
             creatorField field l0 (withHeap w (<[l := errorsObj e]> h))
             = Some (field formData, withHeap w (<[l := errorsObj e]> h)))
    as Hfield.
  { intros A field h e Hh. apply creatorField_eq. heap_lookup. }
  assert (<[l2 := errorsObj (Validation.validateSpaceName
                               (Validation.creatorName formData))]>
            (<[l := errorsObj ∅]> (heap w)) !! l0
          = Some (creatorFormObj formData)) as Hform2 by heap_lookup.
  change (withHeap (withHeap (withHeap w ?h1) ?h2) ?h3) with (withHeap w h3).
  rewrite (bind_eq _ _ _ _ _ (Hfield _ _ _ _ Hform2)).
  rewrite (bind_eq _ _ _ _ _ (writes_when _ _ _ _ _ _ _)).
  rewrite (bind_eq _ _ _ _ _ (Hfield _ _ _ _ Hform2)).
  rewrite (bind_eq _ _ _ _ _ (writes_when _ _ _ _ _ _ _)).
  rewrite (bind_eq _ _ _ _ _ (Hfield _ _ _ _ Hform2)).
  rewrite (writes_return _ _ _ _ _ _ (writes_when _ _ _ _)).
  rewrite (right_id_L ∅ (∪)).
  eexists _, _. split; [done|].
  unfold result, untouched. cbn [heap withHeap clock reads].
  split; [done|]. split; [by rewrite lookup_insert_eq|].
  split; [|split; [done | lia]].
  intros x o Hx.
  assert (x <> l) by congruence.
  assert (x <> l2).
  { intros ->. rewrite lookup_insert_ne in Hl2 by congruence. congruence. }
  by rewrite !lookup_insert_ne by congruence.
Qed.

(** *** [validatePermissionForm] *)

Lemma granteeOf_eq l grantee capabilitiesAt expirationAt w :
  heap w !! l = Some (permissionFormObj grantee capabilitiesAt expirationAt) ->
  granteeOf l w = Some (grantee, w).
Proof. intros H. unfold granteeOf. by rewrite (bind_eq _ _ _ _ _ (load_eq _ _ _ H)). Qed.

Lemma capabilitiesOf_eq l grantee capabilitiesAt expirationAt items w :
  heap w !! l = Some (permissionFormObj grantee capabilitiesAt expirationAt) ->
  heap w !! capabilitiesAt = Some (stringsObj items) ->
  capabilitiesOf l w = Some (items, w).
Proof.
  intros H Hitems. unfold capabilitiesOf.
  rewrite (bind_eq _ _ _ _ _ (load_eq _ _ _ H)).
  by rewrite (bind_eq _ _ _ _ _ (load_eq _ _ _ Hitems)).
Qed.

Lemma expirationOf_eq l grantee capabilitiesAt expirationAt w :
  heap w !! l = Some (permissionFormObj grantee capabilitiesAt expirationAt) ->
  expirationOf l w = Some (expirationAt, w).
Proof. intros H. unfold expirationOf. by rewrite (bind_eq _ _ _ _ _ (load_eq _ _ _ H)). Qed.

Lemma writes_checkGrantee l grantee :
  writes (checkGrantee l grantee) l (Runs.granteeChange grantee).
Proof.
  unfold checkGrantee, Runs.granteeChange. destruct (Validation.isBlank grantee).
  - apply writes_setField.
  - cbv zeta. intros w h e.
    do 2 rewrite (bind_eq _ _ _ _ _ (writes_when _ _ _ _ _ _ _)).
    apply writes_when.
Qed.

Lemma writes_checkCapabilities l capabilities :
  writes (checkCapabilities l capabilities) l (Runs.capabilitiesChange capabilities).
Proof.
  unfold checkCapabilities, Runs.capabilitiesChange. destruct capabilities.
  - apply writes_setField.
  - cbv zeta. apply writes_when.
Qed.

Lemma newDate_eq w :
  exists l,
    heap w !! l = None
    /\ newDate w
       = Some (l, mkWorld (<[l := dateObj (Validation.validDate (clock w (reads w)))]>
                             (heap w))
                    (clock w) (S (reads w))).
Proof.
  unfold newDate.
  destruct (alloc_eq (dateObj (Validation.validDate (clock w (reads w))))
              (mkWorld (heap w) (clock w) (S (reads w)))) as (l & Hl & Ha).
  exists l. split; [done|]. by rewrite Ha.
Qed.

Lemma copyDate_eq l time w :
  heap w !! l = Some (dateObj time) ->
  exists l',
    heap w !! l' = None
    /\ copyDate l w = Some (l', withHeap w (<[l' := dateObj time]> (heap w))).
Proof.
  intros H. unfold copyDate.
  destruct (alloc_eq (dateObj time) w) as (l' & Hl' & Ha).
  exists l'. split; [done|].
  by rewrite (bind_eq _ _ _ _ _ (getTime_eq _ _ _ H)).
Qed.

Lemma addYear_eq l ms w :
  heap w !! l = Some (dateObj (Validation.validDate ms)) ->
  addYear l w
  = Some (tt, withHeap w
                (<[l := dateObj (Validation.validDate (addOneYear ms))]> (heap w))).
Proof.
  intros H. unfold addYear.
  rewrite (bind_eq _ _ _ _ _ (getTime_eq _ _ _ H)).
  by apply store_eq with (o' := dateObj (Validation.validDate ms)).
Qed.

(** The expiration block reads the clock twice, makes three [Date]s of its
    own, and writes to the error object only. *)
Lemma checkExpiration_eq l date e time w :
  heap w !! l = Some (errorsObj e) ->
  heap w !! date = Some (dateObj time) ->
  exists w',
    checkExpiration l date w = Some (tt, w')
    /\ heap w' !! l = Some (errorsObj (Runs.expirationChange (readings w) time e))
    /\ (forall x o, x <> l -> heap w !! x = Some o -> heap w' !! x = Some o)
    /\ clock w' = clock w
    /\ reads w' = (reads w + 2)%nat.
Proof.
  intros Herrors Hdate. unfold checkExpiration.
  destruct (newDate_eq w) as (now & Hnow & ->%(bind_eq _ _)).
  match goal with |- context [(copyDate date ≫= _) ?w1] =>
    assert (heap w1 !! date = Some (dateObj time)) as Hdate1 by heap_lookup;
    destruct (copyDate_eq date time w1 Hdate1) as (expiration & Hexpiration & Hcopy);
    rewrite (bind_eq _ _ _ _ _ Hcopy); clear Hcopy
  end.
  cbn [heap withHeap clock reads] in *.
  apply lookup_insert_None in Hexpiration as [Hexpiration Hne1].
  match goal with |- context [(getTime expiration ≫= _) ?w2] =>
    assert (heap w2 !! expiration = Some (dateObj time)) as Hexp2 by heap_lookup;
    rewrite (bind_eq _ _ _ _ _ (getTime_eq _ _ _ Hexp2));
    assert (heap w2 !! now
            = Some (dateObj (Validation.validDate (clock w (reads w)))))
      as Hnow2 by heap_lookup;
    rewrite (bind_eq _ _ _ _ _ (getTime_eq _ _ _ Hnow2));
    assert (heap w2 !! l = Some (errorsObj e)) as Herrors2 by heap_lookup;
    rewrite (bind_eq _ _ _ _ _ (when_setField_eq _ _ _ _ _ _ Herrors2))
  end.
  cbn [heap withHeap clock reads] in *.
  match goal with |- context [(newDate ≫= _) ?w3] =>
    destruct (newDate_eq w3) as (oneYearFromNow & Hyear & ->%(bind_eq _ _))
  end.
  cbn [heap withHeap clock reads] in *.
  apply lookup_insert_None in Hyear as [Hyear Hne2].
  apply lookup_insert_None in Hyear as [Hyear Hne3].
  apply lookup_insert_None in Hyear as [Hyear Hne4].
  match goal with |- context [(addYear oneYearFromNow ≫= _) ?w4] =>
    assert (heap w4 !! oneYearFromNow
            = Some (dateObj (Validation.validDate (clock w (S (reads w))))))
      as Hyear4 by heap_lookup;
    rewrite (bind_eq _ _ _ _ _ (addYear_eq _ _ _ Hyear4))
  end.
  cbn [heap withHeap clock reads] in *.
  match goal with |- context [(getTime expiration ≫= _) ?w5] =>
    assert (heap w5 !! expiration = Some (dateObj time)) as Hexp5 by heap_lookup;
    rewrite (bind_eq _ _ _ _ _ (getTime_eq _ _ _ Hexp5));
    assert (heap w5 !! oneYearFromNow
            = Some (dateObj (Validation.validDate
                               (addOneYear (clock w (S (reads w)))))))
      as Hyear5 by heap_lookup;
    rewrite (bind_eq _ _ _ _ _ (getTime_eq _ _ _ Hyear5));
    assert (heap w5 !! l
            = Some (errorsObj
                      (Validation.setIf
                         (Validation.dateLe time
                            (Validation.validDate (clock w (reads w))))
                         "expiration" "Expiration date must be in the future" e)))
      as Herrors5 by heap_lookup;
    rewrite (when_setField_eq _ _ _ _ _ _ Herrors5)
  end.
  eexists. split; [done|]. cbn [heap withHeap clock reads].
  unfold Runs.expirationChange, readings.
  rewrite Nat.add_0_r, Nat.add_1_r.
  split; [by rewrite lookup_insert_eq|].
  split; [|split; [done | lia]].
  intros x o Hx Hlookup.
  assert (x <> now) by congruence.
  assert (x <> expiration) by congruence.
  assert (x <> oneYearFromNow) by congruence.
  by rewrite !lookup_insert_ne by congruence.
Qed.

Lemma validatePermissionForm_result l0 formData w :
  given w (callPermissionForm l0) (Validation.callPermissionForm formData) ->
  exists l w',
    Runs.validatePermissionForm l0 w = Some (l, w')
    /\ result w (Validation.validatePermissionForm (readings w) formData)
         (if Validation.readsClock (Validation.callPermissionForm formData)
          then 2 else 0) l w'.
Proof.
  intros (capabilitiesAt & expirationAt & Hform & Hcapabilities & Hexpiration).
  destruct (alloc_eq (errorsObj ∅) w) as (l & Hl & Ha).
  unfold Runs.validatePermissionForm.
  rewrite (bind_eq _ _ _ _ _ Ha).
  assert (forall e,
             heap (withHeap w (<[l := errorsObj e]> (heap w))) !! l0
             = Some (permissionFormObj (Validation.grantee formData)
                       capabilitiesAt expirationAt)) as Hform1
    by (intros e; heap_lookup).
  assert (forall e,
             heap (withHeap w (<[l := errorsObj e]> (heap w))) !! capabilitiesAt
             = Some (stringsObj (Validation.capabilities formData))) as Hcapabilities1
    by (intros e; heap_lookup).
  rewrite (bind_eq _ _ _ _ _ (granteeOf_eq _ _ _ _ _ (Hform1 _))).
  rewrite (bind_eq _ _ _ _ _ (writes_checkGrantee _ _ _ _ _)).
  rewrite (bind_eq _ _ _ _ _
             (capabilitiesOf_eq _ _ _ _ _ _ (Hform1 _) (Hcapabilities1 _))).
  rewrite (bind_eq _ _ _ _ _ (writes_checkCapabilities _ _ _ _ _)).
  rewrite (bind_eq _ _ _ _ _ (expirationOf_eq _ _ _ _ _ (Hform1 _))).
  assert (Validation.validatePermissionForm (readings w) formData
          = match Validation.expiration formData with
            | Some time =>
                Runs.expirationChange (readings w) time
                  (Runs.capabilitiesChange (Validation.capabilities formData)
                     (Runs.granteeChange (Validation.grantee formData) ∅))
            | None =>
                Runs.capabilitiesChange (Validation.capabilities formData)
                  (Runs.granteeChange (Validation.grantee formData) ∅)
            end) as ->.
  { unfold Validation.validatePermissionForm, Runs.expirationChange, Runs.capabilitiesChange,
      Runs.granteeChange.
    by destruct (Validation.expiration formData), (Validation.isBlank _),
         (Validation.capabilities formData). }
  unfold Validation.readsClock.
  destruct expirationAt as [date|], (Validation.expiration formData) as [time|];
    try done.
  - match goal with |- context [(checkExpiration l date ≫= _) ?w1] =>
      assert (heap w1 !! date = Some (dateObj time)) as Hdate1 by heap_lookup;
      assert (heap w1 !! l
              = Some (errorsObj
                        (Runs.capabilitiesChange (Validation.capabilities formData)
                           (Runs.granteeChange (Validation.grantee formData) ∅))))
        as Herrors1 by heap_lookup;
      destruct (checkExpiration_eq l date _ time w1 Herrors1 Hdate1)
        as (w' & Hcheck & Herrors' & Hrest & Hclock & Hreads);
      rewrite (bind_eq _ _ _ _ _ Hcheck)
    end.
    exists l, w'. split; [done|].
    unfold result, untouched. split; [done|]. split; [exact Herrors'|].
    split; [|split; [exact Hclock | exact Hreads]].
    intros x o Hx. apply Hrest; [congruence|]. heap_lookup.
  - rewrite (bind_eq _ _ _ _ _ (writes_ret l _ _ _)).
    eexists _, _. split; [done|]. by apply result_insert.
Qed.

Lemma run_result c input w :
  given w c input ->
  exists l w',
    Runs.run c w = Some (l, w')
    /\ result w (Validation.run (readings w) input)
         (if Validation.readsClock input then 2 else 0) l w'.
Proof.
  destruct c as [name|l0|l0|l0|path], input as [name'|formData|formData|files|path'];
    try done; simpl.
  - intros <-. destruct (validateSpaceName_eq name w) as (l & Hl & ->).
    eexists _, _. split; [done|]. by apply result_insert.
  - apply validateSpaceCreatorForm_result.
  - apply validatePermissionForm_result.
  - intros H. destruct (validateFileUpload_eq _ _ _ H) as (l & Hl & ->).
    eexists _, _. split; [done|]. by apply result_insert.
  - intros <-. destruct (validatePath_eq path w) as (l & Hl & ->).
    eexists _, _. split; [done|]. by apply result_insert.
Qed.

(** C4 (as amended): two runs of a validator on the same input, at any two
    times and in any two states of the heap, both return; each returns a
    new error object and leaves every object that was there as it was; and
    the two error objects hold the same fields exactly when the run is not
    one of [validatePermissionForm] on a form with an expiration, or the
    expiration stands alike at both times: more than a year ahead, not
    after now, or in between. *)
Theorem validators_deterministic (input : Validation.Call) (c1 c2 : Call)
    (w1 w2 : World) :
  given w1 c1 input -> given w2 c2 input ->
  exists l1 w1' l2 w2' e1 e2,
    Runs.run c1 w1 = Some (l1, w1') /\ Runs.run c2 w2 = Some (l2, w2')
    /\ heap w1' !! l1 = Some (errorsObj e1)
    /\ heap w2' !! l2 = Some (errorsObj e2)
    /\ (e1 = e2 <-> Validation.samePosition input (readings w1) (readings w2))
    /\ heap w1 !! l1 = None /\ heap w2 !! l2 = None
    /\ untouched w1 w1' /\ untouched w2 w2'.
Proof.
  intros H1 H2.
  destruct (run_result _ _ _ H1) as (l1 & w1' & Hrun1 & Hnew1 & Hout1 & Hkept1 & _).
  destruct (run_result _ _ _ H2) as (l2 & w2' & Hrun2 & Hnew2 & Hout2 & Hkept2 & _).
  exists l1, w1', l2, w2', (Validation.run (readings w1) input),
    (Validation.run (readings w2) input).
  repeat split; try done; apply run_samePosition.
Qed.
End RunProperties.

Lemma validators_deterministic_witness :
  Runs.given Examples.atNoon (Runs.callPermissionForm 0)
    (Validation.callPermissionForm Examples.grant)
  /\ Runs.given Examples.atDusk (Runs.callPermissionForm 5)
       (Validation.callPermissionForm Examples.grant)
  /\ exists l1 w1' l2 w2' e1 e2,
       Runs.run (rt := asciiRuntime) (Runs.callPermissionForm 0) Examples.atNoon
       = Some (l1, w1')
       /\ Runs.run (rt := asciiRuntime) (Runs.callPermissionForm 5) Examples.atDusk
          = Some (l2, w2')
       /\ Runs.heap w1' !! l1 = Some (Runs.errorsObj e1)
       /\ Runs.heap w2' !! l2 = Some (Runs.errorsObj e2)
       /\ (e1 = e2
           <-> Validation.samePosition (rt := asciiRuntime)
                 (Validation.callPermissionForm Examples.grant)
                 (Runs.readings Examples.atNoon) (Runs.readings Examples.atDusk))
       /\ Runs.heap Examples.atNoon !! l1 = None
       /\ Runs.heap Examples.atDusk !! l2 = None
       /\ Runs.untouched Examples.atNoon w1' /\ Runs.untouched Examples.atDusk w2'.
Proof.
  assert (Runs.given Examples.atNoon (Runs.callPermissionForm 0)
            (Validation.callPermissionForm Examples.grant)) as H1
    by (exists 1%nat, (Some 2%nat); repeat split; vm_compute; reflexivity).
  assert (Runs.given Examples.atDusk (Runs.callPermissionForm 5)
            (Validation.callPermissionForm Examples.grant)) as H2
    by (exists 3%nat, (Some 7%nat); repeat split; vm_compute; reflexivity).
  split; [exact H1|]. split; [exact H2|].
  exact (validators_deterministic (rt := asciiRuntime)
           (Validation.callPermissionForm Examples.grant)
           (Runs.callPermissionForm 0) (Runs.callPermissionForm 5)
           Examples.atNoon Examples.atDusk H1 H2).
Defined.

(** A run at noon: the error object is the new object 3 and is empty; the
    run leaves its three [Date]s behind (now, the copy of the expiration,
    one year from now), has read the clock twice, and the form, its
    capabilities and its expiration are as they were. *)
Example validatePermissionForm_run_example :
  Runs.run (rt := asciiRuntime) (Runs.callPermissionForm 0) Examples.atNoon
  = Some (3%nat,
          Runs.mkWorld
            (<[6%nat := Runs.dateObj (Validation.validDate 31536000000)]>
               (<[5%nat := Runs.dateObj (Validation.validDate 1000)]>
                  (<[4%nat := Runs.dateObj (Validation.validDate 0)]>
                     (<[3%nat := Runs.errorsObj ∅]> (Runs.heap Examples.atNoon)))))
            (Examples.clockAt 0) 2).
Proof. vm_compute. reflexivity. Qed.

(** C4 (as stated) fails: [validatePermissionForm] compares the expiration
    with [new Date ()], so the same grant passes at time 0 and is rejected
    at time 2000, after it has expired. *)
Lemma validators_deterministic_counterexample :
  Validation.run (rt := asciiRuntime) (Examples.clockAt 0)
    (Validation.callPermissionForm Examples.grant) !! "expiration" = None
  /\ Validation.run (rt := asciiRuntime) (Examples.clockAt 2000)
       (Validation.callPermissionForm Examples.grant) !! "expiration"
     = Some "Expiration date must be in the future"
  /\ Validation.run (rt := asciiRuntime) (Examples.clockAt 0)
       (Validation.callPermissionForm Examples.grant)
     <> Validation.run (rt := asciiRuntime) (Examples.clockAt 2000)
          (Validation.callPermissionForm Examples.grant).
Proof.
  assert (Validation.run (rt := asciiRuntime) (Examples.clockAt 0)
            (Validation.callPermissionForm Examples.grant) !! "expiration" = None) as H0
    by (vm_compute; reflexivity).
  assert (Validation.run (rt := asciiRuntime) (Examples.clockAt 2000)
            (Validation.callPermissionForm Examples.grant) !! "expiration"
          = Some "Expiration date must be in the future") as H1
    by (vm_compute; reflexivity).
  split; [exact H0|]. split; [exact H1|].
  intros Heq. rewrite Heq, H1 in H0. discriminate.
Qed.

Section PathProperties.
Context {rt : Runtime}.
Import Validation.

Lemma existsb_find {A} (p : A -> bool) (xs : list A) :
  existsb p xs = match List.find p xs with Some _ => true | None => false end.
Proof.
  induction xs as [|x xs IH]; simpl; [done|]. by destruct (p x).
Qed.

Lemma insert_path_not_empty message (errors : gmap string string) :
  bool_decide (<["path" := message]> errors = ∅) = false.
Proof. apply bool_decide_eq_false, insert_non_empty. Qed.

Lemma dom_insert_path message (errors : gmap string string) :
  dom errors ⊆ ({["path"]} : gset string) ->
  dom (<["path" := message]> errors) ⊆ ({["path"]} : gset string).
Proof.
  intros Hdom. rewrite dom_insert_L. apply union_least; [done | exact Hdom].
Qed.

Lemma dom_setIf_path cond message (errors : gmap string string) :
  dom errors ⊆ ({["path"]} : gset string) ->
  dom (setIf cond "path" message errors) ⊆ ({["path"]} : gset string).
Proof. destruct cond; simpl; [apply dom_insert_path | done]. Qed.

(** C9 (as amended).  [validatePath] returns an error, under the key
    [path] and under no other key, exactly when the path is empty or
    blank, or contains [..] or [~] anywhere, or has a non-empty segment
    whose upper-case form is [.], [..] or a reserved device name, or is
    longer than 260 code units; for every other path the error map is
    empty. *)
Theorem validatePath_rejectedPath (path : string) :
  bool_decide (validatePath path = ∅) = negb (rejectedPath path)
  /\ dom (validatePath path) ⊆ ({["path"]} : gset string).
Proof.
  unfold validatePath, rejectedPath.
  destruct (isBlank path); cbn [orb negb].
  - split; [apply insert_path_not_empty | by apply dom_insert_path].
  - rewrite existsb_find. split.
    + destruct (JsString.includes path ".." || JsString.includes path "~");
        destruct (List.find isReserved (pathParts path));
        destruct (260 <? JsString.length path)%Z;
        cbn [setIf orb negb];
        first [apply insert_path_not_empty | by apply bool_decide_eq_true].
    + apply dom_setIf_path.
      destruct (List.find isReserved (pathParts path));
        [apply dom_insert_path|]; by apply dom_setIf_path.
Qed.
(** *** The documented rule against the code

    Every path the design document declares in error is rejected; the
    code rejects more. *)

Lemma includes_empty s : JsString.includes s EmptyString = true.
Proof. by destruct s. Qed.

Lemma includes_tail c s sub :
  JsString.includes s sub = true -> JsString.includes (String c s) sub = true.
Proof. intros H. cbn [JsString.includes]. rewrite H. apply orb_true_r. Qed.

Lemma includes_prefix s sub :
  String.prefix sub s = true -> JsString.includes s sub = true.
Proof. intros H. destruct s; cbn [JsString.includes]; by rewrite H. Qed.

Lemma split_nonempty sep s : JsString.split sep s <> [].
Proof.
  destruct s as [|c s]; simpl; [done|].
  destruct (Ascii.eqb c sep); [done|]. by destruct (JsString.split sep s).
Qed.

(** The first piece of a split is a prefix of the string. *)
Lemma split_head_prefix sep s piece pieces :
  JsString.split sep s = piece :: pieces -> String.prefix piece s = true.
Proof.
  revert piece pieces. induction s as [|c s IH]; intros piece pieces; simpl.
  - by intros [= <- <-].
  - destruct (Ascii.eqb c sep).
    + by intros [= <- <-].
    + destruct (JsString.split sep s) as [|p ps] eqn:E.
      * by destruct (split_nonempty sep s).
      * intros [= <- <-]. simpl.
        destruct (ascii_dec c c); [by eapply IH | done].
Qed.

(** A segment of a path occurs in the path. *)
Lemma split_In_includes sep s seg :
  In seg (JsString.split sep s) -> JsString.includes s seg = true.
Proof.
  induction s as [|c s IH]; simpl.
  - intros [<- | []]. done.
  - destruct (Ascii.eqb c sep).
    + intros [<- | Hin]; [apply orb_true_l | ].
      rewrite (IH Hin). apply orb_true_r.
    + destruct (JsString.split sep s) as [|p ps] eqn:E.
      * by destruct (split_nonempty sep s).
      * intros [<- | Hin].
        -- apply orb_true_iff. left. simpl.
           destruct (ascii_dec c c); [|done].
           by apply (split_head_prefix sep s p ps).
        -- rewrite IH; [apply orb_true_r | by right].
Qed.

Lemma pathParts_In path seg :
  In seg (segments path) -> seg <> EmptyString -> In seg (pathParts path).
Proof.
  intros Hin Hne. apply filter_In. split; [done|]. by destruct seg.
Qed.

Lemma documentedPathError_rejectedPath (path : string) :
  toUpperCase "." = "." ->
  toUpperCase EmptyString = EmptyString ->
  documentedPathError path = true -> rejectedPath path = true.
Proof.
  intros Hdot Hempty. unfold documentedPathError, rejectedPath.
  rewrite !orb_true_iff.
  intros [[[Hblank | Hdots] | Hdevice] | Hlong]; [tauto | | | tauto].
  - apply existsb_exists in Hdots as (seg & Hin & Hseg).
    simpl in Hseg. rewrite !orb_true_iff, !String.eqb_eq in Hseg.
    destruct Hseg as [-> | [-> | [-> | Hnone]]]; [| | | discriminate Hnone].
    + left. right. apply existsb_exists. exists ".". split.
      * by apply pathParts_In.
      * unfold isReserved. by rewrite Hdot.
    + left. left. left. right. by apply (split_In_includes "/"%char).
    + left. left. right. by apply (split_In_includes "/"%char).
  - apply existsb_exists in Hdevice as (seg & Hin & Hseg).
    left. right. apply existsb_exists. exists seg. split.
    + apply pathParts_In; [done|]. intros ->. by rewrite Hempty in Hseg.
    + unfold isReserved, listIncludes in *.
      change reservedNames with ("." :: ".." :: deviceNames).
      cbn [existsb]. rewrite Hseg. by rewrite !orb_true_r.
Qed.
End PathProperties.

(** C9 (as stated) fails: [a~b] and [a..b] have no segment equal to [.],
    [..], [~] or a device name, and are short, yet [validatePath] rejects
    them, as attempts at path traversal. *)
Lemma validatePath_substring_counterexample :
  Validation.documentedPathError (rt := asciiRuntime) "a~b" = false
  /\ Validation.validatePath (rt := asciiRuntime) "a~b" !! "path"
     = Some "Invalid path: path traversal not allowed"
  /\ Validation.documentedPathError (rt := asciiRuntime) "dir/a..b" = false
  /\ Validation.validatePath (rt := asciiRuntime) "dir/a..b" !! "path"
     = Some "Invalid path: path traversal not allowed".
Proof.
  repeat split; vm_compute; reflexivity.
Qed.

(** * The examples of the test suite and of the design document *)

Example shortenDID_long :
  Filter.shortenDID "did:key:z6MkhaXgBZDvotDkL5257faiztiGiC2QtKLGpbnnEGta2doK"
  = "did:key:...EGta2doK".
Proof. reflexivity. Qed.

Example shortenDID_short : Filter.shortenDID "did:key:short" = "did:key:short".
Proof. reflexivity. Qed.

Example filterSpaces_sorts_by_name :
  List.map did
    (Filter.filterSpaces (rt := asciiRuntime) [Examples.spaceB; Examples.spaceA]
       (mkFilterOptions None None (Some byName) (Some asc)))
  = ["did:key:a"; "did:key:b"]
  /\ List.map did
       (Filter.filterSpaces (rt := asciiRuntime) [Examples.spaceA; Examples.spaceB]
          (mkFilterOptions None None (Some byName) (Some desc)))
     = ["did:key:b"; "did:key:a"].
Proof. split; reflexivity. Qed.

Example filterSpaces_by_access :
  Filter.filterSpaces (rt := asciiRuntime) [Examples.spaceA; Examples.spaceB]
    (mkFilterOptions None (Some filterPrivate) None None)
  = [Examples.spaceB].
Proof. reflexivity. Qed.

Example isValidEmail_examples :
  Validation.isValidEmail "test@example.com" = true
  /\ Validation.isValidEmail "user.name@domain.co.uk" = true
  /\ Validation.isValidEmail "invalid-email" = false
  /\ Validation.isValidEmail "@example.com" = false.
Proof. repeat split; reflexivity. Qed.

Example isValidDID_examples :
  Validation.isValidDID "did:key:z6MkhaXgBZDvotDkL5257faiztiGiC2QtKLGpbnnEGta2doK" = true
  /\ Validation.isValidDID "invalid-did" = false.
Proof. split; reflexivity. Qed.

Example validateSpaceName_examples :
  Validation.validateSpaceName (rt := asciiRuntime) "My Space" = ∅
  /\ Validation.validateSpaceName (rt := asciiRuntime) EmptyString !! "name"
     = Some "Space name is required"
  /\ Validation.validateSpaceName (rt := asciiRuntime) "admin" !! "name"
     = Some "This space name is reserved and cannot be used"
  /\ Validation.validateSpaceName (rt := asciiRuntime) "bad$name" !! "name"
     = Some "Space name can only contain letters, numbers, spaces, hyphens, underscores, and dots".
Proof. repeat split; vm_compute; reflexivity. Qed.

(** Three calls at the same time, as in the test suite. *)
Example debounce_same_time :
  Debounce.simulate 100 [(0, "test1"); (0, "test2"); (0, "test3")]%Z = [(100%Z, "test3")].
Proof. reflexivity. Qed.

Example throttle_same_time :
  Throttle.simulate 100 [(0, "test1"); (0, "test2"); (0, "test3")]%Z = [(0%Z, "test1")].
Proof. reflexivity. Qed.

(** * Further properties of the filter and sort engine *)

Section SortedProperties.
Context {A : Type}.
Implicit Types (compareFn : A -> A -> Z) (x : A) (xs : list A).

Lemma insert_In compareFn x xs y :
  In y (JsArray.insert compareFn x xs) -> y = x \/ In y xs.
Proof.
  intros Hin. apply (Permutation_in _ (insert_Permutation compareFn x xs)) in Hin.
  destruct Hin as [<- | Hin]; auto.
Qed.

(** Inserting into a list in comparator order keeps it in order, when the
    comparator never puts two elements strictly after each other. *)
Lemma insert_Sorted compareFn x xs :
  (forall a b, (0 < compareFn a b)%Z -> (compareFn b a <= 0)%Z) ->
  Sorted (fun a b => (compareFn a b <= 0)%Z) xs ->
  Sorted (fun a b => (compareFn a b <= 0)%Z) (JsArray.insert compareFn x xs).
Proof.
  intros Hanti Hsorted. induction Hsorted as [|y xs Hxs IH Hhd]; simpl.
  - by repeat constructor.
  - destruct (0 <? compareFn x y)%Z eqn:E.
    + apply Z.ltb_lt in E. constructor; [exact IH|].
      destruct xs as [|z xs]; simpl.
      * constructor. by apply Hanti.
      * destruct (0 <? compareFn x z)%Z.
        -- constructor. by inversion Hhd.
        -- constructor. by apply Hanti.
    + apply Z.ltb_ge in E. constructor; [by constructor|]. by constructor.
Qed.

Lemma sort_Sorted compareFn xs :
  (forall a b, (0 < compareFn a b)%Z -> (compareFn b a <= 0)%Z) ->
  Sorted (fun a b => (compareFn a b <= 0)%Z) (JsArray.sort compareFn xs).
Proof.
  intros Hanti. induction xs as [|x xs IH]; simpl; [constructor|].
  by apply insert_Sorted.
Qed.

(** Sorting a list that is in comparator order changes nothing. *)
Lemma sort_of_Sorted compareFn xs :
  Sorted (fun a b => (compareFn a b <= 0)%Z) xs -> JsArray.sort compareFn xs = xs.
Proof.
  induction 1 as [|x xs Hxs IH Hhd]; simpl; [done|].
  rewrite IH. destruct Hhd as [|y xs Hxy]; simpl; [done|].
  assert ((0 <? compareFn x y)%Z = false) as -> by (apply Z.ltb_ge; lia).
  done.
Qed.

Lemma filter_all (p : A -> bool) xs :
  Forall (fun x => p x = true) xs -> List.filter p xs = xs.
Proof.
  induction 1 as [|x xs Hx _ IH]; simpl; [done|]. by rewrite Hx, IH.
Qed.

Lemma filter_filter (p q : A -> bool) xs :
  List.filter q (List.filter p xs) = List.filter (fun x => p x && q x) xs.
Proof.
  induction xs as [|x xs IH]; simpl; [done|].
  destruct (p x); simpl; [|done]. destruct (q x); by rewrite IH.
Qed.
End SortedProperties.

Section KeptProperties.
Context {rt : Runtime}.
Import Filter Kept.

Lemma filter_steps spaces filters :
  filterByAccess (accessType filters) (filterByQuery (query filters) spaces)
  = List.filter (keeps filters) spaces.
Proof.
  unfold filterByAccess, filterByQuery, keeps.
  destruct (truthy (query filters)) as [q|]; destruct (accessType filters) as [[]|];
    rewrite ?filter_filter; try done;
    first [ symmetry; by apply filter_all, Forall_forall
          | apply List.filter_ext; intros x; by rewrite ?andb_true_r ].
Qed.

Lemma filterSpaces_sort spaces filters :
  filterSpaces spaces filters
  = match sortBy filters with
    | Some by_ =>
        JsArray.sort (compareSpaces by_ (sortOrder filters))
          (List.filter (keeps filters) spaces)
    | None => List.filter (keeps filters) spaces
    end.
Proof. unfold filterSpaces. by rewrite filter_steps. Qed.

Lemma filterSpaces_Permutation_kept spaces filters :
  Permutation (filterSpaces spaces filters) (List.filter (keeps filters) spaces).
Proof.
  rewrite filterSpaces_sort. destruct (sortBy filters); [apply sort_Permutation | done].
Qed.

(** X1.  [filterSpaces] returns exactly the spaces of the input that pass
    the query filter and the access filter, each as often as it occurs in
    the input: the result is a permutation of the kept spaces. *)
Theorem filterSpaces_keeps_exactly (spaces : list Space) (filters : SpaceFilterOptions) :
  Permutation (filterSpaces spaces filters) (List.filter (keeps filters) spaces).
Proof. apply filterSpaces_Permutation_kept. Qed.

Lemma compareSpaces_no_name by_ order a b :
  by_ <> byName -> compareSpaces by_ order a b = 0%Z.
Proof.
  intros Hby. unfold compareSpaces, applyOrder.
  destruct by_; [done| |]; by destruct order as [[]|].
Qed.

(** X2.  Unless the sort key is the name, [filterSpaces] keeps the input
    order: sorting by [created] or by [usage] is the same as not sorting. *)
Theorem filterSpaces_keeps_order (spaces : list Space) (filters : SpaceFilterOptions) :
  sortsByName filters = false ->
  filterSpaces spaces filters = List.filter (keeps filters) spaces.
Proof.
  intros Hby. rewrite filterSpaces_sort. unfold sortsByName in Hby.
  destruct (sortBy filters) as [by_|]; [|done].
  apply sort_all_equal. intros a b.
  rewrite compareSpaces_no_name; [lia | by destruct by_].
Qed.

Lemma compareSpaces_antisymmetric by_ order a b :
  Comparator.antisymmetric localeCompare ->
  (0 < compareSpaces by_ order a b)%Z -> (compareSpaces by_ order b a <= 0)%Z.
Proof.
  intros Hanti. unfold compareSpaces, applyOrder.
  destruct by_; [|destruct order as [[]|]; lia ..].
  set (ka := toLowerCase (nameOr (shortenDID (did a)) a)).
  set (kb := toLowerCase (nameOr (shortenDID (did b)) b)).
  specialize (Hanti ka kb).
  destruct order as [[]|]; lia.
Qed.

Lemma notAfter_transitive by_ order :
  Comparator.consistent localeCompare ->
  forall a b c, notAfter by_ order a b -> notAfter by_ order b c -> notAfter by_ order a c.
Proof.
  intros [Hanti Htrans] a b c. unfold notAfter, compareSpaces, applyOrder.
  destruct by_; [|destruct order as [[]|]; lia ..].
  set (ka := toLowerCase (nameOr (shortenDID (did a)) a)).
  set (kb := toLowerCase (nameOr (shortenDID (did b)) b)).
  set (kc := toLowerCase (nameOr (shortenDID (did c)) c)).
  destruct order as [[]|]; try apply Htrans.
  intros Hab Hbc.
  pose proof (Hanti ka kb). pose proof (Hanti kb kc). pose proof (Hanti ka kc).
  assert (localeCompare kc ka <= 0)%Z; [|lia].
  apply (Htrans kc kb ka); lia.
Qed.

(** X3.  With a consistent [localeCompare], the result of [filterSpaces]
    sorted by a key is in comparator order: no space comes before a space
    that the comparator puts strictly before it.  For the key [name] this is
    the order of the lower-cased display names, reversed for [desc]. *)
Theorem filterSpaces_sorted (spaces : list Space) (filters : SpaceFilterOptions)
    (by_ : SortBy) :
  Comparator.consistent localeCompare ->
  sortBy filters = Some by_ ->
  StronglySorted (notAfter by_ (sortOrder filters)) (filterSpaces spaces filters).
Proof.
  intros Hcons Hby. rewrite filterSpaces_sort, Hby.
  apply Sorted_StronglySorted.
  - intros a b c. by apply notAfter_transitive.
  - apply sort_Sorted. intros a b. apply compareSpaces_antisymmetric, Hcons.
Qed.

Lemma filterSpaces_all_kept spaces filters :
  Forall (fun x => keeps filters x = true) (filterSpaces spaces filters).
Proof.
  apply List.Forall_forall. intros x Hin.
  apply (Permutation_in _ (filterSpaces_Permutation_kept spaces filters)) in Hin.
  by apply filter_In in Hin as [_ ?].
Qed.

(** X4.  With an antisymmetric [localeCompare], [filterSpaces] is
    idempotent: filtering and sorting its own result again, with the same
    options, returns that result unchanged. *)
Theorem filterSpaces_idempotent (spaces : list Space) (filters : SpaceFilterOptions) :
  Comparator.antisymmetric localeCompare ->
  filterSpaces (filterSpaces spaces filters) filters = filterSpaces spaces filters.
Proof.
  intros Hanti.
  rewrite (filterSpaces_sort (filterSpaces spaces filters)).
  rewrite (filter_all _ _ (filterSpaces_all_kept spaces filters)).
  destruct (sortBy filters) as [by_|] eqn:Hby; [|done].
  apply sort_of_Sorted.
  rewrite filterSpaces_sort, Hby. apply sort_Sorted.
  intros a b. by apply compareSpaces_antisymmetric.
Qed.
End KeptProperties.

Lemma codeUnitCompare_le a b :
  (JsString.codeUnitCompare a b <= 0)%Z <-> String.compare a b <> Gt.
Proof.
  unfold JsString.codeUnitCompare. destruct (String.compare a b); split; try done; lia.
Qed.

Lemma codeUnitCompare_consistent : Comparator.consistent JsString.codeUnitCompare.
Proof.
  split.
  - intros a b. unfold JsString.codeUnitCompare.
    rewrite (String.compare_antisym b a). by destruct (String.compare a b).
  - intros a b c. rewrite !codeUnitCompare_le. intros Hab Hbc.
    destruct (String.compare a b) eqn:Eab; [| |done].
    + apply String.compare_eq_iff in Eab. by subst.
    + destruct (String.compare b c) eqn:Ebc; [| |done].
      * apply String.compare_eq_iff in Ebc. subst. by rewrite Eab.
      * apply OrderedTypeEx.String_as_OT.cmp_lt in Eab, Ebc.
        pose proof (OrderedTypeEx.String_as_OT.lt_trans _ _ _ Eab Ebc) as Hac.
        apply OrderedTypeEx.String_as_OT.cmp_lt in Hac.
        unfold OrderedTypeEx.String_as_OT.cmp in Hac. by rewrite Hac.
Qed.

Lemma filterSpaces_keeps_order_witness :
  Filter.filterSpaces (rt := asciiRuntime) [Examples.spaceB; Examples.spaceA]
    (mkFilterOptions (Some "e") None (Some byUsage) (Some desc))
  = List.filter
      (Kept.keeps (rt := asciiRuntime)
         (mkFilterOptions (Some "e") None (Some byUsage) (Some desc)))
      [Examples.spaceB; Examples.spaceA].
Proof.
  apply (filterSpaces_keeps_order (rt := asciiRuntime)
           [Examples.spaceB; Examples.spaceA]
           (mkFilterOptions (Some "e") None (Some byUsage) (Some desc))).
  reflexivity.
Defined.

Lemma filterSpaces_sorted_witness :
  StronglySorted (Kept.notAfter (rt := asciiRuntime) byName (Some desc))
    (Filter.filterSpaces (rt := asciiRuntime) [Examples.spaceA; Examples.spaceB]
       (mkFilterOptions None None (Some byName) (Some desc))).
Proof.
  apply (filterSpaces_sorted (rt := asciiRuntime)
           [Examples.spaceA; Examples.spaceB]
           (mkFilterOptions None None (Some byName) (Some desc)) byName).
  - exact codeUnitCompare_consistent.
  - reflexivity.
Defined.

Lemma filterSpaces_idempotent_witness :
  Filter.filterSpaces (rt := asciiRuntime)
    (Filter.filterSpaces (rt := asciiRuntime) [Examples.spaceB; Examples.spaceA]
       (mkFilterOptions (Some "e") None (Some byName) None))
    (mkFilterOptions (Some "e") None (Some byName) None)
  = Filter.filterSpaces (rt := asciiRuntime) [Examples.spaceB; Examples.spaceA]
      (mkFilterOptions (Some "e") None (Some byName) None).
Proof.
  apply (filterSpaces_idempotent (rt := asciiRuntime)
           [Examples.spaceB; Examples.spaceA]
           (mkFilterOptions (Some "e") None (Some byName) None)).
  exact (proj1 codeUnitCompare_consistent).
Defined.

(** * Identifiers and paths *)

Section StringFacts.

Lemma string_length_append (a b : string) :
  String.length (a ++ b) = (String.length a + String.length b)%nat.
Proof. induction a as [|c a IH]; simpl; [done|]. by rewrite IH. Qed.

Lemma take_length n s :
  String.length (JsString.take n s) = Nat.min n (String.length s).
Proof.
  revert s. induction n as [|n IH]; intros [|c s]; simpl; try done.
  by rewrite IH.
Qed.

Lemma drop_length n s :
  String.length (JsString.drop n s) = (String.length s - n)%nat.
Proof.
  revert s. induction n as [|n IH]; intros [|c s]; simpl; try done.
Qed.

Lemma prefix_empty s : String.prefix EmptyString s = true.
Proof. by destruct s. Qed.

Lemma includes_char s c :
  JsString.includes s (String c EmptyString) = Chars.hasChar c s.
Proof.
  induction s as [|d s IH]; [done|].
  cbn [JsString.includes Chars.hasChar]. rewrite IH. f_equal.
  change (String.prefix (String c EmptyString) (String d s))
    with (if ascii_dec c d then String.prefix EmptyString s else false).
  rewrite prefix_empty. destruct (ascii_dec c d) as [->|Hne].
  - by rewrite Ascii.eqb_refl.
  - symmetry. apply Ascii.eqb_neq. congruence.
Qed.

End StringFacts.

Section ShortenDID.
Import Filter.

Lemma shortenDID_keeps_short d :
  (JsString.length d <= 19)%Z -> shortenDID d = d.
Proof.
  intros H. unfold shortenDID. change (8 * 2 + 3)%Z with 19%Z.
  by apply Z.leb_le in H as ->.
Qed.

Lemma shortenDID_length d :
  JsString.length (shortenDID d) = Z.min (JsString.length d) 19.
Proof.
  unfold shortenDID. change (8 * 2 + 3)%Z with 19%Z.
  destruct (JsString.length d <=? 19)%Z eqn:E.
  - apply Z.leb_le in E. lia.
  - apply Z.leb_gt in E. unfold JsString.length in *.
    rewrite !string_length_append, take_length. unfold JsString.takeLast.
    rewrite drop_length. simpl String.length. lia.
Qed.

(** X5.  [shortenDID] returns at most 19 code units: an identifier of up to
    19 code units is returned whole, a longer one is cut to exactly 19;
    shortening twice is the same as shortening once. *)
Theorem shortenDID_bounded_idempotent (d : string) :
  JsString.length (shortenDID d) = Z.min (JsString.length d) 19
  /\ shortenDID (shortenDID d) = shortenDID d.
Proof.
  split; [apply shortenDID_length|].
  apply shortenDID_keeps_short. rewrite shortenDID_length. lia.
Qed.
End ShortenDID.

Section PathHelpers.
Import FilePath.

Lemma split_app_sep sep a b :
  JsString.split sep (a ++ String sep b) = JsString.split sep a ++ JsString.split sep b.
Proof.
  induction a as [|c a IH]; simpl.
  - by rewrite Ascii.eqb_refl.
  - destruct (Ascii.eqb c sep); [by rewrite IH|].
    rewrite IH. destruct (JsString.split sep a) eqn:E; [|done].
    by destruct (split_nonempty sep a).
Qed.

Lemma parseFilePath_app a b :
  parseFilePath (a ++ String "/" b) = parseFilePath a ++ parseFilePath b.
Proof. unfold parseFilePath. by rewrite split_app_sep, List.filter_app. Qed.

Lemma parseFilePath_slash s : parseFilePath (String "/" s) = parseFilePath s.
Proof. done. Qed.

Lemma parseFilePath_join parts :
  parseFilePath (JsString.join "/" parts) = concat (List.map parseFilePath parts).
Proof.
  induction parts as [|p parts IH]; [done|].
  destruct parts as [|q parts].
  - simpl. by rewrite app_nil_r.
  - change (JsString.join "/" (p :: q :: parts))
      with (p ++ String "/" (JsString.join "/" (q :: parts)))%string.
    rewrite parseFilePath_app, IH. done.
Qed.

Lemma split_cons_sep sep c s :
  Ascii.eqb c sep = true ->
  JsString.split sep (String c s) = EmptyString :: JsString.split sep s.
Proof. intros H. simpl. by rewrite H. Qed.

Lemma split_cons_other sep c s :
  Ascii.eqb c sep = false ->
  JsString.split sep (String c s)
  = String c (hd EmptyString (JsString.split sep s)) :: tl (JsString.split sep s).
Proof.
  intros H. simpl. rewrite H.
  destruct (JsString.split sep s) eqn:E; [|done].
  by destruct (split_nonempty sep s).
Qed.

(** Collapsing runs of slashes keeps the first piece of a split and the
    non-empty ones among the others. *)
Lemma split_collapseSlashes s :
  hd EmptyString (JsString.split "/" (collapseSlashes s))
  = hd EmptyString (JsString.split "/" s)
  /\ List.filter (fun part => negb (Validation.isEmpty part))
       (tl (JsString.split "/" (collapseSlashes s)))
     = List.filter (fun part => negb (Validation.isEmpty part))
         (tl (JsString.split "/" s)).
Proof.
  induction s as [|c s IH]; [done|].
  destruct IH as [IH1 IH2].
  destruct (Ascii.eqb c "/") eqn:Ec.
  - rewrite (split_cons_sep _ c s Ec). cbn [hd tl].
    destruct s as [|c' s'].
    + cbn [collapseSlashes]. rewrite Ec, (split_cons_sep _ c _ Ec). done.
    + destruct (Ascii.eqb c' "/") eqn:Ec'.
      * assert (collapseSlashes (String c (String c' s'))
                = collapseSlashes (String c' s')) as ->
          by (cbn [collapseSlashes]; by rewrite Ec, Ec').
        rewrite (split_cons_sep _ c' s' Ec') in *. cbn [hd tl] in *.
        split; [exact IH1|]. by rewrite IH2.
      * assert (collapseSlashes (String c (String c' s'))
                = String c (collapseSlashes (String c' s'))) as ->
          by (cbn [collapseSlashes]; by rewrite Ec, Ec').
        rewrite (split_cons_sep _ c _ Ec). cbn [hd tl]. split; [done|].
        destruct (JsString.split "/" (collapseSlashes (String c' s'))) as [|h t] eqn:E1;
          [by destruct (split_nonempty "/" (collapseSlashes (String c' s')))|].
        destruct (JsString.split "/" (String c' s')) as [|h' t'] eqn:E2;
          [by destruct (split_nonempty "/" (String c' s'))|].
        cbn [hd tl] in *. subst h'. cbn [List.filter]. by rewrite IH2.
  - assert (collapseSlashes (String c s) = String c (collapseSlashes s)) as ->
      by (cbn [collapseSlashes]; by rewrite Ec).
    rewrite !(split_cons_other _ c _ Ec). cbn [hd tl]. by rewrite IH1, IH2.
Qed.

Lemma parseFilePath_collapseSlashes s :
  parseFilePath (collapseSlashes s) = parseFilePath s.
Proof.
  unfold parseFilePath. destruct (split_collapseSlashes s) as [H1 H2].
  destruct (JsString.split "/" (collapseSlashes s)) as [|h t] eqn:E1;
    [by destruct (split_nonempty "/" (collapseSlashes s))|].
  destruct (JsString.split "/" s) as [|h' t'] eqn:E2;
    [by destruct (split_nonempty "/" s)|].
  cbn [hd tl] in *. subst h'. cbn [List.filter]. by rewrite H2.
Qed.

Lemma parseFilePath_dropped part :
  keepPart part = false -> parseFilePath part = [].
Proof.
  unfold keepPart. intros H. apply andb_false_iff in H as [H|H].
  - destruct part; [done | discriminate].
  - apply negb_false_iff, String.eqb_eq in H. by subst.
Qed.

Lemma concat_parse_filter parts :
  concat (List.map parseFilePath (List.filter keepPart parts))
  = concat (List.map parseFilePath parts).
Proof.
  induction parts as [|p parts IH]; simpl; [done|].
  destruct (keepPart p) eqn:E; simpl; rewrite IH; [done|].
  by rewrite (parseFilePath_dropped p E).
Qed.

Lemma parseFilePath_createFilePath_concat parts :
  parseFilePath (createFilePath parts) = concat (List.map parseFilePath parts).
Proof.
  unfold createFilePath.
  by rewrite parseFilePath_collapseSlashes, parseFilePath_join, concat_parse_filter.
Qed.

(** A piece of a split has no separator in it. *)
Lemma split_piece_no_sep sep s piece :
  In piece (JsString.split sep s) -> Chars.hasChar sep piece = false.
Proof.
  revert piece. induction s as [|c s IH]; intros piece; simpl.
  - by intros [<- | []].
  - destruct (Ascii.eqb c sep) eqn:Ec.
    + intros [<- | Hin]; [done | by apply IH].
    + destruct (JsString.split sep s) as [|p ps] eqn:E;
        [by destruct (split_nonempty sep s)|].
      intros [<- | Hin].
      * simpl. rewrite Ec. apply IH. by left.
      * apply IH. by right.
Qed.

Lemma split_no_sep sep s :
  Chars.hasChar sep s = false -> JsString.split sep s = [s].
Proof.
  induction s as [|c s IH]; simpl; [done|].
  intros [Hc Hs]%orb_false_iff. rewrite Hc, (IH Hs). done.
Qed.

Lemma parseFilePath_clean_parts path :
  Forall cleanPart (parseFilePath path).
Proof.
  apply List.Forall_forall. intros part Hin.
  apply filter_In in Hin as [Hin Hne]. split.
  - by destruct part.
  - rewrite includes_char. by apply (split_piece_no_sep _ path).
Qed.

Lemma parseFilePath_cleanPart part :
  cleanPart part -> parseFilePath part = [part].
Proof.
  intros [Hne Hslash]. rewrite includes_char in Hslash.
  unfold parseFilePath. rewrite (split_no_sep _ _ Hslash). simpl.
  by destruct part.
Qed.

Lemma concat_parse_clean parts :
  Forall cleanPart parts -> concat (List.map parseFilePath parts) = parts.
Proof.
  induction 1 as [|p parts Hp _ IH]; simpl; [done|].
  by rewrite (parseFilePath_cleanPart p Hp), IH.
Qed.

(** X6.  The parts [parseFilePath] returns are never empty and never
    contain a slash. *)
Theorem parseFilePath_parts_clean (path : string) :
  Forall cleanPart (parseFilePath path).
Proof. apply parseFilePath_clean_parts. Qed.

(** X7.  Parsing a path built by [createFilePath] gives the parts of its
    arguments, in order: empty arguments and lone slashes contribute
    nothing, and an argument with slashes contributes its own parts. *)
Theorem parseFilePath_createFilePath (parts : list string) :
  parseFilePath (createFilePath parts) = concat (List.map parseFilePath parts).
Proof. apply parseFilePath_createFilePath_concat. Qed.

(** X8.  Round trip: building a path from parts that are not empty and have
    no slash, and parsing it, gives the parts back. *)
Theorem parseFilePath_createFilePath_roundtrip (parts : list string) :
  Forall cleanPart parts ->
  parseFilePath (createFilePath parts) = parts.
Proof.
  intros Hclean. rewrite parseFilePath_createFilePath_concat.
  by apply concat_parse_clean.
Qed.

Lemma removelast_clean (parts : list string) :
  Forall cleanPart parts -> Forall cleanPart (removelast parts).
Proof.
  induction 1 as [|p parts Hp Hparts IH]; simpl; [constructor|].
  destruct parts; [constructor | by constructor].
Qed.

Lemma parseFilePath_getParentPath path :
  parseFilePath (getParentPath path) = removelast (parseFilePath path).
Proof.
  unfold getParentPath.
  pose proof (removelast_clean _ (parseFilePath_clean_parts path)) as Hclean.
  destruct (removelast (parseFilePath path)) as [|p ps] eqn:E; [done|].
  cbn [List.length]. 
  assert ((0 <? Z.of_nat (S (List.length ps)))%Z = true) as -> by (apply Z.ltb_lt; lia).
  change ("/" ++ JsString.join "/" (p :: ps))%string
    with (String "/" (JsString.join "/" (p :: ps))).
  rewrite parseFilePath_slash, parseFilePath_join. by apply concat_parse_clean.
Qed.

(** X9.  [getParentPath] and [getFilename] take a path apart without loss:
    the parts of the parent followed by the file name are the parts of the
    path; a path without parts has the parent [/] and an empty file name. *)
Theorem getParentPath_getFilename (path : string) :
  match parseFilePath path with
  | [] => getParentPath path = "/" /\ getFilename path = EmptyString
  | _ :: _ => parseFilePath (getParentPath path) ++ [getFilename path] = parseFilePath path
  end.
Proof.
  destruct (parseFilePath path) as [|p ps] eqn:E.
  - unfold getParentPath, getFilename. by rewrite E.
  - rewrite parseFilePath_getParentPath. unfold getFilename. rewrite E.
    symmetry. by apply app_removelast_last.
Qed.

(** X10.  Joining the parent and the file name of a path with
    [createFilePath] gives a path with the same parts. *)
Theorem createFilePath_parent_filename (path : string) :
  parseFilePath (createFilePath [getParentPath path; getFilename path])
  = parseFilePath path.
Proof.
  rewrite parseFilePath_createFilePath_concat. simpl. rewrite app_nil_r.
  rewrite parseFilePath_getParentPath. unfold getFilename.
  pose proof (parseFilePath_clean_parts path) as Hclean.
  destruct (parseFilePath path) as [|p ps] eqn:E; [done|].
  assert (cleanPart (List.last (p :: ps) EmptyString)) as Hlast.
  { rewrite List.Forall_forall in Hclean. apply Hclean.
    rewrite (app_removelast_last EmptyString (l := p :: ps)) at 2 by done.
    apply in_or_app. right. by left. }
  rewrite (parseFilePath_cleanPart _ Hlast).
  symmetry. by apply app_removelast_last.
Qed.
End PathHelpers.

Lemma parseFilePath_createFilePath_roundtrip_witness :
  FilePath.parseFilePath (FilePath.createFilePath ["folder1"; "folder2"; "file.txt"])
  = ["folder1"; "folder2"; "file.txt"].
Proof.
  apply (parseFilePath_createFilePath_roundtrip ["folder1"; "folder2"; "file.txt"]).
  repeat constructor; discriminate.
Defined.

(** * File items and file names *)

Section FileItemProperties.
Context {rt : Runtime}.
Import FileItems.

Lemma insert_Forall {A} (compareFn : A -> A -> Z) (P : A -> Prop) x xs :
  P x -> Forall P xs -> Forall P (JsArray.insert compareFn x xs).
Proof.
  intros Hx Hxs. apply List.Forall_forall. intros y Hy.
  apply insert_In in Hy as [-> | Hy]; [done|].
  rewrite List.Forall_forall in Hxs. by apply Hxs.
Qed.

Lemma compareFileItems_directoryFirst a b :
  (compareFileItems a b <= 0)%Z -> directoryFirst a b.
Proof.
  unfold compareFileItems, directoryFirst.
  destruct (isDirectory a), (isDirectory b); simpl; first [done | lia].
Qed.

Lemma compareFileItems_after a b :
  (0 < compareFileItems a b)%Z -> directoryFirst b a.
Proof.
  unfold compareFileItems, directoryFirst.
  destruct (isDirectory a), (isDirectory b); simpl; first [done | lia].
Qed.

Lemma directoryFirst_trans a b c :
  directoryFirst a b -> directoryFirst b c -> directoryFirst a c.
Proof. unfold directoryFirst. auto. Qed.

Lemma insert_directoryFirst x xs :
  StronglySorted directoryFirst xs ->
  StronglySorted directoryFirst (JsArray.insert compareFileItems x xs).
Proof.
  induction 1 as [|y xs Hxs IH Hall]; simpl; [by repeat constructor|].
  destruct (0 <? compareFileItems x y)%Z eqn:E.
  - apply Z.ltb_lt in E. constructor; [exact IH|].
    apply insert_Forall; [by apply compareFileItems_after | exact Hall].
  - apply Z.ltb_ge in E. apply compareFileItems_directoryFirst in E.
    constructor; [by constructor|]. constructor; [exact E|].
    eapply Forall_impl; [exact Hall|]. intros z Hz.
    by apply (directoryFirst_trans x y z).
Qed.

Lemma sortFileItems_StronglySorted items :
  StronglySorted directoryFirst (sortFileItems items).
Proof.
  unfold sortFileItems. induction items as [|x items IH]; simpl; [constructor|].
  by apply insert_directoryFirst.
Qed.

(** X11.  [sortFileItems] returns the items it is given, each once, with
    every directory before every file, whatever the names and whatever
    [localeCompare] answers. *)
Theorem sortFileItems_directories_first (items : list FileItem) :
  Permutation (sortFileItems items) items
  /\ StronglySorted directoryFirst (sortFileItems items).
Proof.
  split; [apply sort_Permutation | apply sortFileItems_StronglySorted].
Qed.

Lemma compareFileItems_antisymmetric a b :
  Comparator.antisymmetric localeCompare ->
  (0 < compareFileItems a b)%Z -> (compareFileItems b a <= 0)%Z.
Proof.
  intros Hanti. unfold compareFileItems.
  specialize (Hanti (itemName a) (itemName b)).
  destruct (isDirectory a), (isDirectory b); simpl; lia.
Qed.

Lemma itemNotAfter_transitive :
  Comparator.transitive localeCompare ->
  forall a b c, itemNotAfter a b -> itemNotAfter b c -> itemNotAfter a c.
Proof.
  intros Htrans a b c. unfold itemNotAfter, compareFileItems.
  specialize (Htrans (itemName a) (itemName b) (itemName c)).
  destruct (isDirectory a), (isDirectory b), (isDirectory c); simpl; lia.
Qed.

(** X12.  With a consistent [localeCompare], the result of [sortFileItems]
    is in comparator order throughout: directories by name, then files by
    name. *)
Theorem sortFileItems_sorted (items : list FileItem) :
  Comparator.consistent localeCompare ->
  StronglySorted itemNotAfter (sortFileItems items).
Proof.
  intros [Hanti Htrans]. apply Sorted_StronglySorted.
  - intros a b c. by apply itemNotAfter_transitive.
  - apply sort_Sorted. intros a b. by apply compareFileItems_antisymmetric.
Qed.
End FileItemProperties.

Lemma sortFileItems_sorted_witness :
  StronglySorted (FileItems.itemNotAfter (rt := asciiRuntime))
    (FileItems.sortFileItems (rt := asciiRuntime)
       [FileItems.mkFileItem "file.txt" "/file.txt" FileItems.file None None None;
        FileItems.mkFileItem "folder" "/folder" FileItems.directory None None None;
        FileItems.mkFileItem "another.txt" "/another.txt" FileItems.file None None None]).
Proof.
  apply (sortFileItems_sorted (rt := asciiRuntime)
           [FileItems.mkFileItem "file.txt" "/file.txt" FileItems.file None None None;
            FileItems.mkFileItem "folder" "/folder" FileItems.directory None None None;
            FileItems.mkFileItem "another.txt" "/another.txt" FileItems.file None None None]).
  exact codeUnitCompare_consistent.
Defined.

Section FileNameProperties.
Context {rt : Runtime}.
Import FileNames.

Lemma listIncludes_In arr s :
  Validation.listIncludes arr s = true <-> In s arr.
Proof.
  unfold Validation.listIncludes. rewrite existsb_exists. split.
  - intros (x & Hin & Heq). apply String.eqb_eq in Heq. by subst.
  - intros Hin. exists s. split; [done | apply String.eqb_refl].
Qed.

Lemma category_of_extension filename :
  let ext := getFileExtension filename in
  (getFileTypeCategory filename = "image" -> In ext imageExtensions)
  /\ (getFileTypeCategory filename = "video" -> In ext videoExtensions)
  /\ (getFileTypeCategory filename = "audio" -> In ext audioExtensions)
  /\ (getFileTypeCategory filename = "archive" -> In ext archiveExtensions).
Proof.
  intros ext. unfold getFileTypeCategory. fold ext.
  destruct (Validation.listIncludes imageExtensions ext) eqn:E1;
    [apply listIncludes_In in E1; by repeat split|].
  destruct (Validation.listIncludes videoExtensions ext) eqn:E2;
    [apply listIncludes_In in E2; by repeat split|].
  destruct (Validation.listIncludes audioExtensions ext) eqn:E3;
    [apply listIncludes_In in E3; by repeat split|].
  destruct (Validation.listIncludes documentExtensions ext) eqn:E4;
    [by repeat split|].
  destruct (Validation.listIncludes archiveExtensions ext) eqn:E5;
    [apply listIncludes_In in E5; by repeat split|].
  destruct (Validation.listIncludes codeExtensions ext); by repeat split.
Qed.

(** X13.  The category and the preview test agree: every file in the
    category [image] can be previewed, and no file in the categories
    [video], [audio] or [archive] can. *)
Theorem category_previewable (filename : string) :
  (getFileTypeCategory filename = "image" -> isPreviewableFile filename = true)
  /\ (getFileTypeCategory filename = "video" \/ getFileTypeCategory filename = "audio"
      \/ getFileTypeCategory filename = "archive" ->
      isPreviewableFile filename = false).
Proof.
  destruct (category_of_extension filename) as (Himage & Hvideo & Haudio & Harchive).
  unfold isPreviewableFile. split.
  - intros H. apply Himage in H. simpl in H.
    repeat (destruct H as [<- | H]; [reflexivity|]). done.
  - intros [H | [H | H]];
      [apply Hvideo in H | apply Haudio in H | apply Harchive in H];
      simpl in H; repeat (destruct H as [<- | H]; [reflexivity|]); done.
Qed.
End FileNameProperties.

Lemma category_previewable_witness :
  FileNames.isPreviewableFile (rt := asciiRuntime) "photo.PNG" = true
  /\ FileNames.isPreviewableFile (rt := asciiRuntime) "archive.zip" = false.
Proof.
  split.
  - apply (proj1 (category_previewable (rt := asciiRuntime) "photo.PNG")). reflexivity.
  - apply (proj2 (category_previewable (rt := asciiRuntime) "archive.zip")).
    right. right. reflexivity.
Defined.

(** * Regular expressions: the matcher against the language *)

(** [++] on strings does not unfold under [simpl]; these steps compute
    it. *)
Ltac append_step :=
  repeat match goal with
         | |- context [String.append (String ?c ?a) ?b] =>
             change (String.append (String c a) b) with (String c (String.append a b))
         | |- context [String.append EmptyString ?b] =>
             change (String.append EmptyString b) with b
         | H : context [String.append (String ?c ?a) ?b] |- _ =>
             change (String.append (String c a) b)
               with (String c (String.append a b)) in H
         | H : context [String.append EmptyString ?b] |- _ =>
             change (String.append EmptyString b) with b in H
         end.

Section RegexCorrectness.
Import Regex RegexLanguage.

Lemma append_empty_r (s : string) : (s ++ EmptyString)%string = s.
Proof.
  induction s as [|c s IH]; [done|].
  change (String c s ++ EmptyString)%string with (String c (s ++ EmptyString)).
  by rewrite IH.
Qed.

Lemma append_assoc_string (a b c : string) :
  ((a ++ b) ++ c)%string = (a ++ (b ++ c))%string.
Proof.
  induction a as [|d a IH]; [done|].
  change ((String d a ++ b) ++ c)%string with (String d ((a ++ b) ++ c)).
  by rewrite IH.
Qed.

Lemma append_eq_empty (a b : string) :
  (a ++ b)%string = EmptyString -> a = EmptyString /\ b = EmptyString.
Proof. destruct a; append_step; [done | discriminate]. Qed.

Lemma append_eq_cons (a b : string) c s :
  (a ++ b)%string = String c s ->
  (a = EmptyString /\ b = String c s)
  \/ exists a', a = String c a' /\ s = (a' ++ b)%string.
Proof.
  destruct a as [|d a]; append_step; [by left|].
  intros [= -> <-]. right. by exists a.
Qed.

Lemma nullable_matches r : nullable r = true <-> matches r EmptyString.
Proof.
  split.
  - induction r; simpl; intros H; try discriminate.
    + constructor.
    + apply andb_true_iff in H as [H1 H2].
      change EmptyString with (EmptyString ++ EmptyString)%string.
      constructor; auto.
    + apply orb_true_iff in H as [H | H];
        [apply matches_alt_l | apply matches_alt_r]; auto.
    + constructor.
  - intros H. remember EmptyString as s eqn:Hs.
    induction H; simpl; try done.
    + apply append_eq_empty in Hs as [-> ->]. by rewrite IHmatches1, IHmatches2.
    + by rewrite IHmatches.
    + rewrite IHmatches; [apply orb_true_r | done].
Qed.

Lemma deriv_sound c r s : matches (deriv c r) s -> matches r (String c s).
Proof.
  revert s. induction r as [| |class|r1 IH1 r2 IH2|r1 IH1 r2 IH2|r IH];
    intros s; simpl; intros H.
  - inversion H.
  - inversion H.
  - destruct (class c) eqn:E; inversion H; subst. by constructor.
  - destruct (nullable r1) eqn:E.
    + inversion H as [| | |? ? ? Hl|? ? ? Hr| |]; subst.
      * inversion Hl as [| |? ? s1 s2 H1 H2| | | |]; subst.
        change (String c (s1 ++ s2)) with (String c s1 ++ s2)%string.
        constructor; auto.
      * change (String c s) with (EmptyString ++ String c s)%string.
        constructor; [by apply nullable_matches | auto].
    + inversion H as [| |? ? s1 s2 H1 H2| | | |]; subst.
      change (String c (s1 ++ s2)) with (String c s1 ++ s2)%string.
      constructor; auto.
  - inversion H; subst; [apply matches_alt_l | apply matches_alt_r]; auto.
  - inversion H as [| |? ? s1 s2 H1 H2| | | |]; subst.
    change (String c (s1 ++ s2)) with (String c s1 ++ s2)%string.
    constructor; auto.
Qed.

Lemma deriv_complete c r s : matches r (String c s) -> matches (deriv c r) s.
Proof.
  intros H. remember (String c s) as t eqn:Ht. revert c s Ht.
  induction H as [|class d Hd|r1 r2 s1 s2 H1 IH1 H2 IH2|r1 r2 t H IH|r1 r2 t H IH
                  | |r s1 s2 H1 IH1 H2 IH2]; intros c s Ht; simpl.
  - discriminate.
  - injection Ht as -> <-. rewrite Hd. constructor.
  - apply append_eq_cons in Ht as [[-> ->] | (s1' & -> & ->)].
    + apply nullable_matches in H1 as ->. apply matches_alt_r. by apply IH2.
    + destruct (nullable r1); [apply matches_alt_l|]; constructor; auto.
  - apply matches_alt_l. by apply IH.
  - apply matches_alt_r. by apply IH.
  - discriminate.
  - apply append_eq_cons in Ht as [[-> ->] | (s1' & -> & ->)].
    + by apply IH2.
    + constructor; auto.
Qed.

(** The matcher by derivatives decides the language of the expression. *)
Lemma test_matches r s : test r s = true <-> matches r s.
Proof.
  revert r. induction s as [|c s IH]; intros r; simpl.
  - apply nullable_matches.
  - rewrite IH. split; [apply deriv_sound | apply deriv_complete].
Qed.

(** *** Languages of the building blocks *)

Lemma matches_lit c s : matches (lit c) s <-> s = String c EmptyString.
Proof.
  split.
  - intros H. inversion H as [|class d Hd| | | | |]; subst.
    apply Ascii.eqb_eq in Hd. by subst.
  - intros ->. constructor. apply Ascii.eqb_refl.
Qed.

Lemma matches_seq_inv r1 r2 s :
  matches (seq r1 r2) s <->
  exists s1 s2, s = (s1 ++ s2)%string /\ matches r1 s1 /\ matches r2 s2.
Proof.
  split.
  - intros H. inversion H; subst. eauto.
  - intros (s1 & s2 & -> & H1 & H2). by constructor.
Qed.

Lemma matches_word w s : matches (word w) s <-> s = w.
Proof.
  revert s. induction w as [|c w IH]; intros s; simpl.
  - split; [intros H; by inversion H | intros ->; constructor].
  - rewrite matches_seq_inv. split.
    + intros (s1 & s2 & -> & H1 & H2). apply matches_lit in H1 as ->.
      apply IH in H2 as ->. done.
    + intros ->. exists (String c EmptyString), w.
      repeat split; [by apply matches_lit | by apply IH].
Qed.

Lemma allChars_app class a b :
  Chars.allChars class (a ++ b) = Chars.allChars class a && Chars.allChars class b.
Proof.
  induction a as [|c a IH]; simpl; [done|]. by rewrite IH, andb_assoc.
Qed.

Lemma matches_star_chr class s :
  matches (star (chr class)) s <-> Chars.allChars class s = true.
Proof.
  split.
  - intros H. remember (star (chr class)) as r eqn:Hr.
    induction H as [| | | | | |r' s1 s2 H1 _ H2 IH2]; try discriminate; [done|].
    injection Hr as ->. specialize (IH2 eq_refl).
    inversion H1 as [|? c Hc| | | | |]; subst. append_step.
    simpl. by rewrite Hc, IH2.
  - induction s as [|c s IH]; simpl; [constructor|].
    intros [Hc Hs]%andb_true_iff.
    change (String c s) with (String c EmptyString ++ s)%string.
    constructor; [by constructor | auto].
Qed.

Lemma matches_plus_chr class s :
  matches (plus (chr class)) s <-> Shapes.run class s.
Proof.
  unfold plus, Shapes.run. rewrite matches_seq_inv. split.
  - intros (s1 & s2 & -> & H1 & H2). inversion H1 as [|? c Hc| | | | |]; subst.
    apply matches_star_chr in H2. append_step. simpl. by rewrite Hc, H2.
  - intros [Hne Hall]. destruct s as [|c s]; [done|].
    simpl in Hall. apply andb_true_iff in Hall as [Hc Hs].
    exists (String c EmptyString), s.
    repeat split; [by constructor | by apply matches_star_chr].
Qed.

(** A string with a match somewhere inside is what [search] accepts. *)
Lemma search_matches r s :
  search r s = true <->
  exists before found after,
    s = (before ++ found ++ after)%string /\ matches r found.
Proof.
  unfold search. rewrite test_matches, matches_seq_inv. split.
  - intros (before & rest & -> & _ & Hrest).
    apply matches_seq_inv in Hrest as (found & after & -> & Hfound & _).
    by exists before, found, after.
  - intros (before & found & after & -> & Hfound).
    exists before, (found ++ after)%string. repeat split.
    + apply matches_star_chr. clear. by induction before.
    + apply matches_seq_inv. exists found, after. repeat split; [done|].
      apply matches_star_chr. clear. by induction after.
Qed.
End RegexCorrectness.

(** * E-mail addresses, identifiers and sanitized input *)

Section ShapeProperties.
Import Regex RegexLanguage Shapes Validation.

Lemma isValidEmail_emailShape_iff s : isValidEmail s = true <-> emailShape s.
Proof.
  unfold isValidEmail, emailRegex, emailShape. rewrite test_matches.
  split.
  - intros H.
    apply matches_seq_inv in H as (local & r1 & -> & Hlocal & H).
    apply matches_seq_inv in H as (at_ & r2 & -> & Hat & H).
    apply matches_seq_inv in H as (domain & r3 & -> & Hdomain & H).
    apply matches_seq_inv in H as (dot & tld & -> & Hdot & Htld).
    apply matches_lit in Hat as ->. apply matches_lit in Hdot as ->.
    exists local, domain, tld.
    split; [done|]. split; [by apply matches_plus_chr|].
    split; by apply matches_plus_chr.
  - intros (local & domain & tld & -> & Hlocal & Hdomain & Htld).
    apply matches_seq_inv. exists local, ("@" ++ domain ++ "." ++ tld)%string.
    repeat split; [by apply matches_plus_chr|].
    apply matches_seq_inv. exists "@"%string, (domain ++ "." ++ tld)%string.
    repeat split; [by apply matches_lit|].
    apply matches_seq_inv. exists domain, ("." ++ tld)%string.
    repeat split; [by apply matches_plus_chr|].
    apply matches_seq_inv. exists "."%string, tld.
    repeat split; [by apply matches_lit | by apply matches_plus_chr].
Qed.

Lemma isValidDID_didShape_iff s : isValidDID s = true <-> didShape s.
Proof.
  unfold isValidDID, didRegex, didShape. rewrite test_matches.
  split.
  - intros H.
    apply matches_seq_inv in H as (prefix & r1 & -> & Hprefix & H).
    apply matches_seq_inv in H as (method & r2 & -> & Hmethod & H).
    apply matches_seq_inv in H as (colon & value & -> & Hcolon & Hvalue).
    apply matches_word in Hprefix as ->. apply matches_lit in Hcolon as ->.
    exists method, value. split; [done|]. split.
    + by apply (matches_plus_chr didMethodChar).
    + by apply (matches_plus_chr didValueChar).
  - intros (method & value & -> & Hmethod & Hvalue).
    apply matches_seq_inv. exists "did:"%string, (method ++ ":" ++ value)%string.
    repeat split; [by apply matches_word|].
    apply matches_seq_inv. exists method, (":" ++ value)%string.
    repeat split; [by apply (matches_plus_chr didMethodChar)|].
    apply matches_seq_inv. exists ":"%string, value.
    repeat split; [by apply matches_lit | by apply (matches_plus_chr didValueChar)].
Qed.

(** X14.  [isValidEmail] accepts exactly the strings of the shape
    [local@domain.tld] in which no part is empty and no part has white space
    or an [@]. *)
Theorem isValidEmail_shape (s : string) : isValidEmail s = true <-> emailShape s.
Proof. apply isValidEmail_emailShape_iff. Qed.

(** X15.  [isValidDID] accepts exactly the strings [did:method:value] with
    a non-empty method of lower-case letters and digits and a non-empty
    value of letters, digits, dots, underscores and hyphens. *)
Theorem isValidDID_shape (s : string) : isValidDID s = true <-> didShape s.
Proof. apply isValidDID_didShape_iff. Qed.

Lemma hasChar_app c a b :
  Chars.hasChar c (a ++ b) = Chars.hasChar c a || Chars.hasChar c b.
Proof.
  induction a as [|d a IH]; [done|]. append_step. simpl.
  by rewrite IH, orb_assoc.
Qed.

Lemma allChars_hasChar class c s :
  class c = false -> Chars.allChars class s = true -> Chars.hasChar c s = false.
Proof.
  intros Hc. induction s as [|d s IH]; simpl; [done|].
  intros [Hd Hs]%andb_true_iff. rewrite (IH Hs), orb_false_r.
  apply Ascii.eqb_neq. intros ->. congruence.
Qed.

Lemma emailShape_at s : emailShape s -> Chars.hasChar "@" s = true.
Proof.
  intros (local & domain & tld & -> & _). rewrite !hasChar_app. simpl.
  apply orb_true_r.
Qed.

Lemma didShape_no_at s : didShape s -> Chars.hasChar "@" s = false.
Proof.
  intros (method & value & -> & [_ Hmethod] & [_ Hvalue]).
  rewrite !hasChar_app.
  rewrite (allChars_hasChar didMethodChar "@" method), (allChars_hasChar didValueChar "@" value);
    done.
Qed.

(** X16.  No string is both a valid e-mail address and a valid DID, so
    [isValidEmailOrDID] accepts a string on exactly one of the two grounds:
    an e-mail address has an [@], which a DID cannot have. *)
Theorem isValidEmail_isValidDID_exclusive (s : string) :
  isValidEmail s && isValidDID s = false
  /\ isValidEmailOrDID s = xorb (isValidEmail s) (isValidDID s).
Proof.
  assert (isValidEmail s && isValidDID s = false) as H.
  { destruct (isValidEmail s) eqn:He; [|done].
    destruct (isValidDID s) eqn:Hd; [|done].
    apply isValidEmail_emailShape_iff, emailShape_at in He.
    apply isValidDID_didShape_iff, didShape_no_at in Hd. congruence. }
  split; [exact H|]. unfold isValidEmailOrDID.
  destruct (isValidEmail s), (isValidDID s); done.
Qed.
End ShapeProperties.

Section SanitizeProperties.
Import Regex RegexLanguage Sanitize.

Lemma replaceChar_removes c by_ s :
  Chars.hasChar c by_ = false -> Chars.hasChar c (replaceChar c by_ s) = false.
Proof.
  intros Hby. induction s as [|d s IH]; simpl; [done|].
  destruct (Ascii.eqb d c) eqn:E.
  - by rewrite hasChar_app, Hby, IH.
  - simpl. by rewrite E, IH.
Qed.

Lemma replaceChar_absent c by_ d s :
  Chars.hasChar d by_ = false -> Chars.hasChar d s = false ->
  Chars.hasChar d (replaceChar c by_ s) = false.
Proof.
  intros Hby. induction s as [|e s IH]; simpl; [done|].
  intros [He Hs]%orb_false_iff. destruct (Ascii.eqb e c).
  - by rewrite hasChar_app, Hby, IH.
  - simpl. by rewrite He, IH.
Qed.

Lemma replaceChar_id c by_ s :
  Chars.hasChar c s = false -> replaceChar c by_ s = s.
Proof.
  induction s as [|d s IH]; simpl; [done|].
  intros [Hd Hs]%orb_false_iff. by rewrite Hd, IH.
Qed.

Lemma sanitizeInput_clean input :
  Forall (fun c => Chars.hasChar c (sanitizeInput input) = false) dangerousChars.
Proof.
  unfold sanitizeInput, dangerousChars.
  repeat constructor;
    repeat first [ apply replaceChar_removes; reflexivity
                 | apply replaceChar_absent; [reflexivity|] ].
Qed.

Lemma sanitizeInput_id input :
  Forall (fun c => Chars.hasChar c input = false) dangerousChars ->
  sanitizeInput input = input.
Proof.
  unfold dangerousChars. intros H.
  inversion H as [|? ? H1 H']; subst. inversion H' as [|? ? H2 H'']; subst.
  inversion H'' as [|? ? H3 H3']; subst. inversion H3' as [|? ? H4 H4']; subst.
  inversion H4' as [|? ? H5 _]; subst.
  unfold sanitizeInput.
  by rewrite (replaceChar_id _ _ _ H1), (replaceChar_id _ _ _ H2),
    (replaceChar_id _ _ _ H3), (replaceChar_id _ _ _ H4), (replaceChar_id _ _ _ H5).
Qed.

(** X17.  The result of [sanitizeInput] contains none of the characters
    [<], [>], the double quote, the single quote and [/]; sanitizing a
    sanitized string changes nothing. *)
Theorem sanitizeInput_safe_idempotent (input : string) :
  Forall (fun c => Chars.hasChar c (sanitizeInput input) = false) dangerousChars
  /\ sanitizeInput (sanitizeInput input) = sanitizeInput input.
Proof.
  split; [apply sanitizeInput_clean|]. apply sanitizeInput_id, sanitizeInput_clean.
Qed.

Lemma search_scriptTag_hasChar s :
  search scriptTag s = true -> Chars.hasChar "<" s = true.
Proof.
  intros (before & found & after & -> & Hfound)%search_matches.
  apply matches_seq_inv in Hfound as (lt & rest & -> & Hlt & _).
  apply matches_lit in Hlt as ->.
  rewrite !hasChar_app. simpl. apply orb_true_r.
Qed.

(** X18.  The value [validateAndSanitizeSearchQuery] returns contains no
    [<], so the pattern [/<script/i] never matches it: on a sanitized
    query, "invalid characters" is reported only for [javascript:] and for
    [on...=]. *)
Theorem sanitized_query_no_script (query : string) :
  search scriptTag (validateAndSanitizeSearchQuery query).1 = false
  /\ ((validateAndSanitizeSearchQuery query).2 !! "query"
      = Some "Search query contains invalid characters" <->
      search javascriptUrl (validateAndSanitizeSearchQuery query).1
      || search eventHandler (validateAndSanitizeSearchQuery query).1 = true).
Proof.
  unfold validateAndSanitizeSearchQuery. cbn [fst snd].
  set (value := sanitizeInput (JsString.trim query)).
  assert (search scriptTag value = false) as Hscript.
  { destruct (search scriptTag value) eqn:E; [|done].
    apply search_scriptTag_hasChar in E.
    pose proof (sanitizeInput_clean (JsString.trim query)) as Hclean.
    inversion Hclean as [|? ? H1 _]; subst. fold value in H1. congruence. }
  split; [exact Hscript|].
  unfold validateSearchQuery, dangerousPatterns. cbn [existsb].
  rewrite Hscript, orb_false_l, orb_false_r.
  destruct (search javascriptUrl value || search eventHandler value);
    unfold Validation.setIf at 1.
  - by rewrite lookup_insert_eq.
  - split; [|done].
    destruct (negb (Validation.isEmpty value) && (100 <? JsString.length value)%Z);
      simpl; [rewrite lookup_insert_eq | rewrite lookup_empty]; intros [=].
Qed.
End SanitizeProperties.

(** * What the validators report *)

Section ValidatorReports.
Context {rt : Runtime}.
Import Validation.

Lemma setIf_empty cond field message (errors : gmap string string) :
  bool_decide (setIf cond field message errors = ∅)
  = negb cond && bool_decide (errors = ∅).
Proof.
  unfold setIf. destruct cond; simpl; [|done].
  apply bool_decide_eq_false, insert_non_empty.
Qed.

Lemma test_plus_chr class s :
  Regex.test (Regex.plus (Regex.chr class)) s
  = negb (isEmpty s) && Chars.allChars class s.
Proof.
  apply eq_true_iff_eq. rewrite test_matches, matches_plus_chr.
  unfold Shapes.run. rewrite andb_true_iff, negb_true_iff.
  split; intros [H1 H2]; split; try done; by destruct s.
Qed.

Lemma not_blank_trimmed s :
  isBlank s = false ->
  JsString.trim s <> EmptyString /\ (JsString.length (JsString.trim s) <? 1)%Z = false.
Proof.
  unfold isBlank. intros [_ H]%orb_false_iff. apply Z.eqb_neq in H.
  unfold JsString.length in *. split.
  - intros Heq. by rewrite Heq in H.
  - apply Z.ltb_ge. lia.
Qed.

Lemma validateSpaceName_lookup name :
  validateSpaceName name !! "name"
  = if isBlank name then Some "Space name is required"
    else if listIncludes SPACE_NAME_RULES.reservedNames (toLowerCase (JsString.trim name))
    then Some "This space name is reserved and cannot be used"
    else if negb (Chars.allChars Shapes.nameChar (JsString.trim name))
    then Some "Space name can only contain letters, numbers, spaces, hyphens, underscores, and dots"
    else if (100 <? JsString.length (JsString.trim name))%Z
    then Some "Space name must be no more than 100 characters long"
    else None.
Proof.
  unfold validateSpaceName. destruct (isBlank name) eqn:Hblank.
  - apply lookup_insert_eq.
  - destruct (not_blank_trimmed name Hblank) as [Hne Hmin].
    rewrite !setIf_lookup_eq.
    change SPACE_NAME_RULES.pattern with (Regex.plus (Regex.chr Shapes.nameChar)).
    rewrite test_plus_chr.
    change SPACE_NAME_RULES.minLength with 1%Z.
    change SPACE_NAME_RULES.maxLength with 100%Z. rewrite Hmin.
    assert (isEmpty (JsString.trim name) = false) as -> by (by destruct (JsString.trim name)).
    cbn [negb andb].
    destruct (listIncludes SPACE_NAME_RULES.reservedNames (toLowerCase (JsString.trim name)));
      [done|].
    destruct (Chars.allChars Shapes.nameChar (JsString.trim name)); [|done].
    cbn [negb]. by destruct (100 <? JsString.length (JsString.trim name))%Z.
Qed.

Lemma validateSpaceName_dom name :
  dom (validateSpaceName name) ⊆ ({["name"]} : gset string).
Proof.
  unfold validateSpaceName. destruct (isBlank name).
  - rewrite dom_insert_L, dom_empty_L. set_solver.
  - assert (forall cond message (errors : gmap string string),
              dom errors ⊆ ({["name"]} : gset string) ->
              dom (setIf cond "name" message errors) ⊆ ({["name"]} : gset string)) as Hstep.
    { intros cond message errors Hdom. unfold setIf. destruct cond; [|done].
      rewrite dom_insert_L. apply union_least; [done | exact Hdom]. }
    repeat apply Hstep. by rewrite dom_empty_L.
Qed.

(** X19.  [validateSpaceName] reports one message, under the key [name].
    When several rules are broken the later check wins: a reserved name is
    reported before a forbidden character, and a forbidden character before
    an excessive length; the minimum-length message is never reported, as a
    name that is not blank has a character left after trimming. *)
Theorem validateSpaceName_report (name : string) :
  validateSpaceName name !! "name"
  = (if isBlank name then Some "Space name is required"
     else if listIncludes SPACE_NAME_RULES.reservedNames (toLowerCase (JsString.trim name))
     then Some "This space name is reserved and cannot be used"
     else if negb (Chars.allChars Shapes.nameChar (JsString.trim name))
     then Some "Space name can only contain letters, numbers, spaces, hyphens, underscores, and dots"
     else if (100 <? JsString.length (JsString.trim name))%Z
     then Some "Space name must be no more than 100 characters long"
     else None)
  /\ dom (validateSpaceName name) ⊆ ({["name"]} : gset string).
Proof. split; [apply validateSpaceName_lookup | apply validateSpaceName_dom]. Qed.

(** X20.  [validateSpaceCreatorForm] reports under [name] what
    [validateSpaceName] reports for the name of the form, and it accepts the
    form exactly when the name is accepted, the access type is [public] or
    [private], the template is not blank and the description, if any, has
    at most 500 code units. *)
Theorem validateSpaceCreatorForm_report (formData : SpaceCreatorFormData) :
  validateSpaceCreatorForm formData !! "name"
  = validateSpaceName (creatorName formData) !! "name"
  /\ bool_decide (validateSpaceCreatorForm formData = ∅)
     = bool_decide (validateSpaceName (creatorName formData) = ∅)
       && listIncludes ["public"; "private"] (creatorAccessType formData)
       && negb (isBlank (creatorTemplate formData))
       && match creatorDescription formData with
          | Some d => (JsString.length d <=? 500)%Z
          | None => true
          end.
Proof.
  unfold validateSpaceCreatorForm. rewrite (right_id_L ∅ (∪)). split.
  - by rewrite !setIf_lookup_ne.
  - rewrite !setIf_empty.
    assert (negb (isEmpty (creatorAccessType formData)
                  || negb (listIncludes ["public"; "private"] (creatorAccessType formData)))
            = listIncludes ["public"; "private"] (creatorAccessType formData)) as ->.
    { destruct (creatorAccessType formData); [done|].
      cbn [isEmpty orb]. apply negb_involutive. }
    assert (negb match creatorDescription formData with
                 | Some d => negb (isEmpty d) && (500 <? JsString.length d)%Z
                 | None => false
                 end
            = match creatorDescription formData with
              | Some d => (JsString.length d <=? 500)%Z
              | None => true
              end) as ->.
    { destruct (creatorDescription formData) as [d|]; [|done].
      destruct d as [|c d]; [done|]. cbn [isEmpty negb andb].
      rewrite Z.leb_antisym. done. }
    set (a := bool_decide (validateSpaceName (creatorName formData) = ∅)).
    destruct a, (listIncludes ["public"; "private"] (creatorAccessType formData)),
      (isBlank (creatorTemplate formData)),
      (match creatorDescription formData with
       | Some d => (JsString.length d <=? 500)%Z
       | None => true
       end); done.
Qed.

Lemma bool_decide_insert_empty field message (errors : gmap string string) :
  bool_decide (<[field := message]> errors = ∅) = false.
Proof. apply bool_decide_eq_false_2, insert_non_empty. Qed.

Lemma bool_decide_empty_empty :
  bool_decide ((∅ : gmap string string) = ∅) = true.
Proof. by apply bool_decide_eq_true_2. Qed.

(** Nothing is filtered out for [p] exactly when [q], its negation, holds
    throughout. *)
Lemma filter_none {A} (p q : A -> bool) (l : list A) :
  (forall x, q x = negb (p x)) ->
  negb (0 <? Z.of_nat (List.length (List.filter p l)))%Z = forallb q l.
Proof.
  intros Hq. induction l as [|x l IH]; [done|]. cbn [List.filter forallb].
  rewrite Hq. destruct (p x); [|exact IH]. cbn [negb andb List.length].
  apply negb_false_iff, Z.ltb_lt. lia.
Qed.

Lemma blank_trim s : isBlank s = true -> JsString.trim s = EmptyString.
Proof.
  unfold isBlank. intros [H|H]%orb_true_iff.
  - by destruct s.
  - apply Z.eqb_eq in H. unfold JsString.length in H.
    by destruct (JsString.trim s).
Qed.

(** X21.  [validateFileUpload] reports one message, under the key [files];
    when several limits are broken the later check wins: the total size
    before an oversized file, an oversized file before the number of
    files.  It accepts a list of files exactly when the list is not empty,
    has at most 100 files, none above 100 MiB, and at most 1 GiB in
    total. *)
Theorem validateFileUpload_report (files : list File) :
  let oversizedFiles :=
    List.filter (fun f => (100 * 1024 * 1024 <? fileSize f)%Z) files in
  let totalSize := fold_left (fun sum f => (sum + fileSize f)%Z) files 0%Z in
  validateFileUpload files !! "files"
  = match files with
    | [] => Some "No files selected"
    | _ :: _ =>
        if (1024 * 1024 * 1024 <? totalSize)%Z
        then Some ("Total upload size too large: " ++ formatFileSize totalSize
                   ++ ". Maximum total size is "
                   ++ formatFileSize (1024 * 1024 * 1024))%string
        else if (0 <? Z.of_nat (List.length oversizedFiles))%Z
        then Some ("Files too large: "
                   ++ JsString.join ", " (List.map fileName oversizedFiles)
                   ++ ". Maximum size is " ++ formatFileSize (100 * 1024 * 1024))%string
        else if (100 <? Z.of_nat (List.length files))%Z
        then Some "Cannot upload more than 100 files at once"
        else None
    end
  /\ bool_decide (validateFileUpload files = ∅)
     = match files with [] => false | _ :: _ => true end
       && (Z.of_nat (List.length files) <=? 100)%Z
       && forallb (fun f => (fileSize f <=? 100 * 1024 * 1024)%Z) files
       && (totalSize <=? 1024 * 1024 * 1024)%Z.
Proof.
  intros oversizedFiles totalSize. unfold validateFileUpload.
  destruct files as [|f files].
  { split; [apply lookup_insert_eq | apply bool_decide_insert_empty]. }
  fold oversizedFiles. fold totalSize. split.
  - rewrite !setIf_lookup_eq.
    destruct (1024 * 1024 * 1024 <? totalSize)%Z; [done|].
    destruct (0 <? Z.of_nat (List.length oversizedFiles))%Z; [done|].
    by destruct (100 <? Z.of_nat (List.length (f :: files)))%Z.
  - rewrite !setIf_empty, bool_decide_empty_empty. unfold oversizedFiles.
    rewrite (filter_none _ (fun f => (fileSize f <=? 100 * 1024 * 1024)%Z))
      by (intros x; apply Z.leb_antisym).
    rewrite !Z.leb_antisym.
    destruct (1024 * 1024 * 1024 <? totalSize)%Z,
      (forallb (fun f => (fileSize f <=? 100 * 1024 * 1024)%Z) (f :: files)),
      (100 <? Z.of_nat (List.length (f :: files)))%Z; done.
Qed.

(** X22.  [validatePermissionForm] accepts a form exactly when the trimmed
    grantee is an e-mail address or a DID of at most 255 code units, there
    is at least one capability and every capability is a known one, and the
    expiration, if any, is an invalid date, or is after the first reading
    of the clock and not after one year from the second.  Its [expiration]
    entry, which does not depend on the other fields, is absent without an
    expiration and with an invalid date; otherwise "more than 1 year" wins
    over "in the future". *)
Theorem validatePermissionForm_report (clock : Clock) (formData : PermissionFormData) :
  bool_decide (validatePermissionForm clock formData = ∅)
  = isValidEmailOrDID (JsString.trim (grantee formData))
    && (JsString.length (JsString.trim (grantee formData)) <=? 255)%Z
    && match capabilities formData with [] => false | _ :: _ => true end
    && forallb (listIncludes CAPABILITY_RULES.validCapabilities) (capabilities formData)
    && match expiration formData with
       | None => true
       | Some invalidDate => true
       | Some (validDate e) => (clock 0%nat <? e)%Z && (e <=? addOneYear (clock 1%nat))%Z
       end
  /\ validatePermissionForm clock formData !! "expiration"
     = match expiration formData with
       | None => None
       | Some invalidDate => None
       | Some (validDate e) =>
           if (addOneYear (clock 1%nat) <? e)%Z
           then Some "Expiration date cannot be more than 1 year in the future"
           else if (e <=? clock 0%nat)%Z
           then Some "Expiration date must be in the future"
           else None
       end.
Proof.
  split.
  - unfold validatePermissionForm. cbv zeta.
    assert (bool_decide
              ((if isBlank (grantee formData)
                then <["grantee" := "Grantee is required"]> (∅ : gmap string string)
                else
                  setIf (negb (isValidEmailOrDID (JsString.trim (grantee formData))))
                    "grantee" "Grantee must be a valid email address or DID"
                    (setIf (PERMISSION_GRANTEE_RULES.maxLength
                            <? JsString.length (JsString.trim (grantee formData)))%Z
                       "grantee" "Grantee must be no more than 255 characters long"
                       (setIf (JsString.length (JsString.trim (grantee formData))
                               <? PERMISSION_GRANTEE_RULES.minLength)%Z
                          "grantee" "Grantee must be at least 1 character long" ∅)))
               = ∅)
            = isValidEmailOrDID (JsString.trim (grantee formData))
              && (JsString.length (JsString.trim (grantee formData)) <=? 255)%Z)
      as Hgrantee.
    { destruct (isBlank (grantee formData)) eqn:Hblank.
      - rewrite bool_decide_insert_empty, (blank_trim _ Hblank). done.
      - destruct (not_blank_trimmed _ Hblank) as [_ Hmin].
        rewrite !setIf_empty, bool_decide_empty_empty.
        change PERMISSION_GRANTEE_RULES.minLength with 1%Z.
        change PERMISSION_GRANTEE_RULES.maxLength with 255%Z.
        rewrite Hmin, Z.leb_antisym, negb_involutive. cbn [negb].
        by rewrite !andb_true_r. }
    destruct (expiration formData) as [[e|]|];
      destruct (capabilities formData) as [|c caps];
      rewrite ?setIf_empty, ?bool_decide_insert_empty, ?Hgrantee;
      rewrite ?(filter_none _ (listIncludes CAPABILITY_RULES.validCapabilities))
        by (intros x; symmetry; apply negb_involutive);
      cbn [dateLe dateGt];
      rewrite ?Z.ltb_antisym, ?Z.leb_antisym;
      cbn [forallb negb andb]; rewrite ?andb_false_r, ?andb_true_r; try done.
    + destruct (isValidEmailOrDID (JsString.trim (grantee formData))),
        (255 <? JsString.length (JsString.trim (grantee formData)))%Z,
        (listIncludes CAPABILITY_RULES.validCapabilities c
         && forallb (listIncludes CAPABILITY_RULES.validCapabilities) caps),
        (addOneYear (clock 1%nat) <? e)%Z, (clock 0%nat <? e)%Z; done.
    + destruct (isValidEmailOrDID (JsString.trim (grantee formData))),
        (255 <? JsString.length (JsString.trim (grantee formData)))%Z,
        (listIncludes CAPABILITY_RULES.validCapabilities c
         && forallb (listIncludes CAPABILITY_RULES.validCapabilities) caps); done.
    + destruct (isValidEmailOrDID (JsString.trim (grantee formData))),
        (255 <? JsString.length (JsString.trim (grantee formData)))%Z,
        (listIncludes CAPABILITY_RULES.validCapabilities c
         && forallb (listIncludes CAPABILITY_RULES.validCapabilities) caps); done.
  - unfold validatePermissionForm. cbv zeta.
    assert (forall cond message (errors : gmap string string),
               errors !! "expiration" = None ->
               (match capabilities formData with
                | [] => <["capabilities" := "At least one capability must be selected"]> errors
                | _ :: _ => setIf cond "capabilities" message errors
                end) !! "expiration" = None) as Hcapabilities.
    { intros cond message errors H. destruct (capabilities formData);
        [by rewrite lookup_insert_ne | by rewrite setIf_lookup_ne]. }
    assert ((if isBlank (grantee formData)
             then <["grantee" := "Grantee is required"]> (∅ : gmap string string)
             else
               setIf (negb (isValidEmailOrDID (JsString.trim (grantee formData))))
                 "grantee" "Grantee must be a valid email address or DID"
                 (setIf (PERMISSION_GRANTEE_RULES.maxLength
                         <? JsString.length (JsString.trim (grantee formData)))%Z
                    "grantee" "Grantee must be no more than 255 characters long"
                    (setIf (JsString.length (JsString.trim (grantee formData))
                            <? PERMISSION_GRANTEE_RULES.minLength)%Z
                       "grantee" "Grantee must be at least 1 character long" ∅)))
            !! "expiration" = None) as Hgrantee.
    { destruct (isBlank (grantee formData));
        [by rewrite lookup_insert_ne | by rewrite !setIf_lookup_ne]. }
    destruct (expiration formData) as [[e|]|].
    + rewrite !setIf_lookup_eq. cbn [dateLe dateGt].
      destruct (addOneYear (clock 1%nat) <? e)%Z; [done|].
      destruct (e <=? clock 0%nat)%Z; [done|].
      by apply Hcapabilities.
    + rewrite !setIf_lookup_eq. cbn [dateLe dateGt]. by apply Hcapabilities.
    + by apply Hcapabilities.
Qed.
End ValidatorReports.

(** * The selection over a fixed list *)

Section SelectionCounts.
Import Selection Listed.

Lemma isSpaceSelected_dids selected space :
  isSpaceSelected selected space = true <-> In (did space) (dids selected).
Proof.
  unfold isSpaceSelected, dids. rewrite existsb_exists, in_map_iff.
  split; intros (s & H1 & H2); exists s.
  - split; [by apply String.eqb_eq | done].
  - split; [done | by apply String.eqb_eq].
Qed.

Lemma dids_filter_incl f spaces : incl (dids (List.filter f spaces)) (dids spaces).
Proof.
  intros d (s & <- & [Hin _]%filter_In)%in_map_iff. by apply in_map.
Qed.

Lemma dids_filter_NoDup f spaces :
  List.NoDup (dids spaces) -> List.NoDup (dids (List.filter f spaces)).
Proof.
  induction spaces as [|s spaces IH]; simpl; [done|].
  intros [Hnotin Hnd]%List.NoDup_cons_iff. destruct (f s); simpl.
  - apply List.NoDup_cons_iff. split; [|by apply IH].
    intros Hin. apply Hnotin. by apply (dids_filter_incl f).
  - by apply IH.
Qed.

Lemma selectSpace_onList spaces space prev :
  In (did space) (dids spaces) ->
  onList spaces prev -> onList spaces (selectSpace space prev).
Proof.
  intros Hin [Hnd Hincl]. unfold selectSpace.
  destruct (existsb (fun s => sameDid s space) prev) eqn:E.
  - split; [by apply dids_filter_NoDup|].
    intros d Hd. apply Hincl. eapply dids_filter_incl. exact Hd.
  - assert (~ In (did space) (dids prev)) as Hnew.
    { intros H%isSpaceSelected_dids. unfold isSpaceSelected in H. congruence. }
    unfold onList, dids in *. rewrite List.map_app. simpl. split.
    + apply List.NoDup_app; [done | repeat constructor; by intros [] |].
      intros d Hd [<-|[]]. done.
    + intros d [Hd|[<-|[]]]%in_app_iff; [by apply Hincl | done].
Qed.

Lemma step_onList allowMultiSelect spaces p op :
  List.NoDup (dids spaces) ->
  listed spaces op ->
  onList spaces (selectedSpaces p) ->
  onList spaces (selectedSpaces (step allowMultiSelect spaces p op)).
Proof.
  intros Hspaces Hop Hp. destruct op as [s|s| |]; simpl in *.
  - unfold handleSpaceSelect. destruct allowMultiSelect; simpl; [|done].
    by apply selectSpace_onList.
  - by apply selectSpace_onList.
  - split; [done | by intros d].
  - split; [constructor | by intros d].
Qed.

Lemma run_onList allowMultiSelect spaces ops p :
  List.NoDup (dids spaces) ->
  Forall (listed spaces) ops ->
  onList spaces (selectedSpaces p) ->
  onList spaces
    (selectedSpaces (fold_left (step allowMultiSelect spaces) ops p)).
Proof.
  intros Hspaces Hops. revert p.
  induction Hops as [|op ops Hop _ IH]; intros p Hp; simpl; [done|].
  apply IH. by apply step_onList.
Qed.

Lemma onList_length spaces selected :
  onList spaces selected -> (List.length selected <= List.length spaces)%nat.
Proof.
  intros [Hnd Hincl]. unfold dids in *.
  rewrite <- (List.length_map did selected), <- (List.length_map did spaces).
  by apply List.NoDup_incl_length.
Qed.

(** Counting is deciding: as many selected as listed means every listed
    space is selected. *)
Lemma onList_all spaces selected :
  List.NoDup (dids spaces) ->
  onList spaces selected ->
  (List.length selected =? List.length spaces)%nat
  = forallb (isSpaceSelected selected) spaces.
Proof.
  intros Hspaces Hsel. pose proof (onList_length _ _ Hsel) as Hle.
  destruct Hsel as [Hnd Hincl].
  apply eq_true_iff_eq. rewrite Nat.eqb_eq, forallb_forall. split.
  - intros Hlen s Hs. apply isSpaceSelected_dids.
    refine (List.NoDup_length_incl (l' := dids spaces) Hnd _ Hincl _ _).
    + unfold dids. rewrite !List.length_map. lia.
    + unfold dids. by apply in_map.
  - intros Hall.
    assert (incl (dids spaces) (dids selected)) as Hback.
    { intros d (s & <- & Hs)%in_map_iff. apply isSpaceSelected_dids. by apply Hall. }
    pose proof (List.NoDup_incl_length Hspaces Hback) as Hge.
    unfold dids in Hge. rewrite !List.length_map in Hge. lia.
Qed.

Lemma onList_some spaces selected :
  onList spaces selected ->
  (0 <? List.length selected)%nat = existsb (isSpaceSelected selected) spaces.
Proof.
  intros [_ Hincl]. apply eq_true_iff_eq. rewrite Nat.ltb_lt, existsb_exists. split.
  - destruct selected as [|x selected]; [simpl; lia|]. intros _.
    destruct (proj1 (in_map_iff did spaces (did x))) as (s & Hd & Hs).
    { apply Hincl. by left. }
    exists s. split; [exact Hs|]. apply isSpaceSelected_dids. rewrite Hd. by left.
  - intros (s & _ & H%isSpaceSelected_dids). destruct selected; [done | simpl; lia].
Qed.

(** X23.  While the list of spaces stays the same, has no identifier
    twice, and only spaces of the list are clicked or toggled, the
    selection has no identifier twice and holds only identifiers of the
    list, so the derived flags mean what they say: [allSelected] holds
    exactly when the list is not empty and every space of it is selected,
    [someSelected] exactly when some space of it is selected and some is
    not. *)
Theorem selection_flags_exact (allowMultiSelect : bool) (spaces : list Space)
    (ops : list Op) :
  List.NoDup (dids spaces) ->
  Forall (listed spaces) ops ->
  let selected := selectedSpaces (run allowMultiSelect spaces ops) in
  List.NoDup (dids selected)
  /\ incl (dids selected) (dids spaces)
  /\ allSelected spaces selected
     = (0 <? List.length spaces)%nat && forallb (isSpaceSelected selected) spaces
  /\ someSelected spaces selected
     = existsb (isSpaceSelected selected) spaces
       && negb (forallb (isSpaceSelected selected) spaces).
Proof.
  intros Hspaces Hops selected.
  assert (onList spaces selected) as Hsel.
  { apply run_onList; [done | done |]. split; [constructor | by intros d]. }
  split; [apply Hsel|]. split; [apply Hsel|].
  unfold allSelected, someSelected, selectedCount.
  rewrite <- (onList_all spaces selected Hspaces Hsel),
    <- (onList_some spaces selected Hsel).
  pose proof (onList_length _ _ Hsel) as Hle.
  split; [apply andb_comm|]. f_equal.
  destruct (Nat.eqb_spec (List.length selected) (List.length spaces)) as [Heq|Hne]; simpl.
  - apply Nat.ltb_ge. lia.
  - apply Nat.ltb_lt. lia.
Qed.
End SelectionCounts.

Lemma selection_flags_exact_witness :
  let spaces := [Examples.spaceA; Examples.spaceB] in
  let selected :=
    Selection.selectedSpaces
      (Selection.run true spaces
         [Selection.Toggle Examples.spaceA; Selection.SelectAll;
          Selection.Click Examples.spaceB]) in
  List.NoDup (Listed.dids selected)
  /\ incl (Listed.dids selected) (Listed.dids spaces)
  /\ Selection.allSelected spaces selected
     = (0 <? List.length spaces)%nat
       && forallb (Selection.isSpaceSelected selected) spaces
  /\ Selection.someSelected spaces selected
     = existsb (Selection.isSpaceSelected selected) spaces
       && negb (forallb (Selection.isSpaceSelected selected) spaces).
Proof.
  apply (selection_flags_exact true [Examples.spaceA; Examples.spaceB]
           [Selection.Toggle Examples.spaceA; Selection.SelectAll;
            Selection.Click Examples.spaceB]).
  - apply List.NoDup_cons; [simpl; intros [H|[]]; discriminate H|].
    apply List.NoDup_cons; [intros [] | apply List.NoDup_nil].
  - apply List.Forall_cons; [simpl; auto|].
    apply List.Forall_cons; [exact I|].
    apply List.Forall_cons; [simpl; auto | apply List.Forall_nil].
Defined.

(** * The hooks [useThrottle] and [useDebounce] *)

Section UseThrottleProperties.
Context {Args : Type}.
Implicit Types (c : Z * Args) (calls : list (Z * Args)).


End UseThrottleProperties.


Section UseDebounceProperties.
Context {T : Type}.
Import Timers UseDebounce.
Implicit Types (st : State T) (c : Z * T) (changes : list (Z * T)).






End UseDebounceProperties.


(** * Keyboard focus *)

Ltac focus_range :=
  unfold FocusManager.length, FocusManager.setCurrentIndex in *;
  cbn [FocusManager.focusableElements FocusManager.currentIndex] in *;
  lia.

Section FocusManagerProperties.
Import FocusManager.

Lemma focus_in_range i st :
  (0 <= i < length st)%Z ->
  focus i st
  = Some (mkState (focusableElements st) (currentIndex st) (focused st ++ [i])).
Proof.
  intros [H0 Hn]. unfold focus.
  apply Z.leb_le in H0. apply Z.ltb_lt in Hn. by rewrite H0, Hn.
Qed.

(** Focusing element [i] and recording it leaves a consistent state. *)
Lemma focused_consistent n i trace :
  (0 <= i < Z.of_nat n)%Z -> consistent (mkState n i (trace ++ [i])).
Proof. intros Hi. right. split; [exact Hi | apply last_snoc]. Qed.

Lemma rem_next i n :
  (0 < n)%Z -> (-1 <= i < n)%Z -> (0 <= Z.rem (i + 1) n < n)%Z.
Proof.
  intros Hn Hi. destruct (Z.eq_dec (i + 1)%Z n) as [Heq|Hne].
  - rewrite Heq, Z.rem_same by lia. lia.
  - rewrite Z.rem_small by lia. lia.
Qed.

Lemma step_consistent op st :
  consistent st -> exists st', step op st = Some st' /\ consistent st'.
Proof.
  intros Hst.
  assert (-1 <= currentIndex st < length st \/ length st = 0)%Z as Hrange.
  { destruct Hst as [->|[H _]]; unfold length in *; lia. }
  destruct op as [| | | |index|n]; cbn [step].
  - unfold focusFirst. destruct (Z.ltb_spec 0 (length st)) as [Hpos|Hzero].
    + rewrite focus_in_range by lia. eexists. split; [done|].
      apply focused_consistent. focus_range.
    + by exists st.
  - unfold focusLast. destruct (Z.ltb_spec 0 (length st)) as [Hpos|Hzero].
    + rewrite focus_in_range by lia. eexists. split; [done|].
      apply focused_consistent. focus_range.
    + by exists st.
  - unfold focusNext. destruct (Z.eqb_spec (length st) 0) as [Hzero|Hpos].
    + by exists st.
    + assert (0 <= Z.rem (currentIndex st + 1) (length st) < length st)%Z as Hi
        by (apply rem_next; unfold length in *; lia).
      rewrite focus_in_range by exact Hi. eexists. split; [done|].
      apply focused_consistent. focus_range.
  - unfold focusPrevious. destruct (Z.eqb_spec (length st) 0) as [Hzero|Hpos].
    + by exists st.
    + assert (0 <= (if (currentIndex st <=? 0)%Z then length st - 1
                    else currentIndex st - 1) < length st)%Z as Hi.
      { unfold length in *. destruct (Z.leb_spec (currentIndex st) 0); lia. }
      rewrite focus_in_range by exact Hi. eexists. split; [done|].
      apply focused_consistent. focus_range.
  - unfold focusByIndex.
    destruct ((0 <=? index)%Z && (index <? length st)%Z) eqn:E.
    + apply andb_true_iff in E as [H0%Z.leb_le Hn%Z.ltb_lt].
      rewrite focus_in_range by lia. eexists. split; [done|].
      apply focused_consistent. focus_range.
    + by exists st.
  - eexists. split; [done|]. by left.
Qed.

Lemma run_consistent ops st :
  consistent st -> exists st', run ops st = Some st' /\ consistent st'.
Proof.
  revert st. induction ops as [|op ops IH]; intros st Hst; cbn [run].
  - by exists st.
  - destruct (step_consistent op st Hst) as (st' & -> & Hst'). simpl.
    by apply IH.
Qed.

(** X26.  Whatever methods of a [FocusManager] are called, in whatever
    order and with whatever index, and however many focusable elements the
    container has at construction and at each [refresh], no call throws,
    and afterwards [getCurrentIndex ()] is [-1] or the index of an element,
    the one that was focused last. *)
Theorem focusManager_never_throws (n : nat) (ops : list Op) :
  exists st,
    run ops (create n) = Some st
    /\ (getCurrentIndex st = (-1)%Z
        \/ ((0 <= getCurrentIndex st < length st)%Z
            /\ last (focused st) = Some (getCurrentIndex st))).
Proof. apply run_consistent. by left. Qed.

Lemma focusNext_result st :
  (0 < length st)%Z ->
  (-1 <= currentIndex st < length st)%Z ->
  let next := Z.rem (currentIndex st + 1) (length st) in
  focusNext st = Some (mkState (focusableElements st) next (focused st ++ [next])).
Proof.
  intros Hpos Hi next. unfold focusNext.
  destruct (Z.eqb_spec (length st) 0) as [Hzero|_]; [lia|].
  apply focus_in_range. cbn [currentIndex setCurrentIndex].
  apply (rem_next _ _ Hpos Hi).
Qed.

Lemma focusPrevious_result st :
  (0 < length st)%Z ->
  (-1 <= currentIndex st < length st)%Z ->
  let previous :=
    (if (currentIndex st <=? 0)%Z then length st - 1 else currentIndex st - 1)%Z in
  focusPrevious st
  = Some (mkState (focusableElements st) previous (focused st ++ [previous])).
Proof.
  intros Hpos Hi previous. unfold focusPrevious.
  destruct (Z.eqb_spec (length st) 0) as [Hzero|_]; [lia|].
  apply focus_in_range. cbn [currentIndex setCurrentIndex]. fold previous.
  subst previous. destruct (Z.leb_spec (currentIndex st) 0); focus_range.
Qed.

(** X27.  Once an element has the focus, [focusNext] and [focusPrevious]
    undo each other: either order brings the focus back to the element it
    was on, wrapping around at both ends. *)
Theorem focusNext_focusPrevious_inverse (st : State) :
  (0 <= currentIndex st < length st)%Z ->
  currentIndex <$> (focusNext st ≫= focusPrevious) = Some (currentIndex st)
  /\ currentIndex <$> (focusPrevious st ≫= focusNext) = Some (currentIndex st).
Proof.
  intros Hi. destruct st as [n i trace]. unfold length in Hi.
  cbn [focusableElements currentIndex] in Hi.
  split.
  - rewrite focusNext_result by focus_range.
    cbn [mbind option_bind]. rewrite focusPrevious_result.
    + cbn [fmap option_fmap option_map currentIndex focusableElements length].
      f_equal. unfold length. cbn [focusableElements].
      destruct (Z.eq_dec (i + 1)%Z (Z.of_nat n)) as [Heq|Hne].
      * rewrite Heq, Z.rem_same by lia. simpl. lia.
      * rewrite Z.rem_small by lia. destruct (Z.leb_spec (i + 1) 0); lia.
    + focus_range.
    + unfold length. cbn [focusableElements currentIndex].
      assert (0 <= Z.rem (i + 1) (Z.of_nat n) < Z.of_nat n)%Z
        by (apply rem_next; lia).
      lia.
  - rewrite focusPrevious_result by focus_range.
    cbn [mbind option_bind]. rewrite focusNext_result.
    + cbn [fmap option_fmap option_map currentIndex focusableElements length].
      f_equal. unfold length. cbn [focusableElements].
      destruct (Z.leb_spec i 0).
      * replace (Z.of_nat n - 1 + 1)%Z with (Z.of_nat n) by lia.
        rewrite Z.rem_same by lia. lia.
      * replace (i - 1 + 1)%Z with i by lia. apply Z.rem_small. lia.
    + focus_range.
    + unfold length. cbn [focusableElements currentIndex].
      destruct (Z.leb_spec i 0); lia.
Qed.
End FocusManagerProperties.

Lemma focusNext_focusPrevious_inverse_witness :
  FocusManager.currentIndex
    <$> (FocusManager.focusNext (FocusManager.mkState 3 2 [2%Z])
         ≫= FocusManager.focusPrevious)
  = Some 2%Z
  /\ FocusManager.currentIndex
       <$> (FocusManager.focusPrevious (FocusManager.mkState 3 2 [2%Z])
            ≫= FocusManager.focusNext)
     = Some 2%Z.
Proof.
  apply (focusNext_focusPrevious_inverse (FocusManager.mkState 3 2 [2%Z])).
  unfold FocusManager.length. simpl. lia.
Defined.

Section ListNavigationProperties.
Import ListNavigation.

Lemma focusItem_in_range items i :
  (0 <= i < Z.of_nat items)%Z -> focusItem items i = Some i.
Proof.
  intros [H0 Hn]. unfold focusItem.
  apply Z.leb_le in H0. apply Z.ltb_lt in Hn. by rewrite H0, Hn.
Qed.

(** X28.  For an index of an item, [handleListNavigation] returns an index
    of an item, whatever the key: the arrow keys stop at the ends of the
    list instead of wrapping around.  The item it focuses, if any, is the
    one at the returned index; [onSelect], if called, is given the current
    index, which is then returned unchanged. *)
Theorem handleListNavigation_in_range (key : string) (items : nat) (currentIndex : Z) :
  (0 <= currentIndex < Z.of_nat items)%Z ->
  let result := handleListNavigation key items currentIndex in
  (0 <= newIndex result < Z.of_nat items)%Z
  /\ (focusedItem result = Some (newIndex result)
      \/ (focusedItem result = None /\ newIndex result = currentIndex))
  /\ (selected result = None
      \/ (selected result = Some currentIndex /\ newIndex result = currentIndex)).
Proof.
  intros Hi result. subst result. unfold handleListNavigation.
  destruct (String.eqb key KEYBOARD_NAVIGATION.ARROW_DOWN).
  { cbn [newIndex focusedItem selected].
    assert (0 <= Z.min (currentIndex + 1) (Z.of_nat items - 1) < Z.of_nat items)%Z
      as Hr by lia.
    rewrite (focusItem_in_range _ _ Hr). auto. }
  destruct (String.eqb key KEYBOARD_NAVIGATION.ARROW_UP).
  { cbn [newIndex focusedItem selected].
    assert (0 <= Z.max (currentIndex - 1) 0 < Z.of_nat items)%Z as Hr by lia.
    rewrite (focusItem_in_range _ _ Hr). auto. }
  destruct (String.eqb key KEYBOARD_NAVIGATION.HOME).
  { cbn [newIndex focusedItem selected].
    assert (0 <= 0 < Z.of_nat items)%Z as Hr by lia.
    rewrite (focusItem_in_range _ _ Hr). auto. }
  destruct (String.eqb key KEYBOARD_NAVIGATION.END).
  { cbn [newIndex focusedItem selected].
    assert (0 <= Z.of_nat items - 1 < Z.of_nat items)%Z as Hr by lia.
    rewrite (focusItem_in_range _ _ Hr). auto. }
  destruct (String.eqb key KEYBOARD_NAVIGATION.ENTER
            || String.eqb key KEYBOARD_NAVIGATION.SPACE);
    cbn [newIndex focusedItem selected]; auto.
Qed.
End ListNavigationProperties.

Lemma handleListNavigation_in_range_witness :
  let result := ListNavigation.handleListNavigation "ArrowDown" 3 2 in
  (0 <= ListNavigation.newIndex result < Z.of_nat 3)%Z
  /\ (ListNavigation.focusedItem result = Some (ListNavigation.newIndex result)
      \/ (ListNavigation.focusedItem result = None
          /\ ListNavigation.newIndex result = 2%Z))
  /\ (ListNavigation.selected result = None
      \/ (ListNavigation.selected result = Some 2%Z
          /\ ListNavigation.newIndex result = 2%Z)).
Proof.
  apply (handleListNavigation_in_range "ArrowDown" 3 2). simpl. lia.
Defined.

(** * [useFormValidation] *)

Section FormValidationProperties.
Context {Value : Type}.
Import FormValidation.
Implicit Types (validators : list (string * @Validator Value))
  (acc : bool * gmap string string).

(** The two loops agree when the errors collected so far differ from the
    state only in fields that are still to be validated. *)
Lemma validate_folds (formData : string -> Value) validators acc1 acc2 :
  List.NoDup (List.map fst validators) ->
  fst acc1 = fst acc2 ->
  (forall field, In field (List.map fst validators) -> snd acc1 !! field = None) ->
  (forall field, ~ In field (List.map fst validators) ->
                 snd acc1 !! field = snd acc2 !! field) ->
  fold_left
    (fun acc entry =>
       match Filter.truthy (snd entry (formData (fst entry))) with
       | Some error => (false, <[fst entry := error]> (snd acc))
       | None => acc
       end)
    validators acc1
  = fold_left
      (fun acc entry =>
         let result :=
           validateField (fst entry) (formData (fst entry)) (snd entry) (snd acc) in
         (fst acc && fst result, snd result))
      validators acc2.
Proof.
  revert acc1 acc2.
  induction validators as [|[field validator] validators IH];
    intros [ok1 errors1] [ok2 errors2] Hnd Hok Hpending Hdone; simpl in *.
  - subst ok2. f_equal. apply map_eq. intros field. apply Hdone. tauto.
  - apply List.NoDup_cons_iff in Hnd as [Hnew Hnd]. subst ok2.
    unfold validateField, setFieldError, clearFieldError.
    destruct (Filter.truthy (validator (formData field))) as [error|]; simpl;
      apply IH; simpl; try done.
    + by rewrite andb_false_r.
    + intros k Hk. rewrite lookup_insert_ne by (intros ->; done).
      apply Hpending. by right.
    + intros k Hk. destruct (decide (k = field)) as [->|Hne].
      * by rewrite !lookup_insert_eq.
      * rewrite !lookup_insert_ne by done. apply Hdone. intros [Heq|Hin]; done.
    + by rewrite andb_true_r.
    + intros k Hk. apply Hpending. by right.
    + intros k Hk. destruct (decide (k = field)) as [->|Hne].
      * rewrite lookup_delete_eq. apply Hpending. by left.
      * rewrite lookup_delete_ne by done. apply Hdone. intros [Heq|Hin]; done.
Qed.

Lemma validateForm_valid (formData : string -> Value) validators acc :
  fst acc = bool_decide (snd acc = ∅) ->
  let result :=
    fold_left
      (fun acc entry =>
         match Filter.truthy (snd entry (formData (fst entry))) with
         | Some error => (false, <[fst entry := error]> (snd acc))
         | None => acc
         end)
      validators acc in
  fst result = bool_decide (snd result = ∅).
Proof.
  revert acc. induction validators as [|[field validator] validators IH];
    intros acc Hacc; simpl; [done|].
  apply IH. destruct (Filter.truthy (validator (formData field))); [|done].
  simpl. symmetry. apply bool_decide_eq_false, insert_non_empty.
Qed.

(** X29.  [validateForm] leaves the state that calling [validateField] for
    every entry of [validators] in turn leaves, and returns [true] exactly
    when each of those calls returns [true], provided every field that has
    an error in the state before has a validator; and it returns [true]
    exactly when it leaves no error.  (The entries of an object have
    distinct keys.) *)
Theorem validateForm_fieldwise (formData : string -> Value)
    (validators : list (string * @Validator Value))
    (validationErrors : gmap string string) :
  List.NoDup (List.map fst validators) ->
  (forall field, validationErrors !! field <> None ->
                 In field (List.map fst validators)) ->
  validateForm formData validators
  = validateFields formData validators validationErrors
  /\ fst (validateForm formData validators)
     = bool_decide (snd (validateForm formData validators) = ∅).
Proof.
  intros Hnd Hstate. split.
  - unfold validateForm, validateFields. apply validate_folds; simpl; try done.
    intros field Hfield. rewrite lookup_empty. symmetry.
    destruct (validationErrors !! field) eqn:E; [|done].
    exfalso. apply Hfield, Hstate. by rewrite E.
  - unfold validateForm. by apply validateForm_valid.
Qed.
End FormValidationProperties.

Lemma validateForm_fieldwise_witness :
  FormValidation.validateForm FormExamples.formData FormExamples.validators
  = FormValidation.validateFields FormExamples.formData FormExamples.validators
      FormExamples.stale
  /\ fst (FormValidation.validateForm FormExamples.formData FormExamples.validators)
     = bool_decide
         (snd (FormValidation.validateForm FormExamples.formData FormExamples.validators)
          = ∅).
Proof.
  apply (validateForm_fieldwise FormExamples.formData FormExamples.validators
           FormExamples.stale).
  - apply List.NoDup_cons; [simpl; intros [H|[]]; discriminate H|].
    apply List.NoDup_cons; [intros [] | apply List.NoDup_nil].
  - intros field Hfield. unfold FormExamples.stale in Hfield. simpl.
    destruct (decide (field = "name")) as [->|Hname]; [by left|].
    destruct (decide (field = "email")) as [->|Hemail]; [by right; left|].
    by rewrite !lookup_insert_ne, lookup_empty in Hfield.
Defined.

(** * Sanitizing a space name does not change the verdict *)

Section TrimFacts.
Import JsString.

Lemma trimStart_head s :
  trimStart s = EmptyString
  \/ exists c rest, trimStart s = String c rest /\ isWhiteSpace c = false.
Proof.
  induction s as [|c s IH]; simpl; [by left|].
  destruct (isWhiteSpace c) eqn:E; [exact IH|]. right. by exists c, s.
Qed.

Lemma trimEnd_idempotent s : trimEnd (trimEnd s) = trimEnd s.
Proof.
  induction s as [|c s IH]; [done|]. cbn [trimEnd].
  destruct (trimEnd s) as [|d kept] eqn:E.
  - destruct (isWhiteSpace c) eqn:Ec; [done|]. cbn [trimEnd]. by rewrite Ec.
  - cbn [trimEnd]. cbn [trimEnd] in IH. by rewrite IH.
Qed.

Lemma trimEnd_head c rest :
  isWhiteSpace c = false ->
  exists kept, trimEnd (String c rest) = String c kept.
Proof.
  intros Hc. cbn [trimEnd]. destruct (trimEnd rest) as [|d kept].
  - rewrite Hc. by eexists.
  - by eexists.
Qed.

Lemma trim_idempotent s : trim (trim s) = trim s.
Proof.
  unfold trim. destruct (trimStart_head s) as [->|(c & rest & -> & Hc)]; [done|].
  destruct (trimEnd_head c rest Hc) as [kept Hkept].
  rewrite Hkept. cbn [trimStart]. rewrite Hc, <- Hkept. apply trimEnd_idempotent.
Qed.

Lemma hasChar_trimStart x s :
  isWhiteSpace x = false ->
  Chars.hasChar x s = true -> Chars.hasChar x (trimStart s) = true.
Proof.
  intros Hx. induction s as [|c s IH]; simpl; [done|].
  destruct (isWhiteSpace c) eqn:Ec; [|done].
  destruct (Ascii.eqb_spec c x) as [->|_]; [congruence|]. exact IH.
Qed.

Lemma hasChar_trimEnd x s :
  isWhiteSpace x = false ->
  Chars.hasChar x s = true -> Chars.hasChar x (trimEnd s) = true.
Proof.
  intros Hx. induction s as [|c s IH]; [done|]. cbn [trimEnd Chars.hasChar].
  destruct (Ascii.eqb_spec c x) as [->|Hne]; simpl.
  - intros _. destruct (trimEnd s); [rewrite Hx|]; simpl; by rewrite Ascii.eqb_refl.
  - intros Hs. specialize (IH Hs). destruct (trimEnd s) as [|d kept]; [done|].
    change (Chars.hasChar x (String c (String d kept)))
      with (Ascii.eqb c x || Chars.hasChar x (String d kept)).
    by rewrite IH, orb_true_r.
Qed.

Lemma hasChar_trim x s :
  isWhiteSpace x = false ->
  Chars.hasChar x s = true -> Chars.hasChar x (trim s) = true.
Proof. intros Hx Hs. by apply hasChar_trimEnd, hasChar_trimStart. Qed.
End TrimFacts.

Section SanitizedName.
Context {rt : Runtime}.
Import Validation Sanitize Verdict.

Lemma replaceChar_keeps c by_ x s :
  Ascii.eqb x c = false ->
  Chars.hasChar x s = true -> Chars.hasChar x (replaceChar c by_ s) = true.
Proof.
  intros Hx. induction s as [|d s IH]; simpl; [done|].
  destruct (Ascii.eqb_spec d x) as [->|Hne]; simpl.
  - intros _. rewrite Hx. simpl. by rewrite Ascii.eqb_refl.
  - intros Hs. destruct (Ascii.eqb d c).
    + by rewrite hasChar_app, (IH Hs), orb_true_r.
    + simpl. by rewrite (IH Hs), orb_true_r.
Qed.

Lemma replaceChar_adds c x rest s :
  Chars.hasChar c s = true ->
  Chars.hasChar x (replaceChar c (String x rest) s) = true.
Proof.
  induction s as [|d s IH]; simpl; [done|].
  destruct (Ascii.eqb d c); simpl.
  - intros _. append_step. simpl. by rewrite Ascii.eqb_refl.
  - intros Hs. by rewrite (IH Hs), orb_true_r.
Qed.

(** Either nothing is replaced or the result has an ampersand. *)
Lemma sanitizeInput_unchanged_or_ampersand input :
  sanitizeInput input = input
  \/ Chars.hasChar "&" (sanitizeInput input) = true.
Proof.
  unfold sanitizeInput.
  destruct (Chars.hasChar "<" input) eqn:H1.
  { right. do 4 (apply replaceChar_keeps; [reflexivity|]).
    by apply replaceChar_adds. }
  rewrite (replaceChar_id "<" _ _ H1).
  destruct (Chars.hasChar ">" input) eqn:H2.
  { right. do 3 (apply replaceChar_keeps; [reflexivity|]).
    by apply replaceChar_adds. }
  rewrite (replaceChar_id ">" _ _ H2).
  destruct (Chars.hasChar "034" input) eqn:H3.
  { right. do 2 (apply replaceChar_keeps; [reflexivity|]).
    by apply replaceChar_adds. }
  rewrite (replaceChar_id "034" _ _ H3).
  destruct (Chars.hasChar "'" input) eqn:H4.
  { right. apply replaceChar_keeps; [reflexivity|]. by apply replaceChar_adds. }
  rewrite (replaceChar_id "'" _ _ H4).
  destruct (Chars.hasChar "/" input) eqn:H5.
  { right. by apply replaceChar_adds. }
  left. apply replaceChar_id, H5.
Qed.

Lemma nameChars_sanitizeInput input :
  Chars.allChars Shapes.nameChar input = true -> sanitizeInput input = input.
Proof.
  intros Hall. apply sanitizeInput_id. unfold dangerousChars.
  repeat constructor; by apply (allChars_hasChar Shapes.nameChar).
Qed.

Lemma isBlank_trim name : isBlank (JsString.trim name) = isBlank name.
Proof.
  unfold isBlank. rewrite trim_idempotent.
  destruct (JsString.length (JsString.trim name) =? 0)%Z eqn:E.
  - by rewrite !orb_true_r.
  - rewrite !orb_false_r. apply Z.eqb_neq in E.
    destruct name as [|c name]; [done|].
    destruct (JsString.trim (String c name)); done.
Qed.

Lemma validateSpaceName_empty name :
  validateSpaceName name = ∅ <-> validateSpaceName name !! "name" = None.
Proof.
  split; [by intros ->|]. intros Hname. apply map_empty. intros field.
  destruct (decide (field = "name")) as [->|Hne]; [done|].
  apply not_elem_of_dom. intros Hin.
  apply (validateSpaceName_dom name) in Hin. set_solver.
Qed.

Lemma validateSpaceName_accepts name :
  bool_decide (validateSpaceName name = ∅) = acceptsName name.
Proof.
  unfold acceptsName. pose proof (validateSpaceName_lookup name) as Hlookup.
  pose proof (validateSpaceName_empty name) as Hempty.
  destruct (isBlank name); cbn [negb andb].
  { apply bool_decide_eq_false_2. rewrite Hempty, Hlookup. done. }
  destruct (listIncludes SPACE_NAME_RULES.reservedNames
              (toLowerCase (JsString.trim name))); cbn [negb andb].
  { apply bool_decide_eq_false_2. rewrite Hempty, Hlookup. done. }
  destruct (Chars.allChars Shapes.nameChar (JsString.trim name)); cbn [negb andb] in *.
  2: { apply bool_decide_eq_false_2. rewrite Hempty, Hlookup. done. }
  destruct (100 <? JsString.length (JsString.trim name))%Z; cbn [negb andb].
  { apply bool_decide_eq_false_2. rewrite Hempty, Hlookup. done. }
  apply bool_decide_eq_true_2. by rewrite Hempty, Hlookup.
Qed.

Lemma acceptsName_nameChars name :
  Chars.allChars Shapes.nameChar (JsString.trim name) = false ->
  acceptsName name = false.
Proof.
  intros H. unfold acceptsName. rewrite H.
  by rewrite andb_false_r.
Qed.

(** X30.  Sanitizing does not change the verdict on a space name:
    [validateAndSanitizeSpaceName] returns no errors exactly when
    [validateSpaceName] returns none for the name as given; and the value
    it returns for a name it accepts is the trimmed name, with nothing
    replaced. *)
Theorem validateAndSanitizeSpaceName_same_verdict (name : string) :
  bool_decide ((validateAndSanitizeSpaceName name).2 = ∅)
  = bool_decide (validateSpaceName name = ∅)
  /\ ((validateAndSanitizeSpaceName name).1 = JsString.trim name
      \/ validateSpaceName name <> ∅).
Proof.
  unfold validateAndSanitizeSpaceName. cbn [fst snd].
  rewrite !validateSpaceName_accepts.
  destruct (Chars.allChars Shapes.nameChar (JsString.trim name)) eqn:Hall.
  - rewrite (nameChars_sanitizeInput _ Hall). split; [|by left].
    unfold acceptsName. by rewrite isBlank_trim, trim_idempotent.
  - rewrite (acceptsName_nameChars name Hall). split.
    + apply acceptsName_nameChars.
      destruct (sanitizeInput_unchanged_or_ampersand (JsString.trim name)) as [->|Hamp].
      * by rewrite trim_idempotent.
      * destruct (Chars.allChars Shapes.nameChar
                    (JsString.trim (sanitizeInput (JsString.trim name)))) eqn:E; [|done].
        apply (allChars_hasChar Shapes.nameChar "&") in E; [|done].
        by rewrite (hasChar_trim "&" _ eq_refl Hamp) in E.
    + right. intros Hempty.
      apply (bool_decide_eq_true_2 _) in Hempty.
      rewrite validateSpaceName_accepts, (acceptsName_nameChars name Hall) in Hempty.
      done.
Qed.
End SanitizedName.
